(** * PixelPulse: the pixelation and animation pipeline of [js/pixelate.js]

    A shallow embedding of the three classes of the bundle
    ([PixelateEngine], [AnimationEngine], [GifExporter]) and of the
    handlers of the page script that drive them, with the properties of the
    rendering pipeline that the specification states about them and further
    properties of the code.

    Modelling conventions.
    - A JavaScript number is an exact rational ([Q]); integers that the code
      only ever uses as integers (pixel sizes, grid coordinates, colour
      channels, frame counters) are [Z].  Equalities between computed
      numbers are stated with [==].  The rounding of doubles is modelled
      where a result is about it: [Binary64.round] rounds to the nearest
      double, and [Binary64.getPixelatedData] is [getPixelatedData] with
      every quotient and product rounded.  Elsewhere numbers are exact: the
      clock of [animate] and the percentage of [addFrame] are the exact
      sum and quotient, which the double of the code can miss in its last
      bits.
    - The browser raises when an empty canvas is drawn from, which
      [getPixelatedData] does for an image whose scaled side is 0, and with
      it [prepare] and [start]; and the exporter fails on an animation
      engine that was never initialised.  [Binary64.getPixelatedData] has
      the exception.  The other definitions are total: the results that
      need the draw to succeed are stated for an image that can be drawn
      ([drawableIn]) or a page where [prepare] returns ([prepares]), and
      those about [startExport] for a page whose engines are initialised.
    - [Math.sin], [Math.cos], [Math.PI] and the browser's image scaling are
      not rational functions; they are the fields of the classes [MathLib]
      and [Canvas2D], and every result holds for every instance.
    - [Math.random] is a stream of draws with a read position.
    - A 2D context is the list of the [fillRect] calls it received; each
      call carries, as a ghost field, the grid cell of the loop iteration
      that issued it.
    - The page is one record ([World]) holding the two engines, the
      exporter, the callbacks registered with [requestAnimationFrame] and
      the trace of the calls made on the encoder and on the page's
      callbacks.  The pixelate engine lives there once: the animation
      engine refers to it, it does not own a copy. *)

From Stdlib Require Import ZArith QArith Qround Qminmax Qpower.
From Stdlib Require Import List Sorted String Bool Lia Lqa.
Import ListNotations.

Local Open Scope Z_scope.
Local Open Scope Q_scope.

(** ** JavaScript numbers *)

Module Js.

Definition floor (x : Q) : Z := Qfloor x.
Definition ceil (x : Q) : Z := Qceiling x.

(** [Math.round] rounds half up: [Math.round(2.5) = 3], [Math.round(-2.5) = -2]. *)
Definition round (x : Q) : Z := Qfloor (x + (1 # 2)).

(** Integer part, rounding toward zero. *)
Definition trunc (x : Q) : Z := if Qle_bool 0 x then Qfloor x else Qceiling x.

(** The remainder operator [a % b]: the sign of the result is the sign of
    [a], and [a % b = a - b * trunc (a / b)]. *)
Definition rem (a b : Q) : Q := (a - b * inject_Z (trunc (a / b)))%Q.

Definition ltb (x y : Q) : bool := negb (Qle_bool y x).
Definition gtb (x y : Q) : bool := ltb y x.
Definition eqb (x y : Q) : bool := Qeq_bool x y.

End Js.

(** ** The browser's canvas *)

(** An image, a canvas bitmap or an [ImageData]: its size and its RGBA bytes. *)
Record Raster := mkRaster {
  width : Z;
  height : Z;
  data : list Z
}.

(** [imageSmoothingEnabled] and [imageSmoothingQuality] of a 2D context. *)
Inductive Smoothing := SmoothOff | SmoothLow | SmoothMedium.

(** [ctx.drawImage(src, 0, 0, w, h)] on a fresh [w] by [h] canvas: the
    browser's resampling of [src], which the bundle does not define. *)
Class Canvas2D := {
  scaleImage : Smoothing -> Raster -> Z -> Z -> Raster
}.

(** ** PixelateEngine *)

Record PixelateEngine := mkPixelateEngine {
  originalImage : option Raster;
  originalImageData : option Raster;
  pixelSize : Z;
  outputWidth : Z;
  outputHeight : Z;
  tempCanvas : Raster
}.

Record Pixel := mkPixel { r : Z; g : Z; b : Z; a : Z }.

Definition Grid := list (list Pixel).

(** [for (let i = 0; i < n; i++)]: the values [i] takes. *)
Definition upto (n : Z) : list Z := map Z.of_nat (seq 0 (Z.to_nat n)).

(** [arr[i]] on an array: [undefined] outside [0 .. length-1]. *)
Definition index {A : Type} (l : list A) (i : Z) : option A :=
  if i <? 0 then None else nth_error l (Z.to_nat i).

Section Pixelate.

Context {canvas2d : Canvas2D}.

Definition newPixelateEngine : PixelateEngine :=
  mkPixelateEngine None None 8 0 0 (mkRaster 300 150 []).

(** [onload] of [loadImage]: the decoded image is stored and captured. *)
Definition captureOriginalData (e : PixelateEngine) : PixelateEngine :=
  match originalImage e with
  | None => e
  | Some img =>
      mkPixelateEngine (originalImage e) (Some img) (pixelSize e)
        (outputWidth e) (outputHeight e) img
  end.

Definition imageLoaded (e : PixelateEngine) (img : Raster) : PixelateEngine :=
  captureOriginalData
    (mkPixelateEngine (Some img) (originalImageData e) (pixelSize e)
       (outputWidth e) (outputHeight e) (tempCanvas e)).

Definition setPixelSize (e : PixelateEngine) (size : Z) : PixelateEngine :=
  mkPixelateEngine (originalImage e) (originalImageData e)
    (Z.max 4 (Z.min 64 size)) (outputWidth e) (outputHeight e) (tempCanvas e).

(** The scale of [getPixelatedData] and [renderOriginalToCanvas]. *)
Definition fitScale (img : Raster) (maxWidth maxHeight : Q) : Q :=
  Qmin (Qmin (maxWidth / inject_Z (width img)) (maxHeight / inject_Z (height img))) 1.

Definition getPixelatedData (e : PixelateEngine) (maxWidth maxHeight : Q)
  : option Raster * PixelateEngine :=
  match originalImage e with
  | None => (None, e)
  | Some img =>
      let pixelSize := pixelSize e in
      let scale := fitScale img maxWidth maxHeight in
      let scaledWidth := Js.floor (inject_Z (width img) * scale) in
      let scaledHeight := Js.floor (inject_Z (height img) * scale) in
      let gridWidth := Js.ceil (inject_Z scaledWidth / inject_Z pixelSize) in
      let gridHeight := Js.ceil (inject_Z scaledHeight / inject_Z pixelSize) in
      let outW := (gridWidth * pixelSize)%Z in
      let outH := (gridHeight * pixelSize)%Z in
      let smallCanvas := scaleImage SmoothMedium img gridWidth gridHeight in
      let temp := scaleImage SmoothOff smallCanvas outW outH in
      (Some temp,
       mkPixelateEngine (originalImage e) (originalImageData e) pixelSize
         outW outH temp)
  end.

(** The target canvas is passed in and handed back. *)
Definition renderToCanvas (e : PixelateEngine) (targetCanvas : Raster)
  (maxWidth maxHeight : Q) : PixelateEngine * Raster :=
  match originalImage e with
  | None => (e, targetCanvas)
  | Some _ =>
      match getPixelatedData e maxWidth maxHeight with
      | (None, e') => (e', targetCanvas)
      | (Some imageData, e') =>
          (e', mkRaster (outputWidth e') (outputHeight e') (data imageData))
      end
  end.


Definition getGridSize (e : PixelateEngine) : Z * Z :=
  (Js.ceil (inject_Z (outputWidth e) / inject_Z (pixelSize e)),
   Js.ceil (inject_Z (outputHeight e) / inject_Z (pixelSize e))).

(** A byte of an [ImageData]; the buffer of a [w] by [h] read has
    [4 * w * h] entries, so the default is never used on it. *)
Definition byteAt (d : list Z) (i : Z) : Z :=
  match index d i with Some v => v | None => 0 end.

(** [getPixelGrid] reads the engine and builds a fresh grid; it assigns no
    field of the engine. *)
Definition getPixelGrid (e : PixelateEngine) : option Grid :=
  match originalImage e with
  | None => None
  | Some img =>
      let '(gridWidth, gridHeight) := getGridSize e in
      let d := data (scaleImage SmoothLow img gridWidth gridHeight) in
      Some (map (fun y =>
              map (fun x =>
                let i := ((y * gridWidth + x) * 4)%Z in
                mkPixel (byteAt d i) (byteAt d (i + 1)%Z) (byteAt d (i + 2)%Z)
                        (byteAt d (i + 3)%Z))
                (upto gridWidth))
            (upto gridHeight))
  end.

Definition getOutputSize (e : PixelateEngine) : Z * Z :=
  (outputWidth e, outputHeight e).

Definition dispose (e : PixelateEngine) : PixelateEngine :=
  mkPixelateEngine None None (pixelSize e) (outputWidth e) (outputHeight e)
    (tempCanvas e).

End Pixelate.

(** ** PixelateEngine in double precision *)

(** What a call leaves behind: the value it returned, or nothing when the
    host raised an exception in the middle of it. *)
Inductive Outcome (A : Type) : Type :=
  | Returned (value : A)
  | Raised.

Arguments Returned {A} value.
Arguments Raised {A}.

(** The arithmetic of [getPixelatedData] as the engine of the browser
    performs it: every division and every product of two numbers is rounded
    to the nearest double.  Products of two integers below [2 ^ 53] are
    exact and are written in [Z]. *)
Module Binary64.

(** [2 ^ e], for every integer [e]. *)
Definition pow2 (e : Z) : Q := (2 # 1) ^ e.

(** The nearest integer, the even one of two that are equally near. *)
Definition nearestEven (x : Q) : Z :=
  let f := Qfloor x in
  match Qcompare (x - inject_Z f) (1 # 2) with
  | Lt => f
  | Gt => (f + 1)%Z
  | Eq => if Z.even f then f else (f + 1)%Z
  end.

(** The exponent [E] of a positive number: [2 ^ E <= a < 2 ^ (E + 1)].  The
    logarithms of numerator and denominator give it up to one. *)
Definition exponent (a : Q) : Z :=
  let k := (Z.log2 (Qnum a) - Z.log2 (Zpos (Qden a)))%Z in
  if Qle_bool (pow2 k) a then k else (k - 1)%Z.

(** The double nearest to [x]: 53 significant bits, ties to even.  The
    exponent is not limited: there is no overflow to [Infinity] and no
    subnormal number, from both of which the sizes of a canvas are far. *)
Definition round (x : Q) : Q :=
  match Qcompare x 0 with
  | Eq => 0
  | Gt => let u := pow2 (exponent x - 52) in Qred (inject_Z (nearestEven (x / u)) * u)
  | Lt => let u := pow2 (exponent (- x) - 52) in Qred (- (inject_Z (nearestEven (- x / u)) * u))
  end.

(** Half the gap between 1 and the next double, [2 ^ -53]. *)
Definition epsilon : Q := 1 # 9007199254740992.

Section Pixelate.

Context {canvas2d : Canvas2D}.

(** The sizes are stored and the temporary canvas is resized before the
    first draw.  A grid with an empty side makes [smallCanvas] an empty
    canvas, and [drawImage] raises on an empty source canvas: the call then
    ends there, with the sizes stored and nothing drawn. *)
Definition getPixelatedData (e : PixelateEngine) (maxWidth maxHeight : Q)
  : Outcome (option Raster) * PixelateEngine :=
  match originalImage e with
  | None => (Returned None, e)
  | Some img =>
      let pixelSize := pixelSize e in
      let scale :=
        Qmin (Qmin (round (maxWidth / inject_Z (width img)))
                   (round (maxHeight / inject_Z (height img)))) 1 in
      let scaledWidth := Js.floor (round (inject_Z (width img) * scale)) in
      let scaledHeight := Js.floor (round (inject_Z (height img) * scale)) in
      let gridWidth := Js.ceil (round (inject_Z scaledWidth / inject_Z pixelSize)) in
      let gridHeight := Js.ceil (round (inject_Z scaledHeight / inject_Z pixelSize)) in
      let outW := (gridWidth * pixelSize)%Z in
      let outH := (gridHeight * pixelSize)%Z in
      if (gridWidth =? 0)%Z || (gridHeight =? 0)%Z then
        (Raised,
         mkPixelateEngine (originalImage e) (originalImageData e) pixelSize
           outW outH (mkRaster outW outH []))
      else
        let smallCanvas := scaleImage SmoothMedium img gridWidth gridHeight in
        let temp := scaleImage SmoothOff smallCanvas outW outH in
        (Returned (Some temp),
         mkPixelateEngine (originalImage e) (originalImageData e) pixelSize
           outW outH temp)
  end.

End Pixelate.

End Binary64.

(** ** AnimationEngine *)

(** The [Math] functions the effects call that have no rational value. *)
Class MathLib := {
  Math_sin : Q -> Q;
  Math_cos : Q -> Q;
  Math_PI : Q
}.

(** [Math.random]: the draws the host will return, and how many were taken. *)
Record Rng := mkRng { draws : nat -> Q; taken : nat }.

Definition random (rng : Rng) : Q * Rng :=
  (draws rng (taken rng), mkRng (draws rng) (S (taken rng))).

(** A value of [ctx.fillStyle]: the hex colour of the background, or the
    arguments of an [rgba(r, g, b, alpha)] template. *)
Inductive FillStyle :=
  | Hex (code : string)
  | Rgba (red green blue : Z) (alpha : Q).

(** One [ctx.fillRect(x, y, w, h)] under the style in force.  [cell] is a
    ghost field: the grid coordinates [(x, y)] of the loop iteration that
    issued the call, [None] for the background clear. *)
Record Fill := mkFill {
  cell : option (Z * Z);
  style : FillStyle;
  rectX : Q;
  rectY : Q;
  rectW : Q;
  rectH : Q
}.

Record Hsl := mkHsl { h : Q; s : Q; l : Q }.

Record AnimationEngine := mkAnimationEngine {
  canvas : Raster;                (* the size of the target canvas *)
  surface : list Fill;            (* what the canvas shows: the fills since its last clear *)
  attached : bool;                (* [pixelateEngine] is set; the engine itself is shared *)
  animationId : option Z;
  isRunning : bool;
  currentEffect : string;
  intensity : Z;
  speed : Z;
  time : Q;
  pixelGrid : option Grid;
  baseImageData : option Raster;
  onFrameCapture : bool;          (* a frame capture callback is installed *)
  frameCount : Z
}.

(** [this.pixelGrid[y]?.[x]] *)
Definition cellAt (grid : Grid) (y x : Z) : option Pixel :=
  match index grid y with
  | Some row => index row x
  | None => None
  end.

(** [if (!pixel || pixel.a < 10) continue;] followed by the loop body. *)
Definition drawn {A : Type} (pixel : option Pixel) (body : Pixel -> list A) : list A :=
  match pixel with
  | None => []
  | Some p => if a p <? 10 then [] else body p
  end.

(** The nested loops over the grid, rows outermost. *)
Definition forCells {A : Type} (gridSize : Z * Z) (body : Z -> Z -> list A) : list A :=
  flat_map (fun y => flat_map (fun x => body x y) (upto (fst gridSize)))
           (upto (snd gridSize)).

Definition opacity (p : Pixel) : Q := inject_Z (a p) / 255.

Section Effects.

Context {math : MathLib}.

Definition seededRandom (seed : Z) : Q :=
  let x := Math_sin (inject_Z seed) * 10000 in
  x - inject_Z (Js.floor x).

Definition rgbToHsl (r g b : Z) : Hsl :=
  let r := inject_Z r / 255 in
  let g := inject_Z g / 255 in
  let b := inject_Z b / 255 in
  let max := Qmax (Qmax r g) b in
  let min := Qmin (Qmin r g) b in
  let l := (max + min) / 2 in
  if Js.eqb max min then mkHsl (0 * 360) 0 l
  else
    let d := max - min in
    let s := if Js.gtb l 0.5 then d / (2 - max - min) else d / (max + min) in
    let h :=
      if Js.eqb max r then ((g - b) / d + (if Js.ltb g b then 6 else 0)) / 6
      else if Js.eqb max g then ((b - r) / d + 2) / 6
      else ((r - g) / d + 4) / 6 in
    mkHsl (h * 360) s l.

Definition hue2rgb (p q t : Q) : Q :=
  let t := if Js.ltb t 0 then t + 1 else t in
  let t := if Js.gtb t 1 then t - 1 else t in
  if Js.ltb t (1 / 6) then p + (q - p) * 6 * t
  else if Js.ltb t (1 / 2) then q
  else if Js.ltb t (2 / 3) then p + (q - p) * (2 / 3 - t) * 6
  else p.

(** The result [{r, g, b}] as a triple. *)
Definition hslToRgb (h s l : Q) : Z * Z * Z :=
  let h := h / 360 in
  let '(r, g, b) :=
    if Js.eqb s 0 then (l, l, l)
    else
      let q := if Js.ltb l 0.5 then l * (1 + s) else l + s - l * s in
      let p := 2 * l - q in
      (hue2rgb p q (h + 1 / 3), hue2rgb p q h, hue2rgb p q (h - 1 / 3)) in
  (Js.round (r * 255), Js.round (g * 255), Js.round (b * 255)).

Definition renderStatic (grid : Grid) (pixelSize : Z) (gridSize : Z * Z) : list Fill :=
  let ps := inject_Z pixelSize in
  forCells gridSize (fun x y =>
    drawn (cellAt grid y x) (fun pixel =>
      [mkFill (Some (x, y)) (Rgba (r pixel) (g pixel) (b pixel) (opacity pixel))
         (inject_Z x * ps) (inject_Z y * ps) ps ps])).

Record GlitchLine := mkGlitchLine { lineY : Z; lineOffset : Q; lineHeight : Z }.

(** The loop that fills [glitchLines]; [n] iterations remain. *)
Fixpoint sampleGlitchLines (n : nat) (intensity gridHeight : Z) (rng : Rng)
  : list GlitchLine * Rng :=
  match n with
  | O => ([], rng)
  | S n' =>
      let (u, rng) := random rng in
      if Js.ltb u (0.1 * inject_Z intensity) then
        let (uy, rng) := random rng in
        let (uo, rng) := random rng in
        let (uh, rng) := random rng in
        let line := mkGlitchLine (Js.floor (uy * inject_Z gridHeight))
                      ((uo - 0.5) * inject_Z intensity * 2)
                      (Js.floor (uh * 3) + 1)%Z in
        let (rest, rng) := sampleGlitchLines n' intensity gridHeight rng in
        (line :: rest, rng)
      else sampleGlitchLines n' intensity gridHeight rng
  end.

(** The offset of the first glitch line that covers row [y]. *)
Definition glitchOffset (glitchLines : list GlitchLine) (y pixelSize : Z) : Q :=
  match find (fun line => (lineY line <=? y)%Z && (y <? lineY line + lineHeight line)%Z)
             glitchLines with
  | Some line => lineOffset line * inject_Z pixelSize
  | None => 0
  end.

Definition glitchCell (time : Q) (intensity pixelSize : Z) (xOffset : Q) (x y : Z)
  (pixel : Pixel) : list Fill :=
  let ps := inject_Z pixelSize in
  let rgbSplit := Math_sin (time * 10) * inject_Z intensity * 0.3 in
  [mkFill (Some (x, y)) (Rgba (r pixel) 0 0 (opacity pixel * 0.8))
     (inject_Z x * ps + xOffset - rgbSplit) (inject_Z y * ps) ps ps;
   mkFill (Some (x, y)) (Rgba 0 (g pixel) (b pixel) (opacity pixel * 0.8))
     (inject_Z x * ps + xOffset + rgbSplit) (inject_Z y * ps) ps ps;
   mkFill (Some (x, y)) (Rgba (r pixel) (g pixel) (b pixel) (opacity pixel * 0.4))
     (inject_Z x * ps + xOffset) (inject_Z y * ps) ps ps].

(** The row loop of [renderGlitch], over the rows still to draw. *)
Fixpoint glitchRows (rows : list Z) (grid : Grid) (time : Q) (intensity pixelSize : Z)
  (gridWidth : Z) (glitchLines : list GlitchLine) (rng : Rng) : list Fill * Rng :=
  match rows with
  | [] => ([], rng)
  | y :: rows' =>
      let xOffset := glitchOffset glitchLines y pixelSize in
      let (u, rng) := random rng in
      let (xOffset, rng) :=
        if Js.ltb u (0.02 * inject_Z intensity) then
          let (v, rng) := random rng in
          (xOffset + (v - 0.5) * inject_Z intensity * inject_Z pixelSize * 0.5, rng)
        else (xOffset, rng) in
      let fills :=
        flat_map (fun x =>
          drawn (cellAt grid y x) (glitchCell time intensity pixelSize xOffset x y))
          (upto gridWidth) in
      let (rest, rng) :=
        glitchRows rows' grid time intensity pixelSize gridWidth glitchLines rng in
      (fills ++ rest, rng)
  end.

Definition renderGlitch (grid : Grid) (intensity : Z) (time : Q) (pixelSize : Z)
  (gridSize : Z * Z) (rng : Rng) : list Fill * Rng :=
  let numGlitchLines := (Js.floor (inject_Z intensity / 2) + 1)%Z in
  let (glitchLines, rng) :=
    sampleGlitchLines (Z.to_nat numGlitchLines) intensity (snd gridSize) rng in
  glitchRows (upto (snd gridSize)) grid time intensity pixelSize (fst gridSize)
    glitchLines rng.

Definition renderFloat (grid : Grid) (intensity : Z) (time : Q) (pixelSize : Z)
  (gridSize : Z * Z) : list Fill :=
  let ps := inject_Z pixelSize in
  let floatY := Math_sin (time * 2) * inject_Z intensity * 2 in
  let floatX := Math_cos (time * 1.5) * inject_Z intensity * 0.5 in
  forCells gridSize (fun x y =>
    drawn (cellAt grid y x) (fun pixel =>
      [mkFill (Some (x, y)) (Rgba 0 0 0 0.3)
         (inject_Z x * ps + floatX + 4) (inject_Z y * ps + floatY + 4) ps ps]))
  ++
  forCells gridSize (fun x y =>
    drawn (cellAt grid y x) (fun pixel =>
      let breathe := 0.9 + Math_sin (time * 3) * 0.1 * (inject_Z intensity / 10) in
      let r := Z.min 255 (Js.floor (inject_Z (r pixel) * breathe)) in
      let g := Z.min 255 (Js.floor (inject_Z (g pixel) * breathe)) in
      let b := Z.min 255 (Js.floor (inject_Z (b pixel) * breathe)) in
      [mkFill (Some (x, y)) (Rgba r g b (opacity pixel))
         (inject_Z x * ps + floatX) (inject_Z y * ps + floatY) ps ps])).

(** Where sparkle candidate [i] lands at [time]: the grid cell [(x, y)]. *)
Definition sparklePosition (i : Z) (time : Q) (gridSize : Z * Z) : Z * Z :=
  let seed := (i * 1000 + Js.floor (time * 3))%Z in
  let rx := seededRandom seed * inject_Z (fst gridSize) in
  let ry := seededRandom (seed + 1)%Z * inject_Z (snd gridSize) in
  (Js.floor rx, Js.floor ry).

Definition sparkleAt (i : Z) (time : Q) (pixelSize x y : Z) : list Fill :=
  let ps := inject_Z pixelSize in
  let sparklePhase := Js.rem (time * 5 + inject_Z i * 0.5) (Math_PI * 2) in
  let brightness := Math_sin sparklePhase * Math_sin sparklePhase in
  if Js.gtb brightness 0.3 then
    let glowSize := ps * (1 + brightness * 0.5) in
    let glowX := inject_Z x * ps + (ps - glowSize) / 2 in
    let glowY := inject_Z y * ps + (ps - glowSize) / 2 in
    mkFill (Some (x, y)) (Rgba 255 255 255 (brightness * 0.8)) glowX glowY glowSize glowSize
    :: (if Js.gtb brightness 0.6 then
          [mkFill (Some (x, y)) (Rgba 255 255 255 (brightness * 0.3))
             (glowX - ps) (glowY - ps) (glowSize + ps * 2) (glowSize + ps * 2)]
        else [])
  else [].

Definition renderSparkle (grid : Grid) (intensity : Z) (time : Q) (pixelSize : Z)
  (gridSize : Z * Z) : list Fill :=
  let ps := inject_Z pixelSize in
  forCells gridSize (fun x y =>
    drawn (cellAt grid y x) (fun pixel =>
      [mkFill (Some (x, y)) (Rgba (r pixel) (g pixel) (b pixel) (opacity pixel))
         (inject_Z x * ps) (inject_Z y * ps) ps ps]))
  ++
  let numSparkles := (intensity * 5)%Z in
  flat_map (fun i =>
    let '(x, y) := sparklePosition i time gridSize in
    drawn (cellAt grid y x) (fun _ => sparkleAt i time pixelSize x y))
    (upto numSparkles).

Definition renderWave (grid : Grid) (intensity : Z) (time : Q) (pixelSize : Z)
  (gridSize : Z * Z) : list Fill :=
  let ps := inject_Z pixelSize in
  forCells gridSize (fun x y =>
    let waveX := Math_sin (inject_Z y * 0.3 + time * 3) * inject_Z intensity * 0.8 in
    let waveY := Math_sin (inject_Z y * 0.2 + time * 2) * inject_Z intensity * 0.3 in
    drawn (cellAt grid y x) (fun pixel =>
      let localWave := Math_sin (inject_Z x * 0.4 + time * 4) * inject_Z intensity * 0.2 in
      [mkFill (Some (x, y)) (Rgba (r pixel) (g pixel) (b pixel) (opacity pixel))
         (inject_Z x * ps + waveX) (inject_Z y * ps + waveY + localWave) ps ps])).

(** [hueShift] of [renderRainbow] at cell [(x, y)]. *)
Definition hueShift (x y : Z) (time : Q) (intensity : Z) : Q :=
  Js.rem (inject_Z x + inject_Z y + time * 50 * (inject_Z intensity / 5)) 360.

(** The [hsl] object after the two assignments to [hsl.h] and [hsl.s]. *)
Definition rainbowHsl (pixel : Pixel) (x y : Z) (time : Q) (intensity : Z) : Hsl :=
  let hsl := rgbToHsl (r pixel) (g pixel) (b pixel) in
  let h' := Js.rem (h hsl + hueShift x y time intensity * (inject_Z intensity / 10)) 360 in
  let s' := Qmin 1 (s hsl + 0.2 * (inject_Z intensity / 10)) in
  mkHsl h' s' (l hsl).

Definition rainbowCell (intensity : Z) (time : Q) (pixelSize x y : Z) (pixel : Pixel)
  : list Fill :=
  let ps := inject_Z pixelSize in
  let hsl := rainbowHsl pixel x y time intensity in
  let '(r, g, b) := hslToRgb (h hsl) (s hsl) (l hsl) in
  [mkFill (Some (x, y)) (Rgba r g b (opacity pixel))
     (inject_Z x * ps) (inject_Z y * ps) ps ps].

Definition renderRainbow (grid : Grid) (intensity : Z) (time : Q) (pixelSize : Z)
  (gridSize : Z * Z) : list Fill :=
  forCells gridSize (fun x y =>
    drawn (cellAt grid y x) (rainbowCell intensity time pixelSize x y)).

End Effects.

(** ** The page: both engines, the exporter and the host's frame scheduler *)

(** A callback handed to [requestAnimationFrame].  The capture loop is a
    closure; its captured variables travel with it. *)
Inductive Task :=
  | Animate
  | CaptureLoop (wasRunning : bool) (captureInterval : Z) (frameCounter : Z).

(** The two progress messages: capturing frame [captured] of [total], and
    encoding. *)
Inductive Message :=
  | Capturing (captured total : Z)
  | Encoding.

(** What the outside sees: the calls on the [gif.js] encoder and on the
    callbacks installed by the page. *)
Inductive Event :=
  | GifAddFrame (frame : list Fill) (delay : Z)
  | GifRender
  | GifAbort
  | OnProgress (percent : Z) (message : Message)
  | OnComplete
  | OnError
  | OnFrameCapture (frameCount : Z).

Record ExportOptions := mkExportOptions {
  frames : option Z;
  delay : option Z;
  quality : option Z;
  captureInterval : option Z
}.

(** The options the encoder was created with. *)
Record Gif := mkGif { gifQuality : Z; gifWidth : Z; gifHeight : Z }.

Record GifExporter := mkGifExporter {
  gif : option Gif;
  isExporting : bool;
  framesCaptured : Z;
  totalFrames : Z;
  frameDelay : Z;
  onProgress : bool;             (* a progress callback is installed *)
  onComplete : bool;
  onError : bool
}.

Record World := mkWorld {
  pixelateEngine : PixelateEngine;
  animationEngine : AnimationEngine;
  gifExporter : GifExporter;
  gifLoaded : bool;              (* [typeof GIF !== 'undefined'] *)
  rng : Rng;
  pending : list (Z * Task);     (* callbacks registered for the next frame *)
  current : list (Z * Task);     (* callbacks of the running frame still to call *)
  nextHandle : Z;
  trace : list Event             (* oldest first *)
}.

(** [value || fallback] on a number: 0 is falsy. *)
Definition orDefault (value fallback : Z) : Z :=
  if (value =? 0)%Z then fallback else value.

(** [options.field || fallback]: a missing field is falsy too. *)
Definition orElse (value : option Z) (fallback : Z) : Z :=
  match value with
  | Some v => orDefault v fallback
  | None => fallback
  end.

Definition isGifAddFrame (ev : Event) : bool :=
  match ev with GifAddFrame _ _ => true | _ => false end.

Definition progressOf (ev : Event) : option Z :=
  match ev with OnProgress percent _ => Some percent | _ => None end.

(** The percentages reported to the progress callback, oldest first. *)
Definition progressValues (t : list Event) : list Z :=
  flat_map (fun ev => match progressOf ev with Some p => [p] | None => [] end) t.

Definition isCaptureLoop (entry : Z * Task) : bool :=
  match snd entry with CaptureLoop _ _ _ => true | Animate => false end.

Section Page.

Context {canvas2d : Canvas2D} {math : MathLib}.

(** *** Field updates *)

Definition updAnimation (f : AnimationEngine -> AnimationEngine) (w : World) : World :=
  mkWorld (pixelateEngine w) (f (animationEngine w)) (gifExporter w) (gifLoaded w)
    (rng w) (pending w) (current w) (nextHandle w) (trace w).

Definition updExporter (f : GifExporter -> GifExporter) (w : World) : World :=
  mkWorld (pixelateEngine w) (animationEngine w) (f (gifExporter w)) (gifLoaded w)
    (rng w) (pending w) (current w) (nextHandle w) (trace w).

Definition emit (ev : Event) (w : World) : World :=
  mkWorld (pixelateEngine w) (animationEngine w) (gifExporter w) (gifLoaded w)
    (rng w) (pending w) (current w) (nextHandle w) (trace w ++ [ev]).

Definition setRunning (v : bool) (e : AnimationEngine) : AnimationEngine :=
  mkAnimationEngine (canvas e) (surface e) (attached e) (animationId e) v
    (currentEffect e) (intensity e) (speed e) (time e) (pixelGrid e)
    (baseImageData e) (onFrameCapture e) (frameCount e).

Definition setAnimationId (v : option Z) (e : AnimationEngine) : AnimationEngine :=
  mkAnimationEngine (canvas e) (surface e) (attached e) v (isRunning e)
    (currentEffect e) (intensity e) (speed e) (time e) (pixelGrid e)
    (baseImageData e) (onFrameCapture e) (frameCount e).

Definition setTime (v : Q) (e : AnimationEngine) : AnimationEngine :=
  mkAnimationEngine (canvas e) (surface e) (attached e) (animationId e) (isRunning e)
    (currentEffect e) (intensity e) (speed e) v (pixelGrid e)
    (baseImageData e) (onFrameCapture e) (frameCount e).

Definition setFrameCount (v : Z) (e : AnimationEngine) : AnimationEngine :=
  mkAnimationEngine (canvas e) (surface e) (attached e) (animationId e) (isRunning e)
    (currentEffect e) (intensity e) (speed e) (time e) (pixelGrid e)
    (baseImageData e) (onFrameCapture e) v.

Definition setSurface (v : list Fill) (e : AnimationEngine) : AnimationEngine :=
  mkAnimationEngine (canvas e) v (attached e) (animationId e) (isRunning e)
    (currentEffect e) (intensity e) (speed e) (time e) (pixelGrid e)
    (baseImageData e) (onFrameCapture e) (frameCount e).

(** *** AnimationEngine: control *)

Definition init (targetCanvas : Raster) (e : AnimationEngine) : AnimationEngine :=
  mkAnimationEngine targetCanvas (surface e) true (animationId e) (isRunning e)
    (currentEffect e) (intensity e) (speed e) (time e) (pixelGrid e)
    (baseImageData e) (onFrameCapture e) (frameCount e).

Definition setEffect (effect : string) (e : AnimationEngine) : AnimationEngine :=
  mkAnimationEngine (canvas e) (surface e) (attached e) (animationId e) (isRunning e)
    effect (intensity e) (speed e) (time e) (pixelGrid e)
    (baseImageData e) (onFrameCapture e) (frameCount e).

Definition setIntensity (v : Z) (e : AnimationEngine) : AnimationEngine :=
  mkAnimationEngine (canvas e) (surface e) (attached e) (animationId e) (isRunning e)
    (currentEffect e) (Z.max 1 (Z.min 10 v)) (speed e) (time e) (pixelGrid e)
    (baseImageData e) (onFrameCapture e) (frameCount e).

Definition setSpeed (v : Z) (e : AnimationEngine) : AnimationEngine :=
  mkAnimationEngine (canvas e) (surface e) (attached e) (animationId e) (isRunning e)
    (currentEffect e) (intensity e) (Z.max 1 (Z.min 10 v)) (time e) (pixelGrid e)
    (baseImageData e) (onFrameCapture e) (frameCount e).

Definition reset (e : AnimationEngine) : AnimationEngine :=
  setFrameCount 0 (setTime 0 e).

(** [0.016 * (speed / 5)]: how far one tick moves the clock. *)
Definition tick (speed : Z) : Q := 0.016 * (inject_Z speed / 5).

(** [prepare]: the pixelated image and the grid are recomputed on the shared
    pixelate engine; assigning the canvas size resets the canvas. *)
Definition prepare (w : World) : World :=
  let e := animationEngine w in
  if negb (attached e) then w
  else
    let '(imageData, p) :=
      getPixelatedData (pixelateEngine w)
        (inject_Z (orDefault (width (canvas e)) 400))
        (inject_Z (orDefault (height (canvas e)) 400)) in
    let '(outW, outH) := getOutputSize p in
    let e' :=
      mkAnimationEngine (mkRaster outW outH []) [] (attached e) (animationId e)
        (isRunning e) (currentEffect e) (intensity e) (speed e) (time e)
        (getPixelGrid p) imageData (onFrameCapture e) (frameCount e) in
    mkWorld p e' (gifExporter w) (gifLoaded w) (rng w) (pending w) (current w)
      (nextHandle w) (trace w).

(** *** AnimationEngine: one frame *)

(** The [switch] of [render]: every name but the five below is drawn static. *)
Definition renderEffect (effect : string) (grid : Grid) (intensity : Z) (time : Q)
  (pixelSize : Z) (gridSize : Z * Z) (rng : Rng) : list Fill * Rng :=
  if String.eqb effect "glitch" then
    renderGlitch grid intensity time pixelSize gridSize rng
  else if String.eqb effect "float" then
    (renderFloat grid intensity time pixelSize gridSize, rng)
  else if String.eqb effect "sparkle" then
    (renderSparkle grid intensity time pixelSize gridSize, rng)
  else if String.eqb effect "wave" then
    (renderWave grid intensity time pixelSize gridSize, rng)
  else if String.eqb effect "rainbow" then
    (renderRainbow grid intensity time pixelSize gridSize, rng)
  else (renderStatic grid pixelSize gridSize, rng).

(** The fills of one [render] call, background clear first, and the random
    source it leaves; [None] when [render] returns at its guard. *)
Definition renderFills (p : PixelateEngine) (e : AnimationEngine) (rng : Rng)
  : option (list Fill * Rng) :=
  match baseImageData e, pixelGrid e with
  | Some _, Some grid =>
      let clear :=
        mkFill None (Hex "#0f0f23") 0 0
          (inject_Z (width (canvas e))) (inject_Z (height (canvas e))) in
      let '(fills, rng') :=
        renderEffect (currentEffect e) grid (intensity e) (time e)
          (pixelSize p) (getGridSize p) rng in
      Some (clear :: fills, rng')
  | _, _ => None
  end.

Definition render (w : World) : World :=
  match renderFills (pixelateEngine w) (animationEngine w) (rng w) with
  | None => w
  | Some (fills, rng') =>
      mkWorld (pixelateEngine w) (setSurface fills (animationEngine w))
        (gifExporter w) (gifLoaded w) rng' (pending w) (current w)
        (nextHandle w) (trace w)
  end.

(** *** The host's scheduler *)

Definition requestAnimationFrame (task : Task) (w : World) : Z * World :=
  (nextHandle w,
   mkWorld (pixelateEngine w) (animationEngine w) (gifExporter w) (gifLoaded w)
     (rng w) (pending w ++ [(nextHandle w, task)]) (current w)
     (nextHandle w + 1)%Z (trace w)).

Definition cancelAnimationFrame (id : Z) (w : World) : World :=
  let keep := filter (fun entry => negb (fst entry =? id)%Z) in
  mkWorld (pixelateEngine w) (animationEngine w) (gifExporter w) (gifLoaded w)
    (rng w) (keep (pending w)) (keep (current w)) (nextHandle w) (trace w).

Definition animate (w : World) : World :=
  if negb (isRunning (animationEngine w)) then w
  else
    let w := render w in
    let w := updAnimation (fun e => setTime (time e + tick (speed e)) e) w in
    let w := updAnimation (fun e => setFrameCount (frameCount e + 1)%Z e) w in
    let w :=
      if onFrameCapture (animationEngine w)
      then emit (OnFrameCapture (frameCount (animationEngine w))) w
      else w in
    let '(id, w) := requestAnimationFrame Animate w in
    updAnimation (setAnimationId (Some id)) w.

Definition start (w : World) : World :=
  if isRunning (animationEngine w) then w
  else
    let w := prepare w in
    let w := updAnimation (setRunning true) w in
    let w := updAnimation (setTime 0) w in
    let w := updAnimation (setFrameCount 0) w in
    animate w.

(** [if (this.animationId)]: a handle of 0 counts as none. *)
Definition stop (w : World) : World :=
  let w := updAnimation (setRunning false) w in
  match animationId (animationEngine w) with
  | Some id =>
      if (id =? 0)%Z then w
      else updAnimation (setAnimationId None) (cancelAnimationFrame id w)
  | None => w
  end.

(** *** GifExporter *)

Definition setExporting (v : bool) (x : GifExporter) : GifExporter :=
  mkGifExporter (gif x) v (framesCaptured x) (totalFrames x) (frameDelay x)
    (onProgress x) (onComplete x) (onError x).

Definition setFramesCaptured (v : Z) (x : GifExporter) : GifExporter :=
  mkGifExporter (gif x) (isExporting x) v (totalFrames x) (frameDelay x)
    (onProgress x) (onComplete x) (onError x).

Definition setGif (v : option Gif) (x : GifExporter) : GifExporter :=
  mkGifExporter v (isExporting x) (framesCaptured x) (totalFrames x) (frameDelay x)
    (onProgress x) (onComplete x) (onError x).

Definition setProgressCallback (v : bool) (x : GifExporter) : GifExporter :=
  mkGifExporter (gif x) (isExporting x) (framesCaptured x) (totalFrames x)
    (frameDelay x) v (onComplete x) (onError x).

Definition setErrorCallback (v : bool) (x : GifExporter) : GifExporter :=
  mkGifExporter (gif x) (isExporting x) (framesCaptured x) (totalFrames x)
    (frameDelay x) (onProgress x) (onComplete x) v.

(** [init]: [false] when the encoder library is missing. *)
Definition initExporter (width height : Z) (options : ExportOptions) (w : World)
  : bool * World :=
  if negb (gifLoaded w) then
    (false, if onError (gifExporter w) then emit OnError w else w)
  else
    (true,
     updExporter (fun x =>
       mkGifExporter
         (Some (mkGif (orElse (quality options) 10) width height))
         (isExporting x) 0 (orElse (frames options) 30)
         (orElse (delay options) 50) (onProgress x) (onComplete x) (onError x)) w).

(** The encoder's [progress] event, with its fraction done. *)
Definition gifProgress (progress : Q) (w : World) : World :=
  if onProgress (gifExporter w)
  then emit (OnProgress (50 + Js.floor (progress * 50))%Z Encoding) w
  else w.

(** The encoder's [finished] event. *)
Definition gifFinished (w : World) : World :=
  let w := updExporter (setExporting false) w in
  if onComplete (gifExporter w) then emit OnComplete w else w.

(** [addFrame(canvas, delay)] on the animation canvas; the result is
    [undefined] ([None]), [true] or [false]. *)
Definition addFrame (frameDelay' : Z) (w : World) : option bool * World :=
  let x := gifExporter w in
  match gif x with
  | None => (None, w)
  | Some _ =>
      if negb (isExporting x) then (None, w)
      else
        let w := emit (GifAddFrame (surface (animationEngine w))
                         (orDefault frameDelay' (frameDelay x))) w in
        let w := updExporter (fun x => setFramesCaptured (framesCaptured x + 1)%Z x) w in
        let x := gifExporter w in
        let w :=
          if onProgress x then
            let captureProgress :=
              Js.floor (inject_Z (framesCaptured x) / inject_Z (totalFrames x) * 50) in
            emit (OnProgress captureProgress
                    (Capturing (framesCaptured x) (totalFrames x))) w
          else w in
        (Some (totalFrames x <=? framesCaptured x)%Z, w)
  end.

(** One call of the [captureLoop] closure of [startExport]. *)
Definition captureLoop (wasRunning : bool) (captureInterval frameCounter : Z)
  (w : World) : World :=
  let x := gifExporter w in
  if negb (isExporting x) || (totalFrames x <=? framesCaptured x)%Z then
    let w :=
      if isExporting x then
        let w := if onProgress x then emit (OnProgress 50 Encoding) w else w in
        emit GifRender w
      else w in
    if wasRunning then start w else w
  else
    let w := updAnimation (fun e => setTime (time e + tick (speed e)) e) w in
    let w := render w in
    let frameCounter := (frameCounter + 1)%Z in
    let w :=
      if (Z.rem frameCounter captureInterval =? 0)%Z
      then snd (addFrame (frameDelay (gifExporter w)) w)
      else w in
    snd (requestAnimationFrame (CaptureLoop wasRunning captureInterval frameCounter) w).

Definition startExport (options : ExportOptions) (w : World) : World :=
  let cv := canvas (animationEngine w) in
  let '(ok, w) := initExporter (width cv) (height cv) options w in
  if negb ok then w
  else
    let w := updExporter (setExporting true) w in
    let w := updExporter (setFramesCaptured 0) w in
    let wasRunning := isRunning (animationEngine w) in
    let w := stop w in
    let w := updAnimation reset w in
    let captureInterval := orElse (captureInterval options) 2 in
    captureLoop wasRunning captureInterval 0 w.

Definition cancel (w : World) : World :=
  let w := updExporter (setExporting false) w in
  match gif (gifExporter w) with
  | Some _ => updExporter (setGif None) (emit GifAbort w)
  | None => w
  end.

(** *** One frame of the host *)

Definition runTask (task : Task) (w : World) : World :=
  match task with
  | Animate => animate w
  | CaptureLoop wasRunning captureInterval frameCounter =>
      captureLoop wasRunning captureInterval frameCounter w
  end.

Definition setCurrent (v : list (Z * Task)) (w : World) : World :=
  mkWorld (pixelateEngine w) (animationEngine w) (gifExporter w) (gifLoaded w)
    (rng w) (pending w) v (nextHandle w) (trace w).

(** The callbacks of the running frame are called in order; one that an
    earlier callback cancelled has left [current] and is not called. *)
Fixpoint runCallbacks (fuel : nat) (w : World) : World :=
  match fuel with
  | O => w
  | S fuel' =>
      match current w with
      | [] => w
      | (_, task) :: rest => runCallbacks fuel' (runTask task (setCurrent rest w))
      end
  end.

(** The host runs the callbacks registered since the previous frame; what
    they register waits for the next one. *)
Definition animationFrame (w : World) : World :=
  runCallbacks (List.length (pending w))
    (mkWorld (pixelateEngine w) (animationEngine w) (gifExporter w) (gifLoaded w)
       (rng w) [] (pending w) (nextHandle w) (trace w)).

Fixpoint animationFrames (n : nat) (w : World) : World :=
  match n with
  | O => w
  | S n' => animationFrames n' (animationFrame w)
  end.

End Page.

(** ** The page script *)

(** The state of the page script: the three engines, held in their [World],
    and the [isImageLoaded] flag.  What the handlers write to the document
    (labels, slider positions, the export dialog) is left out. *)
Record App := mkApp { page : World; isImageLoaded : bool }.

Section Handlers.

Context {canvas2d : Canvas2D} {math : MathLib}.

Definition updPixelate (f : PixelateEngine -> PixelateEngine) (w : World) : World :=
  mkWorld (f (pixelateEngine w)) (animationEngine w) (gifExporter w) (gifLoaded w)
    (rng w) (pending w) (current w) (nextHandle w) (trace w).

(** The handlers of the three sliders take the slider's value after
    [parseInt]. *)
Definition handlePixelSizeChange (size : Z) (app : App) : App :=
  if isImageLoaded app then
    let w := updPixelate (fun p => setPixelSize p size) (page app) in
    mkApp (prepare w) (isImageLoaded app)
  else app.

Definition handleEffectChange (effect : string) (app : App) : App :=
  if isImageLoaded app
  then mkApp (updAnimation (setEffect effect) (page app)) (isImageLoaded app)
  else app.

Definition handleIntensityChange (intensity : Z) (app : App) : App :=
  if isImageLoaded app
  then mkApp (updAnimation (setIntensity intensity) (page app)) (isImageLoaded app)
  else app.

Definition handleSpeedChange (speed : Z) (app : App) : App :=
  if isImageLoaded app
  then mkApp (updAnimation (setSpeed speed) (page app)) (isImageLoaded app)
  else app.

Definition handleReset (app : App) : App :=
  if negb (isImageLoaded app) then app
  else
    let w := stop (page app) in
    let w := updPixelate dispose w in
    mkApp w false.

(** [100 / speed] is read at a speed that [setSpeed] keeps in 1..10; at
    speed 0 JavaScript would give [Infinity], which [Q] does not have. *)
Definition handleExport (app : App) : App :=
  if negb (isImageLoaded app) then app
  else
    let speed := speed (animationEngine (page app)) in
    let frameDelay := Js.floor (100 / inject_Z speed) in
    let totalFrames := 30%Z in
    mkApp (startExport
             (mkExportOptions (Some totalFrames) (Some frameDelay) (Some 10%Z) (Some 2%Z))
             (page app))
          (isImageLoaded app).

End Handlers.

(** ** Instances to run the model on examples *)

(** Nearest-neighbour sampling, whatever the smoothing mode. *)
Definition nearestScale (src : Raster) (w h : Z) : Raster :=
  mkRaster w h
    (flat_map (fun y =>
       flat_map (fun x =>
         let sx := (x * width src / w)%Z in
         let sy := (y * height src / h)%Z in
         let i := ((sy * width src + sx) * 4)%Z in
         map (fun k => match index (data src) (i + k)%Z with Some v => v | None => 0%Z end)
             [0; 1; 2; 3]%Z)
         (upto w))
       (upto h)).

Definition nearestCanvas : Canvas2D := {| scaleImage := fun _ => nearestScale |}.

(** Truncated series for sine and cosine and 355/113 for pi. *)
Definition seriesMath : MathLib := {|
  Math_sin := fun x => x - x * x * x / 6 + x * x * x * x * x / 120;
  Math_cos := fun x => 1 - x * x / 2 + x * x * x * x / 24;
  Math_PI := 355 # 113
|}.

(** A solid [w] by [h] image of one colour. *)
Definition solidImage (w h : Z) (p : Pixel) : Raster :=
  mkRaster w h (flat_map (fun _ => [r p; g p; b p; a p]) (upto (w * h)%Z)).

(** Every draw of [Math.random] gives [v]. *)
Definition constantRng (v : Q) : Rng := mkRng (fun _ => v) 0.

(** An opaque white cell. *)
Definition white : Pixel := mkPixel 255 255 255 255.

(** A 64 by 64 solid red image under the default block size of 8. *)
Definition redEngine : PixelateEngine :=
  imageLoaded newPixelateEngine (solidImage 64 64 (mkPixel 255 0 0 255)).

(** The animation engine as its constructor leaves it. *)
Definition newAnimationEngine : AnimationEngine :=
  mkAnimationEngine (mkRaster 300 150 []) [] false None false "glitch" 5 5 0
    None None false 0.

(** The exporter as its constructor leaves it. *)
Definition newGifExporter : GifExporter :=
  mkGifExporter None false 0 30 50 false false false.

(** The page once the red image is loaded and the animation prepared on a
    400 by 400 canvas, with the progress callback installed. *)
Definition redWorld : World :=
  prepare (canvas2d := nearestCanvas)
    (mkWorld redEngine (init (mkRaster 400 400 []) newAnimationEngine)
       (setProgressCallback true newGifExporter) true (constantRng 0) [] [] 1 []).

(** The export request of the page: 30 frames, every second tick. *)
Definition thirtyFrames : ExportOptions :=
  mkExportOptions (Some 30%Z) (Some 20%Z) (Some 10%Z) (Some 2%Z).


(** ** Notions the properties are stated with *)

(** The grids [getPixelGrid] builds: [gridHeight] rows of [gridWidth] cells. *)
Definition rectangular (grid : Grid) (gridSize : Z * Z) : Prop :=
  Z.of_nat (List.length grid) = snd gridSize /\
  Forall (fun row => Z.of_nat (List.length row) = fst gridSize) grid.

(** A fill that comes from a cell of the grid whose alpha is at least 10. *)
Definition fromVisibleCell (grid : Grid) (f : Fill) : Prop :=
  exists x y pixel,
    cell f = Some (x, y) /\ cellAt grid y x = Some pixel /\ (10 <= a pixel)%Z.

(** The capture progress reported after [k] of [n] frames. *)
Definition captureProgress (k n : Z) : Z :=
  Js.floor (inject_Z k / inject_Z n * 50).

Arguments captureProgress : simpl never.

(** A registered callback of the live animation. *)
Definition isAnimate (entry : Z * Task) : Prop := snd entry = Animate.

(** What the trace gained while [k] ticks of the loop ran with interval [c]:
    [k / c] frames went to the encoder, each followed by its progress report
    when a progress callback is installed. *)
Definition progressSteps (total n : Z) : list Z :=
  map (fun j => captureProgress (j + 1) total) (upto n).

Record CaptureLog (total : Z) (op : bool) (c k : Z) (events : list Event) : Prop :=
  mkCaptureLog {
  log_frames : List.length (filter isGifAddFrame events) = Z.to_nat (k / c);
  log_progress :
    progressValues events = if op then progressSteps total (k / c) else [];
  log_last :
    op = true -> (Z.rem k c = 0)%Z -> (0 < k)%Z ->
    exists before frame d,
      events = before ++ [GifAddFrame frame d;
                          OnProgress (captureProgress (k / c) total)
                            (Capturing (k / c) total)]
}.

(** The page while the capture loop has run [k] ticks of an export of
    [total] frames started on the trace [t0] with the engine at speed [sp]. *)
Record Exporting (c total : Z) (op : bool) (t0 : list Event) (sp : Z) (k : Z)
  (w : World) : Prop := mkExporting {
  exp_stopped : isRunning (animationEngine w) = false;
  exp_gif : gif (gifExporter w) <> None;
  exp_exporting : isExporting (gifExporter w) = true;
  exp_captured : framesCaptured (gifExporter w) = (k / c)%Z;
  exp_total : totalFrames (gifExporter w) = total;
  exp_progress : onProgress (gifExporter w) = op;
  exp_speed : speed (animationEngine w) = sp;
  exp_time : time (animationEngine w) == inject_Z k * tick sp;
  exp_trace : exists events, trace w = t0 ++ events /\ CaptureLog total op c k events
}.

(** The page between two frames with nothing registered. *)
Definition idle (w : World) : World :=
  mkWorld (pixelateEngine w) (animationEngine w) (gifExporter w) (gifLoaded w)
    (rng w) [] [] (nextHandle w) (trace w).

(** The capture loop is the one callback that will do something. *)
Definition loopPending (wasRunning : bool) (c k : Z) (w : World) : Prop :=
  exists strays id,
    pending w = strays ++ [(id, CaptureLoop wasRunning c k)] /\ Forall isAnimate strays.

(** [rgbToHsl] after its three divisions by 255, on channels in [0, 1]. *)
Definition unitToHsl (r g b : Q) : Hsl :=
  let max := Qmax (Qmax r g) b in
  let min := Qmin (Qmin r g) b in
  let l := (max + min) / 2 in
  if Js.eqb max min then mkHsl (0 * 360) 0 l
  else
    let d := max - min in
    let s := if Js.gtb l 0.5 then d / (2 - max - min) else d / (max + min) in
    let h :=
      if Js.eqb max r then ((g - b) / d + (if Js.ltb g b then 6 else 0)) / 6
      else if Js.eqb max g then ((b - r) / d + 2) / 6
      else ((r - g) / d + 4) / 6 in
    mkHsl (h * 360) s l.

(** [hslToRgb] before its three roundings. *)
Definition hslToUnit (h s l : Q) : Q * Q * Q :=
  let h := h / 360 in
  if Js.eqb s 0 then (l, l, l)
  else
    let q := if Js.ltb l 0.5 then l * (1 + s) else l + s - l * s in
    let p := 2 * l - q in
    (hue2rgb p q (h + 1 / 3), hue2rgb p q h, hue2rgb p q (h - 1 / 3)).

Section Stated.

Context {canvas2d : Canvas2D} {math : MathLib}.

(** The position of a candidate is a function of its seed alone. *)
Definition positionOfSeed (seed : Z) (gridSize : Z * Z) : Z * Z :=
  (Js.floor (seededRandom seed * inject_Z (fst gridSize)),
   Js.floor (seededRandom (seed + 1) * inject_Z (snd gridSize))).

(** One tick of the capture loop: the clock advances and the frame is drawn. *)
Definition ticked (w : World) : World :=
  render (updAnimation (fun e => setTime (time e + tick (speed e)) e) w).

End Stated.

(** The page while the live loop runs: the one registered callback is the
    loop's, and the clock stands [n] ticks after [t0]. *)
Record Playing (t0 : Q) (f0 : Z) (sp : Z) (n : Z) (w : World) : Prop := mkPlaying {
  play_running : isRunning (animationEngine w) = true;
  play_speed : speed (animationEngine w) = sp;
  play_time : time (animationEngine w) == t0 + inject_Z n * tick sp;
  play_count : frameCount (animationEngine w) = (f0 + n)%Z;
  play_pending : pending w = [(Z.pred (nextHandle w), Animate)];
  play_id : animationId (animationEngine w) = Some (Z.pred (nextHandle w))
}.

(** The animation has nothing to draw and has drawn nothing. *)
Definition blank (w : World) : Prop :=
  baseImageData (animationEngine w) = None /\ surface (animationEngine w) = [].

(** A fill that covers exactly the block of its cell. *)
Definition onItsBlock (pixelSize : Z) (f : Fill) : Prop :=
  exists x y,
    cell f = Some (x, y) /\
    rectX f = inject_Z x * inject_Z pixelSize /\
    rectY f = inject_Z y * inject_Z pixelSize /\
    rectW f = inject_Z pixelSize /\ rectH f = inject_Z pixelSize.

(** The number of cells of the loops that pass the alpha test. *)
Definition visibleCells (grid : Grid) (gridSize : Z * Z) : nat :=
  List.length (forCells gridSize (fun x y => drawn (cellAt grid y x) (fun p => [p]))).

(** [Math.random] returns values in [0, 1). *)
Definition fairRng (rng : Rng) : Prop := forall k, 0 <= draws rng k < 1.

(** A pixel as [getImageData] delivers it: four bytes. *)
Definition bytePixel (p : Pixel) : Prop :=
  (0 <= r p <= 255)%Z /\ (0 <= g p <= 255)%Z /\ (0 <= b p <= 255)%Z /\
  (0 <= a p <= 255)%Z.

(** A colour that [rgba(r, g, b, alpha)] takes as it is written: channels
    in 0..255 and an alpha in [0, 1]. *)
Definition cssColour (st : FillStyle) : Prop :=
  match st with
  | Hex _ => True
  | Rgba red green blue alpha =>
      (0 <= red <= 255)%Z /\ (0 <= green <= 255)%Z /\ (0 <= blue <= 255)%Z /\
      0 <= alpha <= 1
  end.

(** The truncated series cut off at -1 and 1, the range of [Math.sin] and
    [Math.cos]. *)
Definition clampedMath : MathLib := {|
  Math_sin := fun x => Qmax (-1) (Qmin 1 (Math_sin (MathLib := seriesMath) x));
  Math_cos := fun x => Qmax (-1) (Qmin 1 (Math_cos (MathLib := seriesMath) x));
  Math_PI := 355 # 113
|}.

(** The delays of the frames handed to the encoder, oldest first. *)
Definition frameDelays (t : list Event) : list Z :=
  flat_map (fun ev => match ev with GifAddFrame _ d => [d] | _ => [] end) t.

(** The red page as the page script holds it once the image is loaded. *)
Definition redApp : App := mkApp redWorld true.

(** The page before any image is loaded, its engines attached to a 400 by
    400 canvas. *)
Definition emptyPage : World :=
  mkWorld newPixelateEngine (init (mkRaster 400 400 []) newAnimationEngine)
    newGifExporter true (constantRng 0) [] [] 1 [].

(** A fill of the size of a block, moved off the block of its cell by at
    most [dx] sideways and [dy] up or down. *)
Definition displaced (pixelSize : Z) (dx dy : Q) (f : Fill) : Prop :=
  exists x y,
    cell f = Some (x, y) /\
    inject_Z x * inject_Z pixelSize - dx <= rectX f /\
    rectX f <= inject_Z x * inject_Z pixelSize + dx /\
    inject_Z y * inject_Z pixelSize - dy <= rectY f /\
    rectY f <= inject_Z y * inject_Z pixelSize + dy /\
    rectW f = inject_Z pixelSize /\ rectH f = inject_Z pixelSize.

(** A sparkle highlight: a square centred on the block of its cell. *)
Definition centredOnBlock (pixelSize : Z) (f : Fill) : Prop :=
  exists x y,
    cell f = Some (x, y) /\
    rectW f == rectH f /\
    rectX f + rectW f / 2 == inject_Z x * inject_Z pixelSize + inject_Z pixelSize / 2 /\
    rectY f + rectH f / 2 == inject_Z y * inject_Z pixelSize + inject_Z pixelSize / 2.

(** The output size as the specification words it: scale, scaled size,
    grid size, output size.  [number] is the arithmetic the quotients and
    products are taken in: [Binary64.round] for the doubles of JavaScript,
    the identity for exact arithmetic. *)
Definition specOutputSize (number : Q -> Q) (srcW srcH blockSize : Z)
  (maxW maxH : Q) : Z * Z :=
  let scale :=
    Qmin (Qmin (number (maxW / inject_Z srcW)) (number (maxH / inject_Z srcH))) 1 in
  let scaledW := Qfloor (number (inject_Z srcW * scale)) in
  let scaledH := Qfloor (number (inject_Z srcH * scale)) in
  let gridW := Qceiling (number (inject_Z scaledW / inject_Z blockSize)) in
  let gridH := Qceiling (number (inject_Z scaledH / inject_Z blockSize)) in
  ((gridW * blockSize)%Z, (gridH * blockSize)%Z).

(** Exact arithmetic: every quotient and product is the rational itself. *)
Definition exactly (x : Q) : Q := x.

(** A 539 by 100 image under a block size of 7; its pixels do not matter. *)
Definition wideEngine : PixelateEngine :=
  setPixelSize (imageLoaded newPixelateEngine (mkRaster 539 100 [])) 7.

(** An image that [getPixelatedData] can draw in the box: the exact scaled
    sides are at least 2 pixels, so that no rounding of the scale brings a
    side of the grid to 0, where the browser raises on the empty canvas. *)
Definition drawableIn (img : Raster) (maxWidth maxHeight : Q) : Prop :=
  (0 < width img)%Z /\ (0 < height img)%Z /\ 0 < maxWidth /\ 0 < maxHeight /\
  2 <= inject_Z (width img) * fitScale img maxWidth maxHeight /\
  2 <= inject_Z (height img) * fitScale img maxWidth maxHeight.

(** [prepare] returns on this page: the engines are not attached, or no
    image is loaded, or the image can be drawn in the canvas. *)
Definition prepares (w : World) : Prop :=
  attached (animationEngine w) = false \/
  match originalImage (pixelateEngine w) with
  | None => True
  | Some img =>
      (0 < pixelSize (pixelateEngine w))%Z /\
      drawableIn img
        (inject_Z (orDefault (width (canvas (animationEngine w))) 400))
        (inject_Z (orDefault (height (canvas (animationEngine w))) 400))
  end.

(** * Properties *)

(** ** JavaScript numbers *)

Module JsFacts.

Lemma ltb_spec (x y : Q) : Js.ltb x y = true <-> (x < y)%Q.
Proof.
  unfold Js.ltb. rewrite negb_true_iff. split; intro H.
  - destruct (Qlt_le_dec x y) as [L | L]; [exact L |].
    apply Qle_bool_iff in L. congruence.
  - destruct (Qle_bool y x) eqn:E; [| reflexivity].
    apply Qle_bool_iff in E. lra.
Qed.

Lemma ltb_false (x y : Q) : Js.ltb x y = false <-> (y <= x)%Q.
Proof.
  unfold Js.ltb. rewrite negb_false_iff. apply Qle_bool_iff.
Qed.

Lemma eqb_spec (x y : Q) : Js.eqb x y = true <-> (x == y)%Q.
Proof. apply Qeq_bool_iff. Qed.

Lemma floor_inject (z : Z) : Js.floor (inject_Z z) = z.
Proof. apply Qfloor_Z. Qed.

Lemma round_inject (z : Z) : Js.round (inject_Z z) = z.
Proof.
  unfold Js.round.
  assert (L : (inject_Z z <= inject_Z z + (1 # 2))%Q) by lra.
  assert (U : (inject_Z z + (1 # 2) < inject_Z (z + 1))%Q).
  { rewrite inject_Z_plus. change (inject_Z 1) with 1%Q. lra. }
  apply Qfloor_resp_le in L. rewrite Qfloor_Z in L.
  pose proof (Qfloor_le (inject_Z z + (1 # 2))) as F.
  assert (F' : (inject_Z (Qfloor (inject_Z z + (1 # 2))) < inject_Z (z + 1))%Q) by lra.
  rewrite <- Zlt_Qlt in F'. lia.
Qed.

Lemma round_comp (x y : Q) : (x == y)%Q -> Js.round x = Js.round y.
Proof. intro E. unfold Js.round. apply Qfloor_comp. rewrite E. reflexivity. Qed.

Lemma inject_Z_pos (z : Z) : (0 < z)%Z -> 0 < inject_Z z.
Proof. intro H. rewrite Zlt_Qlt in H. exact H. Qed.

Lemma inject_Z_nonneg (z : Z) : (0 <= z)%Z -> 0 <= inject_Z z.
Proof. intro H. rewrite Zle_Qle in H. exact H. Qed.

End JsFacts.

(** ** Doubles: the error of one rounding *)

Module Binary64Facts.

Import Binary64.

Lemma pow2_pos (e : Z) : 0 < pow2 e.
Proof. unfold pow2. apply Qpower_0_lt. reflexivity. Qed.

Lemma pow2_plus (a b : Z) : pow2 (a + b) == pow2 a * pow2 b.
Proof. unfold pow2. apply Qpower_plus. discriminate. Qed.

Lemma pow2_nat (n : Z) : (0 <= n)%Z -> pow2 n == inject_Z (2 ^ n).
Proof. intro N. unfold pow2. rewrite Zpower_Qpower by exact N. reflexivity. Qed.

Lemma nearestEven_near (x : Q) :
  x - (1 # 2) <= inject_Z (nearestEven x) <= x + (1 # 2).
Proof.
  unfold nearestEven.
  pose proof (Qfloor_le x) as L. pose proof (Qlt_floor x) as U.
  rewrite inject_Z_plus in U. change (inject_Z 1) with 1 in U.
  destruct (Qcompare (x - inject_Z (Qfloor x)) (1 # 2)) eqn:C.
  - apply Qeq_alt in C. destruct (Z.even (Qfloor x)).
    + split; lra.
    + rewrite inject_Z_plus. change (inject_Z 1) with 1. split; lra.
  - apply Qlt_alt in C. split; lra.
  - apply Qgt_alt in C. rewrite inject_Z_plus. change (inject_Z 1) with 1. split; lra.
Qed.

(** The exponent is not above the number. *)
Lemma exponent_below (a : Q) : 0 < a -> pow2 (exponent a) <= a.
Proof.
  intro A. unfold exponent.
  set (k := (Z.log2 (Qnum a) - Z.log2 (Z.pos (Qden a)))%Z).
  destruct (Qle_bool (pow2 k) a) eqn:T; [apply Qle_bool_iff, T |].
  destruct a as [n d]. cbn [Qnum Qden] in *.
  assert (N : (0 < n)%Z) by (unfold Qlt in A; cbn in A; lia).
  pose proof (Z.log2_spec n N) as [Ln _].
  pose proof (Z.log2_spec (Z.pos d) ltac:(lia)) as [_ Ld].
  pose proof (Z.log2_nonneg n) as Hn. pose proof (Z.log2_nonneg (Z.pos d)) as Hd.
  replace (k - 1)%Z with (Z.log2 n + - (Z.log2 (Z.pos d) + 1))%Z by (unfold k; lia).
  rewrite pow2_plus. unfold pow2 at 2. rewrite Qpower_opp. fold (pow2 (Z.log2 (Z.pos d) + 1)).
  rewrite !pow2_nat by lia. rewrite (Qmake_Qdiv n d).
  change (Z.succ (Z.log2 (Z.pos d))) with (Z.log2 (Z.pos d) + 1)%Z in Ld.
  pose proof (Z.pow_pos_nonneg 2 (Z.log2 n) ltac:(lia) Hn) as P0.
  set (pn := (2 ^ Z.log2 n)%Z) in *. set (pd := (2 ^ (Z.log2 (Z.pos d) + 1))%Z) in *.
  clearbody pn pd.
  rewrite Zle_Qle in Ln. rewrite Zlt_Qlt in Ld, P0.
  change (inject_Z 0) with 0 in P0.
  assert (Qd : 0 < inject_Z (Z.pos d)) by reflexivity.
  set (qn := inject_Z n) in *. set (qd := inject_Z (Z.pos d)) in *.
  set (qpn := inject_Z pn) in *. set (qpd := inject_Z pd) in *.
  clearbody qn qd qpn qpd.
  apply Qle_shift_div_l; [exact Qd |].
  assert (I : / qpd * qpd == 1) by (field; lra).
  assert (IP : 0 < / qpd) by (apply Qinv_lt_0_compat; lra).
  set (i := / qpd) in *. clearbody i.
  assert (J : i * qd <= 1) by nra.
  assert (K : qpn * (i * qd) <= qpn * 1) by (apply Qmult_le_l; lra).
  lra.
Qed.

(** The exponent is the one of the number: [2 ^ E <= a < 2 ^ (E + 1)]. *)
Lemma exponent_above (a : Q) : 0 < a -> a < pow2 (exponent a + 1).
Proof.
  intro A. unfold exponent.
  set (k := (Z.log2 (Qnum a) - Z.log2 (Z.pos (Qden a)))%Z).
  destruct (Qle_bool (pow2 k) a) eqn:T.
  - destruct a as [n d]. cbn [Qnum Qden] in *.
    assert (N : (0 < n)%Z) by (unfold Qlt in A; cbn in A; lia).
    pose proof (Z.log2_spec n N) as [_ Ln].
    pose proof (Z.log2_spec (Z.pos d) ltac:(lia)) as [Ld _].
    pose proof (Z.log2_nonneg n) as Hn. pose proof (Z.log2_nonneg (Z.pos d)) as Hd.
    replace (k + 1)%Z with ((Z.log2 n + 1) + - Z.log2 (Z.pos d))%Z by (unfold k; lia).
    rewrite pow2_plus. unfold pow2 at 2. rewrite Qpower_opp. fold (pow2 (Z.log2 (Z.pos d))).
    rewrite !pow2_nat by lia. rewrite (Qmake_Qdiv n d).
    change (Z.succ (Z.log2 n)) with (Z.log2 n + 1)%Z in Ln.
    pose proof (Z.pow_pos_nonneg 2 (Z.log2 (Z.pos d)) ltac:(lia) Hd) as P0.
    set (pn := (2 ^ (Z.log2 n + 1))%Z) in *. set (pd := (2 ^ Z.log2 (Z.pos d))%Z) in *.
    clearbody pn pd.
    rewrite Zlt_Qlt in Ln. rewrite Zle_Qle in Ld. rewrite Zlt_Qlt in P0.
    change (inject_Z 0) with 0 in P0.
    assert (Qd : 0 < inject_Z (Z.pos d)) by reflexivity.
    assert (Qn : 0 < inject_Z n) by (change 0 with (inject_Z 0); rewrite <- Zlt_Qlt; exact N).
    set (qn := inject_Z n) in *. set (qd := inject_Z (Z.pos d)) in *.
    set (qpn := inject_Z pn) in *. set (qpd := inject_Z pd) in *.
    clearbody qn qd qpn qpd.
    apply Qlt_shift_div_r; [exact Qd |].
    assert (I : / qpd * qpd == 1) by (field; lra).
    assert (IP : 0 < / qpd) by (apply Qinv_lt_0_compat; lra).
    set (i := / qpd) in *. clearbody i.
    assert (J : 1 <= i * qd) by nra.
    assert (K : qpn * 1 <= qpn * (i * qd)) by (apply Qmult_le_l; lra).
    lra.
  - replace (k - 1 + 1)%Z with k by lia.
    apply Qnot_le_lt. intro L. apply Qle_bool_iff in L. congruence.
Qed.

(** Doubles round to themselves, and a tenth to the double that the
    literal [0.1] denotes. *)
Example round_representable :
  round (3 # 4) = 3 # 4 /\ round 400 = 400 /\ round (- (5 # 2)) = - (5 # 2).
Proof. vm_compute. repeat split. Qed.

Example round_one_tenth : round (1 # 10) = 3602879701896397 # 36028797018963968.
Proof. vm_compute. reflexivity. Qed.

Lemma round_error (x : Q) :
  0 < x -> x * (1 - epsilon) <= round x <= x * (1 + epsilon).
Proof.
  intro X. unfold round.
  assert (C : Qcompare x 0 = Gt) by (apply Qgt_alt; exact X).
  rewrite C. cbn zeta. rewrite Qred_correct.
  pose proof (exponent_below x X) as B.
  set (E := exponent x) in *. clearbody E.
  assert (U : pow2 (E - 52) == pow2 E * (1 # 4503599627370496)).
  { replace (E - 52)%Z with (E + -52)%Z by lia. rewrite pow2_plus. reflexivity. }
  pose proof (pow2_pos (E - 52)) as UP. pose proof (pow2_pos E) as EP.
  set (u := pow2 (E - 52)) in *. set (pe := pow2 E) in *. clearbody u pe.
  pose proof (nearestEven_near (x / u)) as [L H].
  set (m := inject_Z (nearestEven (x / u))) in *. clearbody m.
  assert (D : x / u * u == x) by (field; lra).
  unfold epsilon. split; nra.
Qed.



Lemma round_zero (x : Q) : x == 0 -> round x = 0.
Proof.
  intro X. unfold round.
  assert (C : Qcompare x 0 = Eq) by (apply Qeq_alt; exact X).
  rewrite C. reflexivity.
Qed.

Lemma round_pos (x : Q) : 0 < x -> 0 < round x.
Proof.
  intro X. pose proof (round_error x X) as [L _]. unfold epsilon in L. nra.
Qed.

(** The rounded scale is the exact one up to one rounding. *)
Lemma scale_error (a b : Q) :
  0 < a -> 0 < b ->
  let exact := Qmin (Qmin a b) 1 in
  let rounded := Qmin (Qmin (round a) (round b)) 1 in
  0 < exact <= 1 /\
  exact * (1 - epsilon) <= rounded /\ rounded <= exact * (1 + epsilon).
Proof.
  intros A B. cbn zeta.
  pose proof (round_error a A) as [La Ua]. pose proof (round_error b B) as [Lb Ub].
  unfold epsilon in *.
  set (ra := round a) in *. set (rb := round b) in *. clearbody ra rb.
  destruct (Q.min_spec a b) as [[C1 E1] | [C1 E1]];
    destruct (Q.min_spec (Qmin a b) 1) as [[C2 E2] | [C2 E2]];
    destruct (Q.min_spec ra rb) as [[C3 E3] | [C3 E3]];
    destruct (Q.min_spec (Qmin ra rb) 1) as [[C4 E4] | [C4 E4]];
    rewrite E2, E4; rewrite ?E1, ?E3; rewrite E1 in C2; rewrite E3 in C4;
    repeat split; nra.
Qed.

Lemma floor_near (p P : Q) :
  P - 1 < p -> p < P + 1 -> (Qfloor P <= Qfloor p + 1 /\ Qfloor p <= Qfloor P + 1)%Z.
Proof.
  intros L U.
  pose proof (Qfloor_le p) as A1. pose proof (Qlt_floor p) as A2.
  pose proof (Qfloor_le P) as B1. pose proof (Qlt_floor P) as B2.
  rewrite inject_Z_plus in A2, B2. change (inject_Z 1) with 1 in A2, B2.
  split.
  - assert (X : inject_Z (Qfloor P) < inject_Z (Qfloor p + 2)).
    { rewrite inject_Z_plus. change (inject_Z 2) with 2. lra. }
    rewrite <- Zlt_Qlt in X. lia.
  - assert (X : inject_Z (Qfloor p) < inject_Z (Qfloor P + 2)).
    { rewrite inject_Z_plus. change (inject_Z 2) with 2. lra. }
    rewrite <- Zlt_Qlt in X. lia.
Qed.

Lemma ceiling_near (a b : Q) :
  b - 1 < a -> a < b + 1 -> (Qceiling b <= Qceiling a + 1 /\ Qceiling a <= Qceiling b + 1)%Z.
Proof.
  intros L U.
  pose proof (Qle_ceiling a) as A1. pose proof (Qceiling_lt a) as A2.
  pose proof (Qle_ceiling b) as B1. pose proof (Qceiling_lt b) as B2.
  unfold Z.sub in A2, B2. rewrite inject_Z_plus, inject_Z_opp in A2, B2.
  change (inject_Z 1) with 1 in A2, B2.
  split.
  - assert (X : inject_Z (Qceiling b) < inject_Z (Qceiling a + 2)).
    { rewrite inject_Z_plus. change (inject_Z 2) with 2. lra. }
    rewrite <- Zlt_Qlt in X. lia.
  - assert (X : inject_Z (Qceiling a) < inject_Z (Qceiling b + 2)).
    { rewrite inject_Z_plus. change (inject_Z 2) with 2. lra. }
    rewrite <- Zlt_Qlt in X. lia.
Qed.

(** One side of the output: the stored size against the exact one. *)
Lemma side_error (side blockSize : Z) (exact rounded : Q) :
  (0 < side < 2 ^ 32)%Z -> (4 <= blockSize <= 64)%Z ->
  0 < exact <= 1 ->
  exact * (1 - epsilon) <= rounded -> rounded <= exact * (1 + epsilon) ->
  let scaled := Js.floor (round (inject_Z side * rounded)) in
  let grid := Js.ceil (round (inject_Z scaled / inject_Z blockSize)) in
  let specScaled := Qfloor (inject_Z side * exact) in
  let specGrid := Qceiling (inject_Z specScaled / inject_Z blockSize) in
  (Z.abs (grid * blockSize - specGrid * blockSize) <= blockSize)%Z.
Proof.
  intros [S0 S1] [B0 B1] [E0 E1] L U. cbn zeta. unfold Js.floor, Js.ceil.
  pose proof B0 as ZB0. pose proof B1 as ZB1.
  rewrite Zlt_Qlt in S0, S1. rewrite Zle_Qle in B0, B1.
  change (inject_Z 0) with 0 in S0. change (inject_Z (2 ^ 32)) with 4294967296 in S1.
  change (inject_Z 4) with 4 in B0. change (inject_Z 64) with 64 in B1.
  set (w := inject_Z side) in *. set (ps := inject_Z blockSize) in *.
  unfold epsilon in *.
  assert (R0 : 0 < rounded) by nra.
  assert (Pm : 0 < w * rounded) by nra.
  pose proof (round_error (w * rounded) Pm) as [Lp Up]. unfold epsilon in *.
  set (p := round (w * rounded)) in *. clearbody p.
  set (P := w * exact) in *.
  assert (PB : 0 < P <= 4294967296) by (unfold P; split; nra).
  assert (T : P * (1 # 9007199254740992) <= 1 # 2097152) by nra.
  assert (M1 : w * rounded <= P + (1 # 2097152)) by (unfold P in *; nra).
  assert (M2 : P - (1 # 2097152) <= w * rounded) by (unfold P in *; nra).
  assert (Np : P - (1 # 2) < p /\ p < P + (1 # 2)) by (split; nra).
  destruct Np as [Np1 Np2].
  destruct (floor_near p P ltac:(lra) ltac:(lra)) as [F1 F2].
  assert (F0 : (0 <= Qfloor P)%Z).
  { change 0%Z with (Qfloor 0). apply Qfloor_resp_le. lra. }
  assert (Fs : (0 <= Qfloor p)%Z).
  { change 0%Z with (Qfloor 0). apply Qfloor_resp_le. lra. }
  assert (Fu : (Qfloor p <= side)%Z).
  { assert (X : inject_Z (Qfloor p) < inject_Z (side + 1)).
    { rewrite inject_Z_plus. change (inject_Z 1) with 1. fold w.
      pose proof (Qfloor_le p). unfold P in *. nra. }
    rewrite <- Zlt_Qlt in X. lia. }
  set (sw := Qfloor p) in *. set (F := Qfloor P) in *. clearbody sw F. clear Lp Up Np1 Np2.
  rewrite Zle_Qle in F1, F2, Fs, Fu.
  rewrite inject_Z_plus in F1, F2.
  change (inject_Z 1) with 1 in F1, F2. change (inject_Z 0) with 0 in Fs. fold w in Fu.
  assert (I : / ps * ps == 1) by (field; lra).
  assert (IP : 0 < / ps) by (apply Qinv_lt_0_compat; lra).
  assert (I4 : / ps <= 1 # 4).
  { apply Qle_shift_inv_r; lra. }
  assert (D : (1 - (1 # 2)) < 1) by reflexivity.
  assert (Near : inject_Z F / ps - 1 < round (inject_Z sw / ps) /\
                 round (inject_Z sw / ps) < inject_Z F / ps + 1).
  { unfold Qdiv. set (i := / ps) in *. clearbody i.
    destruct (Qlt_le_dec 0 (inject_Z sw)) as [Pos | Zero].
    - assert (Q0 : 0 < inject_Z sw * i) by nra.
      pose proof (round_error (inject_Z sw * i) Q0) as [La Ua]. unfold epsilon in *.
      set (a := round (inject_Z sw * i)) in *. clearbody a.
      assert (Qb : inject_Z sw * i <= 1073741824) by nra.
      assert (Te : inject_Z sw * i * (1 # 9007199254740992) <= 1 # 8388608) by nra.
      assert (D1 : inject_Z sw * i <= inject_Z F * i + i) by nra.
      assert (D2 : inject_Z F * i - i <= inject_Z sw * i) by nra.
      split; lra.
    - assert (Z0 : inject_Z sw * i == 0) by nra.
      rewrite (round_zero _ Z0).
      assert (D1 : inject_Z sw * i <= inject_Z F * i + i) by nra.
      assert (D2 : inject_Z F * i - i <= inject_Z sw * i) by nra.
      split; lra. }
  destruct Near as [N1 N2].
  destruct (ceiling_near _ _ N1 N2) as [C1 C2].
  set (g := Qceiling (round (inject_Z sw / ps))) in *.
  set (sg := Qceiling (inject_Z F / ps)) in *. clearbody g sg.
  nia.
Qed.

End Binary64Facts.

(** ** PixelateEngine: output geometry and the no-image state *)

Section PixelateFacts.

Context {canvas2d : Canvas2D}.

Lemma fitScale_range (img : Raster) (maxWidth maxHeight : Q) :
  (0 < width img)%Z -> (0 < height img)%Z -> 0 < maxWidth -> 0 < maxHeight ->
  0 < fitScale img maxWidth maxHeight <= 1.
Proof.
  intros W H MW MH. unfold fitScale.
  pose proof (JsFacts.inject_Z_pos _ W) as QW.
  pose proof (JsFacts.inject_Z_pos _ H) as QH.
  assert (A : 0 < maxWidth / inject_Z (width img)).
  { apply Qlt_shift_div_l; [exact QW | lra]. }
  assert (B : 0 < maxHeight / inject_Z (height img)).
  { apply Qlt_shift_div_l; [exact QH | lra]. }
  split.
  - apply Q.min_glb_lt; [apply Q.min_glb_lt; assumption | lra].
  - apply Q.le_min_r.
Qed.

(** C1.  With an image of positive size loaded, a block size in [4, 64]
    and a positive bounding box, the output size that [getPixelatedData]
    stores is the one of the specification's formula, scale, floor, ceiling
    and product, taken in the doubles of JavaScript: the grid size times
    the block size, so both sides are multiples of the block size.  The
    size is stored also when the grid has an empty side and the browser
    then raises.  For image sides below [2 ^ 32] each stored side is within
    one block of what the formula gives in exact arithmetic. *)
Theorem getPixelatedData_geometry (e : PixelateEngine) (img : Raster)
  (maxW maxH : Q) :
  originalImage e = Some img ->
  (0 < width img)%Z -> (0 < height img)%Z ->
  (4 <= pixelSize e <= 64)%Z ->
  0 < maxW -> 0 < maxH ->
  let blockSize := pixelSize e in
  let e' := snd (Binary64.getPixelatedData e maxW maxH) in
  getOutputSize e'
    = specOutputSize Binary64.round (width img) (height img) blockSize maxW maxH /\
  (blockSize | outputWidth e')%Z /\
  (blockSize | outputHeight e')%Z /\
  pixelSize e' = blockSize /\
  ((width img < 2 ^ 32)%Z -> (height img < 2 ^ 32)%Z ->
   let exact := specOutputSize exactly (width img) (height img) blockSize maxW maxH in
   (Z.abs (outputWidth e' - fst exact) <= blockSize)%Z /\
   (Z.abs (outputHeight e' - snd exact) <= blockSize)%Z).
Proof.
  intros Himg W H B MW MH. cbn zeta.
  assert (Stored : getOutputSize (snd (Binary64.getPixelatedData e maxW maxH))
                   = specOutputSize Binary64.round (width img) (height img)
                       (pixelSize e) maxW maxH
                   /\ pixelSize (snd (Binary64.getPixelatedData e maxW maxH)) = pixelSize e).
  { unfold Binary64.getPixelatedData, specOutputSize, getOutputSize, Js.floor, Js.ceil.
    rewrite Himg. cbn zeta. destruct (_ || _); split; reflexivity. }
  destruct Stored as [Stored Kept].
  split; [exact Stored |].
  unfold getOutputSize in Stored. injection Stored as SW SH.
  split; [rewrite SW; eexists; reflexivity |].
  split; [rewrite SH; eexists; reflexivity |].
  split; [exact Kept |].
  intros W1 H1.
  pose proof (JsFacts.inject_Z_pos _ W) as QW.
  pose proof (JsFacts.inject_Z_pos _ H) as QH.
  assert (A1 : 0 < maxW / inject_Z (width img)) by (apply Qlt_shift_div_l; lra).
  assert (A2 : 0 < maxH / inject_Z (height img)) by (apply Qlt_shift_div_l; lra).
  destruct (Binary64Facts.scale_error _ _ A1 A2) as (E & L & U). cbn zeta in E, L, U.
  pose proof (Binary64Facts.side_error (width img) (pixelSize e) _ _ (conj W W1) B E L U) as EW.
  pose proof (Binary64Facts.side_error (height img) (pixelSize e) _ _ (conj H H1) B E L U) as EH.
  cbn zeta in EW, EH.
  rewrite SW, SH. unfold specOutputSize, exactly. cbn [fst snd].
  split; assumption.
Qed.

Lemma ceil_div_bounds (n d : Z) :
  (0 < d)%Z ->
  (n <= Qceiling (inject_Z n / inject_Z d) * d < n + d)%Z.
Proof.
  intro D.
  pose proof (JsFacts.inject_Z_pos _ D) as QD.
  set (q := inject_Z n / inject_Z d).
  assert (E : q * inject_Z d == inject_Z n).
  { unfold q. field. lra. }
  pose proof (Qle_ceiling q) as U.
  pose proof (Qceiling_lt q) as L.
  split.
  - rewrite Zle_Qle, inject_Z_mult. nra.
  - rewrite Zlt_Qlt, inject_Z_plus, inject_Z_mult.
    unfold Z.sub in L. rewrite inject_Z_plus, inject_Z_opp in L.
    change (inject_Z 1) with 1 in L. nra.
Qed.

Lemma ceil_mul_div (n d : Z) :
  (0 < d)%Z -> Qceiling (inject_Z (n * d) / inject_Z d) = n.
Proof.
  intro D. pose proof (JsFacts.inject_Z_pos _ D) as QD.
  rewrite <- (Qceiling_Z n) at 2. apply Qceiling_comp.
  rewrite inject_Z_mult. field. lra.
Qed.

(** The output is the scaled size snapped up to the grid, and the grid that
    [getGridSize] recomputes from it is the grid it was built from. *)
Lemma getPixelatedData_snaps_up (e : PixelateEngine) (img : Raster) (maxW maxH : Q) :
  originalImage e = Some img ->
  (0 < pixelSize e)%Z ->
  let scaledW := Js.floor (inject_Z (width img) * fitScale img maxW maxH) in
  let scaledH := Js.floor (inject_Z (height img) * fitScale img maxW maxH) in
  let e' := snd (getPixelatedData e maxW maxH) in
  (scaledW <= outputWidth e' < scaledW + pixelSize e)%Z /\
  (scaledH <= outputHeight e' < scaledH + pixelSize e)%Z /\
  getGridSize e' =
    (Js.ceil (inject_Z scaledW / inject_Z (pixelSize e)),
     Js.ceil (inject_Z scaledH / inject_Z (pixelSize e))).
Proof.
  intros Himg P. unfold getPixelatedData. rewrite Himg. cbn.
  split; [apply ceil_div_bounds; exact P |].
  split; [apply ceil_div_bounds; exact P |].
  unfold getGridSize, Js.ceil. cbn.
  f_equal; apply ceil_mul_div; exact P.
Qed.

Lemma upto_length (n : Z) : (0 <= n)%Z -> Z.of_nat (List.length (upto n)) = n.
Proof.
  intro N. unfold upto. rewrite List.length_map, List.length_seq. lia.
Qed.

(** The grid of [getPixelGrid] has [gridHeight] rows of [gridWidth] cells. *)
Lemma getPixelGrid_rectangular (e : PixelateEngine) (grid : Grid) :
  getPixelGrid e = Some grid ->
  (0 <= fst (getGridSize e))%Z -> (0 <= snd (getGridSize e))%Z ->
  rectangular grid (getGridSize e).
Proof.
  unfold getPixelGrid. destruct (originalImage e) as [img |]; [| discriminate].
  destruct (getGridSize e) as [gridWidth gridHeight]. cbn [fst snd].
  intros E W H. injection E as <-. split; cbn [fst snd].
  - rewrite List.length_map. apply upto_length, H.
  - apply Forall_forall. intros row I. apply in_map_iff in I.
    destruct I as [y [<- _]]. rewrite List.length_map. apply upto_length, W.
Qed.

(** C5.  While no image is loaded, [getPixelatedData], [renderToCanvas]
    and [getPixelGrid] return nothing ([null], [undefined], [null]) and
    leave the engine, and the target canvas, as they were.  The three
    functions are total, so none of them raises. *)
Theorem no_image_is_noop (e : PixelateEngine) (target : Raster) (maxW maxH : Q) :
  originalImage e = None ->
  getPixelatedData e maxW maxH = (None, e) /\
  renderToCanvas e target maxW maxH = (e, target) /\
  getPixelGrid e = None.
Proof.
  intro Himg. unfold renderToCanvas, getPixelatedData, getPixelGrid.
  rewrite Himg. repeat split.
Qed.

End PixelateFacts.

Lemma getPixelatedData_geometry_witness :
  let e' := snd (Binary64.getPixelatedData (canvas2d := nearestCanvas) wideEngine 400 400) in
  getOutputSize e' = specOutputSize Binary64.round 539 100 7 400 400 /\
  (7 | outputWidth e')%Z.
Proof.
  destruct (getPixelatedData_geometry (canvas2d := nearestCanvas) wideEngine
              (mkRaster 539 100 []) 400 400) as (S & D & _).
  - reflexivity.
  - reflexivity.
  - reflexivity.
  - split; discriminate.
  - reflexivity.
  - reflexivity.
  - split; [exact S | exact D].
Defined.

(** The doubles matter.  For a 539 by 100 image in a 400 by 400 box the
    double [539 * (400 / 539)] lies just below 400, its floor is 399, which
    is 57 blocks of 7: the code stores 399 by 77.  In exact arithmetic the
    product is 400 and takes 58 blocks, 406. *)
Lemma stored_size_is_the_one_of_the_doubles :
  getOutputSize (snd (Binary64.getPixelatedData (canvas2d := nearestCanvas) wideEngine 400 400))
    = (399, 77)%Z /\
  specOutputSize Binary64.round 539 100 7 400 400 = (399, 77)%Z /\
  specOutputSize exactly 539 100 7 400 400 = (406, 77)%Z /\
  Js.floor (Binary64.round (539 * Binary64.round (400 / 539))) = 399%Z /\
  Js.floor (539 * (400 / 539)) = 400%Z.
Proof.
  split; [lazy; reflexivity |]. split; [vm_compute; reflexivity |].
  split; [vm_compute; reflexivity |].
  split; vm_compute; reflexivity.
Qed.

Lemma no_image_is_noop_witness :
  getPixelatedData (canvas2d := nearestCanvas) newPixelateEngine 400 400
    = (None, newPixelateEngine) /\
  renderToCanvas (canvas2d := nearestCanvas) newPixelateEngine (mkRaster 300 150 []) 400 400
    = (newPixelateEngine, mkRaster 300 150 []) /\
  getPixelGrid (canvas2d := nearestCanvas) newPixelateEngine = None.
Proof.
  apply (no_image_is_noop (canvas2d := nearestCanvas) newPixelateEngine
           (mkRaster 300 150 []) 400 400).
  reflexivity.
Defined.

(** The scenario of the specification: the grid of the red image is 8 by 8
    and every cell is opaque red. *)
Example red_grid :
  let e' := snd (getPixelatedData (canvas2d := nearestCanvas) redEngine 400 400) in
  getPixelGrid (canvas2d := nearestCanvas) e'
    = Some (repeat (repeat (mkPixel 255 0 0 255) 8) 8).
Proof. vm_compute. reflexivity. Qed.

(** ** Sparkle: the seeded pseudo-random positions *)

Section SparkleFacts.

Context {math : MathLib}.

Lemma seededRandom_range (seed : Z) : 0 <= seededRandom seed < 1.
Proof.
  unfold seededRandom, Js.floor.
  set (x := Math_sin (inject_Z seed) * 10000).
  pose proof (Qfloor_le x) as L.
  pose proof (Qlt_floor x) as U.
  rewrite inject_Z_plus in U. change (inject_Z 1) with 1 in U.
  split; lra.
Qed.

(** A fraction of [n] floors to an index below [n]. *)
Lemma floor_scaled_range (u : Q) (n : Z) :
  0 <= u < 1 -> (0 < n)%Z -> (0 <= Js.floor (u * inject_Z n) < n)%Z.
Proof.
  intros [L U] N. pose proof (JsFacts.inject_Z_pos _ N) as QN.
  unfold Js.floor. split.
  - rewrite <- (Qfloor_Z 0). apply Qfloor_resp_le.
    change (inject_Z 0) with 0. nra.
  - rewrite Zlt_Qlt.
    pose proof (Qfloor_le (u * inject_Z n)). nra.
Qed.

Lemma index_in_range {A : Type} (l : list A) (i : Z) :
  (0 <= i < Z.of_nat (List.length l))%Z -> exists v, index l i = Some v.
Proof.
  intros [L U]. unfold index.
  destruct (i <? 0)%Z eqn:E; [apply Z.ltb_lt in E; lia |].
  destruct (nth_error l (Z.to_nat i)) as [v |] eqn:N; [exists v; reflexivity |].
  apply nth_error_None in N. lia.
Qed.

Lemma cellAt_in_range (grid : Grid) (gridSize : Z * Z) (x y : Z) :
  rectangular grid gridSize ->
  (0 <= x < fst gridSize)%Z -> (0 <= y < snd gridSize)%Z ->
  exists pixel, cellAt grid y x = Some pixel.
Proof.
  intros [H W] X Y. unfold cellAt.
  destruct (index_in_range grid y) as [row R]; [lia |].
  rewrite R.
  assert (In row grid) as I.
  { unfold index in R. destruct (y <? 0)%Z; [discriminate |].
    eapply nth_error_In; exact R. }
  rewrite Forall_forall in W. specialize (W row I).
  apply index_in_range. lia.
Qed.

(** C10.  [seededRandom] returns a value in [0, 1) for every integer seed;
    so on a non-empty grid the position of every sparkle candidate,
    [x = floor (seededRandom seed * gridWidth)] and
    [y = floor (seededRandom (seed + 1) * gridHeight)], satisfies
    [0 <= x < gridWidth] and [0 <= y < gridHeight], and the lookup
    [pixelGrid[y]?.[x]] finds a cell. *)
Theorem sparkle_lookup_in_bounds (seed i : Z) (time : Q) (grid : Grid)
  (gridWidth gridHeight : Z) :
  (0 < gridWidth)%Z -> (0 < gridHeight)%Z ->
  rectangular grid (gridWidth, gridHeight) ->
  0 <= seededRandom seed < 1 /\
  (0 <= Js.floor (seededRandom seed * inject_Z gridWidth) < gridWidth)%Z /\
  (0 <= Js.floor (seededRandom (seed + 1) * inject_Z gridHeight) < gridHeight)%Z /\
  (0 <= fst (sparklePosition i time (gridWidth, gridHeight)) < gridWidth)%Z /\
  (0 <= snd (sparklePosition i time (gridWidth, gridHeight)) < gridHeight)%Z /\
  exists pixel,
    cellAt grid (snd (sparklePosition i time (gridWidth, gridHeight)))
                (fst (sparklePosition i time (gridWidth, gridHeight))) = Some pixel.
Proof.
  intros W H R.
  assert (X : forall sd, (0 <= Js.floor (seededRandom sd * inject_Z gridWidth) < gridWidth)%Z).
  { intro sd. apply floor_scaled_range; [apply seededRandom_range | exact W]. }
  assert (Y : forall sd, (0 <= Js.floor (seededRandom sd * inject_Z gridHeight) < gridHeight)%Z).
  { intro sd. apply floor_scaled_range; [apply seededRandom_range | exact H]. }
  split; [apply seededRandom_range |].
  split; [apply X |]. split; [apply Y |].
  unfold sparklePosition; cbn [fst snd].
  split; [apply X |]. split; [apply Y |].
  apply (cellAt_in_range grid (gridWidth, gridHeight)); [exact R | apply X | apply Y].
Qed.

(** C9.  Two times that agree on [floor (time * 3)] give sparkle candidate
    [i] the same grid position: the position is that of the seed
    [i * 1000 + floor (time * 3)]. *)
Theorem sparkle_position_stable (i : Z) (t1 t2 : Q) (gridSize : Z * Z) :
  Js.floor (t1 * 3) = Js.floor (t2 * 3) ->
  sparklePosition i t1 gridSize = sparklePosition i t2 gridSize /\
  sparklePosition i t1 gridSize
    = positionOfSeed (i * 1000 + Js.floor (t1 * 3)) gridSize.
Proof.
  intro E. unfold sparklePosition, positionOfSeed. rewrite E. split; reflexivity.
Qed.

End SparkleFacts.

Lemma sparkle_lookup_in_bounds_witness :
  let grid := repeat (repeat (mkPixel 255 0 0 255) 4) 3 in
  0 <= seededRandom (math := seriesMath) 2 < 1 /\
  (0 <= Js.floor (seededRandom (math := seriesMath) 2 * inject_Z 4) < 4)%Z /\
  (0 <= Js.floor (seededRandom (math := seriesMath) (2 + 1) * inject_Z 3) < 3)%Z /\
  (0 <= fst (sparklePosition (math := seriesMath) 1 0.5 (4, 3)%Z) < 4)%Z /\
  (0 <= snd (sparklePosition (math := seriesMath) 1 0.5 (4, 3)%Z) < 3)%Z /\
  exists pixel,
    cellAt grid (snd (sparklePosition (math := seriesMath) 1 0.5 (4, 3)%Z))
                (fst (sparklePosition (math := seriesMath) 1 0.5 (4, 3)%Z)) = Some pixel.
Proof.
  apply (sparkle_lookup_in_bounds (math := seriesMath) 2 1 0.5
           (repeat (repeat (mkPixel 255 0 0 255) 4) 3) 4 3).
  - reflexivity.
  - reflexivity.
  - split; [reflexivity | repeat constructor].
Defined.

Lemma sparkle_position_stable_witness :
  sparklePosition (math := seriesMath) 7 0.1 (4, 3)%Z
    = sparklePosition (math := seriesMath) 7 0.2 (4, 3)%Z /\
  sparklePosition (math := seriesMath) 7 0.1 (4, 3)%Z
    = positionOfSeed (math := seriesMath) (7 * 1000 + Js.floor (0.1 * 3)) (4, 3)%Z.
Proof.
  apply (sparkle_position_stable (math := seriesMath) 7 0.1 0.2 (4, 3)%Z).
  reflexivity.
Defined.

(** ** The effects: what is drawn, and from what *)

Section EffectFacts.

Context {math : MathLib}.

Lemma in_drawn {A : Type} (pixel : option Pixel) (body : Pixel -> list A) (f : A) :
  In f (drawn pixel body) ->
  exists p, pixel = Some p /\ (10 <= a p)%Z /\ In f (body p).
Proof.
  unfold drawn. destruct pixel as [p |]; [| intros []].
  destruct (a p <? 10)%Z eqn:E; [intros [] |].
  intro I. exists p. apply Z.ltb_ge in E. auto.
Qed.

Lemma in_forCells {A : Type} (gridSize : Z * Z) (body : Z -> Z -> list A) (f : A) :
  In f (forCells gridSize body) -> exists x y, In f (body x y).
Proof.
  unfold forCells. intro I.
  apply in_flat_map in I. destruct I as [y [_ I]].
  apply in_flat_map in I. destruct I as [x [_ I]].
  exists x, y. exact I.
Qed.

(** A loop over the grid whose body tags its fills with the cell it is at
    draws from visible cells only. *)
Lemma forCells_visible (grid : Grid) (gridSize : Z * Z) (body : Z -> Z -> Pixel -> list Fill) :
  (forall x y p f, In f (body x y p) -> cell f = Some (x, y)) ->
  Forall (fromVisibleCell grid)
    (forCells gridSize (fun x y => drawn (cellAt grid y x) (body x y))).
Proof.
  intro Tag. apply Forall_forall. intros f I.
  apply in_forCells in I. destruct I as [x [y I]].
  apply in_drawn in I. destruct I as [p [C [A I]]].
  exists x, y, p. split; [eapply Tag; exact I | split; assumption].
Qed.

Ltac tagged :=
  let I := fresh "I" in
  intros ? ? ? ? I; cbn in I;
  repeat (destruct I as [I | I]; [subst; reflexivity |]); destruct I.

Lemma renderStatic_visible (grid : Grid) (pixelSize : Z) (gridSize : Z * Z) :
  Forall (fromVisibleCell grid) (renderStatic grid pixelSize gridSize).
Proof. apply forCells_visible. tagged. Qed.

Lemma renderFloat_visible (grid : Grid) (intensity : Z) (time : Q) (pixelSize : Z)
  (gridSize : Z * Z) :
  Forall (fromVisibleCell grid) (renderFloat grid intensity time pixelSize gridSize).
Proof.
  unfold renderFloat. apply Forall_app. split; apply forCells_visible; tagged.
Qed.

Lemma renderWave_visible (grid : Grid) (intensity : Z) (time : Q) (pixelSize : Z)
  (gridSize : Z * Z) :
  Forall (fromVisibleCell grid) (renderWave grid intensity time pixelSize gridSize).
Proof.
  unfold renderWave.
  apply (forCells_visible grid gridSize
           (fun x y pixel =>
              [mkFill (Some (x, y)) (Rgba (r pixel) (g pixel) (b pixel) (opacity pixel))
                 _ _ _ _])).
  tagged.
Qed.

Lemma renderRainbow_visible (grid : Grid) (intensity : Z) (time : Q) (pixelSize : Z)
  (gridSize : Z * Z) :
  Forall (fromVisibleCell grid) (renderRainbow grid intensity time pixelSize gridSize).
Proof.
  apply forCells_visible. intros x y p f. unfold rainbowCell.
  destruct (hslToRgb _ _ _) as [[r' g'] b'].
  intros [I | []]. subst f. reflexivity.
Qed.

Lemma sparkleAt_tagged (i : Z) (time : Q) (pixelSize x y : Z) (f : Fill) :
  In f (sparkleAt i time pixelSize x y) -> cell f = Some (x, y).
Proof.
  unfold sparkleAt.
  destruct (Js.gtb _ 0.3); [| intros []].
  destruct (Js.gtb _ 0.6); cbn; intros I;
    repeat (destruct I as [I | I]; [subst; reflexivity |]); destruct I.
Qed.

Lemma renderSparkle_visible (grid : Grid) (intensity : Z) (time : Q) (pixelSize : Z)
  (gridSize : Z * Z) :
  Forall (fromVisibleCell grid) (renderSparkle grid intensity time pixelSize gridSize).
Proof.
  unfold renderSparkle. apply Forall_app. split.
  - apply forCells_visible. tagged.
  - apply Forall_forall. intros f I.
    apply in_flat_map in I. destruct I as [i [_ I]].
    destruct (sparklePosition i time gridSize) as [x y].
    apply in_drawn in I. destruct I as [p [C [A I]]].
    exists x, y, p. split; [eapply sparkleAt_tagged; exact I | split; assumption].
Qed.

Lemma glitchRows_visible (rows : list Z) (grid : Grid) (time : Q)
  (intensity pixelSize gridWidth : Z) (glitchLines : list GlitchLine) (rng : Rng) :
  Forall (fromVisibleCell grid)
    (fst (glitchRows rows grid time intensity pixelSize gridWidth glitchLines rng)).
Proof.
  revert rng. induction rows as [| y rows IH]; intro rng; cbn.
  - constructor.
  - destruct (Js.ltb _ _).
    + cbn. destruct (glitchRows rows _ _ _ _ _ _ _) as [rest rng'] eqn:E.
      cbn. apply Forall_app. split.
      * apply Forall_forall. intros f I.
        apply in_flat_map in I. destruct I as [x [_ I]].
        apply in_drawn in I. destruct I as [p [C [A I]]].
        exists x, y, p. split; [| split; assumption].
        cbn in I. repeat (destruct I as [I | I]; [subst; reflexivity |]). destruct I.
      * specialize (IH (snd (random (snd (random rng))))).
        cbn in IH. rewrite E in IH. exact IH.
    + destruct (glitchRows rows _ _ _ _ _ _ _) as [rest rng'] eqn:E.
      cbn. apply Forall_app. split.
      * apply Forall_forall. intros f I.
        apply in_flat_map in I. destruct I as [x [_ I]].
        apply in_drawn in I. destruct I as [p [C [A I]]].
        exists x, y, p. split; [| split; assumption].
        cbn in I. repeat (destruct I as [I | I]; [subst; reflexivity |]). destruct I.
      * specialize (IH (snd (random rng))).
        cbn in IH. rewrite E in IH. exact IH.
Qed.

Lemma renderGlitch_visible (grid : Grid) (intensity : Z) (time : Q) (pixelSize : Z)
  (gridSize : Z * Z) (rng : Rng) :
  Forall (fromVisibleCell grid)
    (fst (renderGlitch grid intensity time pixelSize gridSize rng)).
Proof.
  unfold renderGlitch.
  destruct (sampleGlitchLines _ _ _ _) as [glitchLines rng'].
  apply glitchRows_visible.
Qed.

Lemma renderEffect_visible (effect : string) (grid : Grid) (intensity : Z)
  (time : Q) (pixelSize : Z) (gridSize : Z * Z) (rng : Rng) :
  Forall (fromVisibleCell grid)
    (fst (renderEffect effect grid intensity time pixelSize gridSize rng)).
Proof.
  unfold renderEffect.
  repeat match goal with |- context [String.eqb ?x ?y] => destruct (String.eqb x y) end;
    cbn [fst].
  - apply renderGlitch_visible.
  - apply renderFloat_visible.
  - apply renderSparkle_visible.
  - apply renderWave_visible.
  - apply renderRainbow_visible.
  - apply renderStatic_visible.
Qed.

(** C6.  Whatever the effect name, grid, intensity, time, geometry and
    random draws, every fill an effect issues comes from a cell of the grid
    whose alpha is at least 10 (10/255 is about 4%): no fill is issued for
    a cell below the threshold. *)
Theorem effects_skip_transparent_cells (effect : string) (grid : Grid) (intensity : Z)
  (time : Q) (pixelSize : Z) (gridSize : Z * Z) (rng : Rng) :
  Forall (fun f =>
            exists x y pixel,
              cell f = Some (x, y) /\ cellAt grid y x = Some pixel /\ ~ (a pixel < 10)%Z)
    (fst (renderEffect effect grid intensity time pixelSize gridSize rng)).
Proof.
  eapply Forall_impl;
    [| apply (renderEffect_visible effect grid intensity time pixelSize gridSize rng)].
  intros f [x [y [p [C [L A]]]]].
  exists x, y, p. repeat split; [exact C | exact L | lia].
Qed.

(** With every cell below the threshold, an effect draws nothing. *)
Corollary transparent_grid_draws_nothing (effect : string) (grid : Grid) (intensity : Z)
  (time : Q) (pixelSize : Z) (gridSize : Z * Z) (rng : Rng) :
  (forall x y pixel, cellAt grid y x = Some pixel -> (a pixel < 10)%Z) ->
  fst (renderEffect effect grid intensity time pixelSize gridSize rng) = [].
Proof.
  intro T.
  pose proof (renderEffect_visible effect grid intensity time pixelSize gridSize rng) as V.
  destruct (fst _) as [| f fills]; [reflexivity |].
  inversion V as [| ? ? [x [y [p [_ [C A]]]]] _]. specialize (T x y p C). lia.
Qed.

End EffectFacts.

(** ** Rendering and the random source *)

Section RenderFacts.

Context {canvas2d : Canvas2D} {math : MathLib}.

Lemma renderEffect_without_glitch (effect : string) (grid : Grid) (intensity : Z)
  (time : Q) (pixelSize : Z) (gridSize : Z * Z) (rng1 rng2 : Rng) :
  effect <> "glitch"%string ->
  fst (renderEffect effect grid intensity time pixelSize gridSize rng1)
    = fst (renderEffect effect grid intensity time pixelSize gridSize rng2) /\
  snd (renderEffect effect grid intensity time pixelSize gridSize rng1) = rng1.
Proof.
  intro N. unfold renderEffect.
  destruct (String.eqb effect "glitch") eqn:E.
  - apply String.eqb_eq in E. contradiction.
  - repeat match goal with |- context [String.eqb ?x ?y] => destruct (String.eqb x y) end;
      split; reflexivity.
Qed.

(** C3, as the code has it.  Under every effect but glitch (none, float,
    sparkle, wave, rainbow, and any other name, which is drawn static) the
    fills of [render] are a function of the grid, the geometry (block size,
    grid size, canvas size), the intensity and the time: two engines that
    agree on these draw the same fills, whatever else they differ in (the
    frame count, the running flag, the image behind the grid) and whatever
    [Math.random] would return, and [render] takes no random draw.  Glitch
    draws from [Math.random]. *)
Theorem render_deterministic_without_glitch (p1 p2 : PixelateEngine)
  (e1 e2 : AnimationEngine) (rng1 rng2 : Rng) :
  currentEffect e1 <> "glitch"%string ->
  currentEffect e2 = currentEffect e1 ->
  pixelGrid e2 = pixelGrid e1 ->
  intensity e2 = intensity e1 ->
  time e2 = time e1 ->
  pixelSize p2 = pixelSize p1 ->
  getGridSize p2 = getGridSize p1 ->
  canvas e2 = canvas e1 ->
  (baseImageData e1 = None <-> baseImageData e2 = None) ->
  option_map fst (renderFills p1 e1 rng1) = option_map fst (renderFills p2 e2 rng2) /\
  option_map snd (renderFills p1 e1 rng1)
    = option_map (fun _ => rng1) (renderFills p1 e1 rng1).
Proof.
  intros N Ef Gr In Ti Ps Gs Cv Ba. unfold renderFills.
  rewrite Ef, Gr, In, Ti, Ps, Gs, Cv.
  destruct (baseImageData e1) as [d1 |], (baseImageData e2) as [d2 |];
    try (split; reflexivity).
  - destruct (pixelGrid e1) as [grid |]; [| split; reflexivity].
    destruct (renderEffect_without_glitch (currentEffect e1) grid (intensity e1) (time e1)
                (pixelSize p1) (getGridSize p1) rng1 rng2 N) as [F S].
    destruct (renderEffect _ _ _ _ _ _ rng1) as [f1 r1].
    destruct (renderEffect _ _ _ _ _ _ rng2) as [f2 r2].
    cbn in *. subst. split; reflexivity.
  - destruct Ba as [_ Ba]. specialize (Ba eq_refl). discriminate.
  - destruct Ba as [Ba _]. specialize (Ba eq_refl). discriminate.
Qed.

End RenderFacts.

Lemma render_deterministic_without_glitch_witness :
  let p := pixelateEngine redWorld in
  let e1 := setEffect "wave" (animationEngine redWorld) in
  let e2 := setFrameCount 99 (setRunning true e1) in
  option_map fst (renderFills (math := seriesMath) p e1 (constantRng 0))
    = option_map fst (renderFills (math := seriesMath) (dispose p) e2 (constantRng 0.99)).
Proof.
  apply (render_deterministic_without_glitch (math := seriesMath)
           (pixelateEngine redWorld) (dispose (pixelateEngine redWorld))
           (setEffect "wave" (animationEngine redWorld))
           (setFrameCount 99 (setRunning true (setEffect "wave" (animationEngine redWorld))))
           (constantRng 0) (constantRng 0.99));
    first [reflexivity | discriminate].
Defined.

(** Under glitch, at time 0 (where the sine is 0), two [render] calls on the
    same grid with the same intensity and time draw differently when
    [Math.random] returns 0 throughout the one and 0.99 throughout the other:
    the first cell's base fill lands at a different abscissa. *)
Lemma glitch_depends_on_random :
  let fills rng :=
    option_map fst
      (renderFills (math := seriesMath) (pixelateEngine redWorld)
         (animationEngine redWorld) rng) in
  fills (constantRng 0) <> fills (constantRng 0.99) /\
  exists l1 l2 f1 f2,
    fills (constantRng 0) = Some l1 /\ fills (constantRng 0.99) = Some l2 /\
    nth_error l1 3 = Some f1 /\ nth_error l2 3 = Some f2 /\
    ~ rectX f1 == rectX f2.
Proof.
  split.
  - vm_compute. discriminate.
  - eexists. eexists. eexists. eexists.
    split; [vm_compute; reflexivity |].
    split; [vm_compute; reflexivity |].
    split; [reflexivity |].
    split; [reflexivity |].
    vm_compute. discriminate.
Qed.

(** ** Rainbow: hue arithmetic *)

Section RainbowFacts.

Context {math : MathLib}.

Lemma ltb_comp (x x' y y' : Q) : x == x' -> y == y' -> Js.ltb x y = Js.ltb x' y'.
Proof.
  intros X Y. destruct (Js.ltb x' y') eqn:E.
  - apply JsFacts.ltb_spec in E. apply JsFacts.ltb_spec. lra.
  - apply JsFacts.ltb_false in E. apply JsFacts.ltb_false. lra.
Qed.







End RainbowFacts.


(** ** The capture loop of the exporter *)

Section CaptureFacts.

Context {canvas2d : Canvas2D} {math : MathLib}.

Lemma render_frame (w : World) :
  pixelateEngine (render w) = pixelateEngine w /\
  gifExporter (render w) = gifExporter w /\
  gifLoaded (render w) = gifLoaded w /\
  pending (render w) = pending w /\
  current (render w) = current w /\
  nextHandle (render w) = nextHandle w /\
  trace (render w) = trace w.
Proof.
  unfold render. destruct (renderFills _ _ _) as [[fills rng'] |]; repeat split.
Qed.

Lemma render_engine (w : World) :
  isRunning (animationEngine (render w)) = isRunning (animationEngine w) /\
  time (animationEngine (render w)) = time (animationEngine w) /\
  speed (animationEngine (render w)) = speed (animationEngine w) /\
  animationId (animationEngine (render w)) = animationId (animationEngine w) /\
  attached (animationEngine (render w)) = attached (animationEngine w) /\
  onFrameCapture (animationEngine (render w)) = onFrameCapture (animationEngine w).
Proof.
  unfold render. destruct (renderFills _ _ _) as [[fills rng'] |]; repeat split.
Qed.

Lemma render_frameCount (w : World) :
  frameCount (animationEngine (render w)) = frameCount (animationEngine w).
Proof.
  unfold render. destruct (renderFills _ _ _) as [[fills rng'] |]; reflexivity.
Qed.

Lemma ticked_frame (w : World) :
  gifExporter (ticked w) = gifExporter w /\
  gifLoaded (ticked w) = gifLoaded w /\
  pending (ticked w) = pending w /\
  current (ticked w) = current w /\
  nextHandle (ticked w) = nextHandle w /\
  trace (ticked w) = trace w.
Proof.
  unfold ticked.
  destruct (render_frame (updAnimation (fun e => setTime (time e + tick (speed e)) e) w))
    as (_ & X & L & P & C & N & T).
  rewrite X, L, P, C, N, T. repeat split.
Qed.

Lemma ticked_engine (w : World) :
  isRunning (animationEngine (ticked w)) = isRunning (animationEngine w) /\
  time (animationEngine (ticked w))
    = time (animationEngine w) + tick (speed (animationEngine w)) /\
  speed (animationEngine (ticked w)) = speed (animationEngine w).
Proof.
  unfold ticked.
  destruct (render_engine (updAnimation (fun e => setTime (time e + tick (speed e)) e) w))
    as (R & T & S & _).
  rewrite R, T, S. repeat split.
Qed.

(** The capture loop while frames are still wanted. *)
Lemma captureLoop_continue (wasRunning : bool) (interval counter : Z) (w : World) :
  isExporting (gifExporter w) = true ->
  (framesCaptured (gifExporter w) < totalFrames (gifExporter w))%Z ->
  captureLoop wasRunning interval counter w
    = snd (requestAnimationFrame (CaptureLoop wasRunning interval (counter + 1))
             (if (Z.rem (counter + 1) interval =? 0)%Z
              then snd (addFrame (frameDelay (gifExporter (ticked w))) (ticked w))
              else ticked w)).
Proof.
  intros E F. unfold captureLoop. rewrite E.
  assert (T : (totalFrames (gifExporter w) <=? framesCaptured (gifExporter w))%Z = false)
    by (apply Z.leb_gt; exact F).
  rewrite T. reflexivity.
Qed.

(** The capture loop once cancelled: nothing is encoded, and the animation
    restarts if it was running. *)
Lemma captureLoop_cancelled (wasRunning : bool) (interval counter : Z) (w : World) :
  isExporting (gifExporter w) = false ->
  captureLoop wasRunning interval counter w = if wasRunning then start w else w.
Proof.
  intro E. unfold captureLoop. rewrite E. reflexivity.
Qed.

(** The capture loop once every frame is captured. *)
Lemma captureLoop_finished (wasRunning : bool) (interval counter : Z) (w : World) :
  isExporting (gifExporter w) = true ->
  (totalFrames (gifExporter w) <= framesCaptured (gifExporter w))%Z ->
  captureLoop wasRunning interval counter w
    = let w' :=
        emit GifRender
          (if onProgress (gifExporter w) then emit (OnProgress 50 Encoding) w else w) in
      if wasRunning then start w' else w'.
Proof.
  intros E F. unfold captureLoop. rewrite E.
  assert (T : (totalFrames (gifExporter w) <=? framesCaptured (gifExporter w))%Z = true)
    by (apply Z.leb_le; exact F).
  rewrite T. reflexivity.
Qed.

Lemma upto_succ (n : Z) : (0 <= n)%Z -> upto (n + 1) = upto n ++ [n].
Proof.
  intro N. unfold upto.
  replace (Z.to_nat (n + 1)) with (S (Z.to_nat n)) by lia.
  rewrite seq_S, map_app. cbn. rewrite Z2Nat.id by exact N. reflexivity.
Qed.

Lemma div_succ (k c : Z) :
  (0 <= k)%Z -> (0 < c)%Z ->
  ((k + 1) / c)%Z = if (Z.rem (k + 1) c =? 0)%Z then (k / c + 1)%Z else (k / c)%Z.
Proof.
  intros K C. rewrite Z.rem_mod_nonneg by lia.
  pose proof (Z.div_mod k c ltac:(lia)) as D.
  pose proof (Z.mod_pos_bound k c C) as B.
  pose proof (Z.div_mod (k + 1) c ltac:(lia)) as D'.
  pose proof (Z.mod_pos_bound (k + 1) c C) as B'.
  destruct ((k + 1) mod c =? 0)%Z eqn:E.
  - apply Z.eqb_eq in E. nia.
  - apply Z.eqb_neq in E. nia.
Qed.

Lemma addFrame_frame (d : Z) (w : World) :
  gif (gifExporter w) <> None ->
  isExporting (gifExporter w) = true ->
  let x := gifExporter w in
  let w' := snd (addFrame d w) in
  animationEngine w' = animationEngine w /\
  pending w' = pending w /\
  current w' = current w /\
  nextHandle w' = nextHandle w /\
  gifExporter w' = setFramesCaptured (framesCaptured x + 1) x /\
  trace w' =
    trace w ++ GifAddFrame (surface (animationEngine w)) (orDefault d (frameDelay x))
            :: (if onProgress x
                then [OnProgress (captureProgress (framesCaptured x + 1) (totalFrames x))
                        (Capturing (framesCaptured x + 1) (totalFrames x))]
                else []).
Proof.
  intros G E. unfold addFrame.
  destruct (gif (gifExporter w)) as [gf |] eqn:GE; [| contradiction].
  rewrite E. cbn.
  destruct (onProgress (gifExporter w)); cbn; rewrite <- ?app_assoc; repeat split.
Qed.

(** One call of the capture loop takes the page from [k] ticks to [k + 1]
    and registers the loop for the next frame. *)
Lemma captureLoop_tick (wasRunning : bool) (c total : Z) (op : bool) (t0 : list Event)
  (sp k : Z) (w : World) :
  (0 < c)%Z -> (0 <= k)%Z -> (k / c < total)%Z ->
  Exporting c total op t0 sp k w ->
  let w' := captureLoop wasRunning c k w in
  Exporting c total op t0 sp (k + 1) w' /\
  pending w' = pending w ++ [(nextHandle w, CaptureLoop wasRunning c (k + 1))] /\
  current w' = current w.
Proof.
  intros C K F [St G E Cp T P S Tm [events [Tr [LF LP LL]]]]. cbn zeta.
  rewrite captureLoop_continue by (rewrite ?Cp, ?T; assumption).
  destruct (ticked_frame w) as (TX & TL & TP & TC & TN & TT).
  destruct (ticked_engine w) as (ER & ET & ES).
  pose proof (div_succ k c K C) as DS.
  destruct (Z.rem (k + 1) c =? 0)%Z eqn:R.
  - destruct (addFrame_frame (frameDelay (gifExporter (ticked w))) (ticked w))
      as (AE & AP & AC & AN & AX & AT); [rewrite TX; exact G | rewrite TX; exact E |].
    cbn zeta in *. unfold requestAnimationFrame. cbn.
    split; [| rewrite AP, AC, AN, TP, TC, TN; split; reflexivity].
    constructor; cbn;
      rewrite ?AE, ?AX, ?AT, ?TX, ?TT, ?ER, ?ES; cbn; try assumption.
    + rewrite Cp, DS. reflexivity.
    + rewrite ET, S, Tm, inject_Z_plus. change (inject_Z 1) with 1. ring.
    + eexists. split; [rewrite Tr, <- app_assoc; reflexivity |].
      assert (D0 : (0 <= k / c)%Z) by (apply Z.div_pos; lia).
      rewrite Cp, T, P. constructor.
      * rewrite filter_app, List.length_app, LF, DS.
        destruct op; cbn; lia.
      * unfold progressValues in *. rewrite flat_map_app, LP, DS.
        destruct op; cbn; [| reflexivity].
        unfold progressSteps. rewrite upto_succ, map_app by exact D0. reflexivity.
      * intros O _ _. rewrite O, DS. eexists. eexists. eexists. reflexivity.
  - unfold requestAnimationFrame. cbn.
    split; [| rewrite TP, TC, TN; split; reflexivity].
    constructor; cbn; rewrite ?TX, ?TT, ?ER, ?ES; try assumption.
    + rewrite Cp, DS. reflexivity.
    + rewrite ET, S, Tm, inject_Z_plus. change (inject_Z 1) with 1. ring.
    + exists events. split; [exact Tr |].
      constructor.
      * rewrite DS. exact LF.
      * rewrite DS. exact LP.
      * intros _ Z0 _. apply Z.eqb_neq in R. contradiction.
Qed.

(** *** The host's frames during an export *)

Lemma animate_stopped (w : World) :
  isRunning (animationEngine w) = false -> animate w = w.
Proof. intro S. unfold animate. rewrite S. reflexivity. Qed.

(** Callbacks of a stopped animation return at once. *)
Lemma runCallbacks_strays (strays rest : list (Z * Task)) (n : nat) (w : World) :
  Forall isAnimate strays ->
  isRunning (animationEngine w) = false ->
  current w = strays ++ rest ->
  runCallbacks (List.length strays + n) w = runCallbacks n (setCurrent rest w).
Proof.
  revert w. induction strays as [| [id task] strays IH]; intros w A S C.
  - cbn in *. destruct w; cbn in *. subst. reflexivity.
  - inversion A as [| ? ? T A']; subst. unfold isAnimate in T. cbn in T. subst task.
    cbn [List.length Nat.add runCallbacks]. rewrite C. cbn [app runTask].
    rewrite animate_stopped by exact S.
    rewrite IH; [reflexivity | exact A' | exact S | reflexivity].
Qed.

Lemma animationFrame_capture (wasRunning : bool) (c k : Z) (strays : list (Z * Task))
  (id : Z) (w : World) :
  pending w = strays ++ [(id, CaptureLoop wasRunning c k)] ->
  Forall isAnimate strays ->
  isRunning (animationEngine w) = false ->
  animationFrame w = captureLoop wasRunning c k (idle w).
Proof.
  intros P A S. unfold animationFrame. rewrite P, List.length_app.
  rewrite (runCallbacks_strays strays [(id, CaptureLoop wasRunning c k)]);
    [| exact A | exact S | reflexivity].
  reflexivity.
Qed.

Lemma Exporting_idle (c total : Z) (op : bool) (t0 : list Event) (sp k : Z) (w : World) :
  Exporting c total op t0 sp k w -> Exporting c total op t0 sp k (idle w).
Proof. intros [? ? ? ? ? ? ? ? ?]. constructor; assumption. Qed.

Lemma frame_tick (wasRunning : bool) (c total : Z) (op : bool) (t0 : list Event)
  (sp k : Z) (w : World) :
  (0 < c)%Z -> (0 <= k)%Z -> (k / c < total)%Z ->
  Exporting c total op t0 sp k w -> loopPending wasRunning c k w ->
  Exporting c total op t0 sp (k + 1) (animationFrame w) /\
  loopPending wasRunning c (k + 1) (animationFrame w).
Proof.
  intros C K F X (strays & id & P & A).
  rewrite (animationFrame_capture wasRunning c k strays id w P A (exp_stopped _ _ _ _ _ _ _ X)).
  destruct (captureLoop_tick wasRunning c total op t0 sp k (idle w) C K F
              (Exporting_idle _ _ _ _ _ _ _ X)) as (X' & P' & _).
  split; [exact X' |].
  exists [], (nextHandle (idle w)). split; [exact P' | constructor].
Qed.

Lemma frames_tick (wasRunning : bool) (c total : Z) (op : bool) (t0 : list Event)
  (sp : Z) (n : nat) (k : Z) (w : World) :
  (0 < c)%Z -> (0 <= k)%Z -> ((k + Z.of_nat n - 1) / c < total)%Z ->
  Exporting c total op t0 sp k w -> loopPending wasRunning c k w ->
  Exporting c total op t0 sp (k + Z.of_nat n) (animationFrames n w) /\
  loopPending wasRunning c (k + Z.of_nat n) (animationFrames n w).
Proof.
  revert k w. induction n as [| n IH]; intros k w C K F X L.
  - cbn. rewrite Z.add_0_r. split; assumption.
  - cbn [animationFrames].
    assert (F1 : (k / c < total)%Z).
    { eapply Z.le_lt_trans; [| exact F]. apply Z.div_le_mono; lia. }
    destruct (frame_tick wasRunning c total op t0 sp k w C K F1 X L) as [X1 L1].
    replace (k + Z.of_nat (S n))%Z with (k + 1 + Z.of_nat n)%Z by lia.
    apply IH; try assumption; [lia |].
    replace (k + 1 + Z.of_nat n - 1)%Z with (k + Z.of_nat (S n) - 1)%Z by lia.
    exact F.
Qed.

(** *** Starting, finishing and cancelling *)

Lemma stop_frame (w : World) :
  gifExporter (stop w) = gifExporter w /\
  trace (stop w) = trace w /\
  isRunning (animationEngine (stop w)) = false /\
  speed (animationEngine (stop w)) = speed (animationEngine w) /\
  (Forall isAnimate (pending w) -> Forall isAnimate (pending (stop w))).
Proof.
  unfold stop. cbn.
  destruct (animationId (animationEngine w)) as [id |]; cbn.
  - destruct (id =? 0)%Z; cbn; repeat split; try (intro A; exact A).
    intro A. apply Forall_forall. intros entry I.
    apply filter_In in I. rewrite Forall_forall in A. apply A, I.
  - repeat split. intro A. exact A.
Qed.

(** [startExport] leaves the page exporting, one tick into the loop. *)
Lemma startExport_begins (options : ExportOptions) (w : World) :
  gifLoaded w = true ->
  Forall isAnimate (pending w) ->
  (0 < orElse (captureInterval options) 2)%Z ->
  (0 < orElse (frames options) 30)%Z ->
  Exporting (orElse (captureInterval options) 2) (orElse (frames options) 30)
    (onProgress (gifExporter w)) (trace w) (speed (animationEngine w)) 1
    (startExport options w) /\
  loopPending (isRunning (animationEngine w)) (orElse (captureInterval options) 2) 1
    (startExport options w).
Proof.
  intros L A C N. unfold startExport, initExporter. rewrite L. cbn [negb fst snd].
  set (w1 := updExporter (setFramesCaptured 0) (updExporter (setExporting true)
               (updExporter _ w))).
  destruct (stop_frame w1) as (SX & ST & SR & SS & SA).
  set (w2 := updAnimation reset (stop w1)).
  assert (X0 : Exporting (orElse (captureInterval options) 2) (orElse (frames options) 30)
                 (onProgress (gifExporter w)) (trace w) (speed (animationEngine w)) 0 w2).
  { constructor; unfold w2; cbn; rewrite ?SX, ?ST, ?SR, ?SS; cbn;
      try reflexivity; try discriminate.
    exists []. split; [rewrite app_nil_r; reflexivity |].
    constructor; cbn.
    - reflexivity.
    - destruct (onProgress (gifExporter w)); reflexivity.
    - intros _ _ F. lia. }
  destruct (captureLoop_tick (isRunning (animationEngine w))
              (orElse (captureInterval options) 2) (orElse (frames options) 30)
              (onProgress (gifExporter w)) (trace w) (speed (animationEngine w)) 0 w2)
    as (X1 & P1 & _); [exact C | lia | rewrite Z.div_0_l by lia; exact N | exact X0 |].
  split; [exact X1 |].
  exists (pending w2), (nextHandle w2). split; [exact P1 |].
  unfold w2. cbn. apply SA. exact A.
Qed.

Lemma prepare_frame (w : World) :
  gifExporter (prepare w) = gifExporter w /\
  pending (prepare w) = pending w /\
  current (prepare w) = current w /\
  nextHandle (prepare w) = nextHandle w /\
  trace (prepare w) = trace w /\
  isRunning (animationEngine (prepare w)) = isRunning (animationEngine w) /\
  speed (animationEngine (prepare w)) = speed (animationEngine w) /\
  onFrameCapture (animationEngine (prepare w)) = onFrameCapture (animationEngine w).
Proof.
  unfold prepare. destruct (attached (animationEngine w)); cbn; [| repeat split].
  destruct (getPixelatedData _ _ _) as [imageData p].
  destruct (getOutputSize p) as [outW outH]. repeat split.
Qed.

(** [start] on a stopped animation: the clock restarts at 0 and the first
    [animate] call, made before [start] returns, advances it by one tick. *)
Lemma start_frame (w : World) :
  isRunning (animationEngine w) = false ->
  gifExporter (start w) = gifExporter w /\
  trace (start w)
    = trace w ++ (if onFrameCapture (animationEngine w) then [OnFrameCapture 1] else []) /\
  pending (start w) = pending w ++ [(nextHandle w, Animate)] /\
  isRunning (animationEngine (start w)) = true /\
  time (animationEngine (start w)) = 0 + tick (speed (animationEngine w)).
Proof.
  intro S. unfold start. rewrite S.
  destruct (prepare_frame w) as (PX & PP & PC & PN & PT & PR & PS & PF).
  set (w1 := updAnimation (setFrameCount 0) (updAnimation (setTime 0)
               (updAnimation (setRunning true) (prepare w)))).
  unfold animate.
  assert (R1 : isRunning (animationEngine w1) = true) by reflexivity.
  rewrite R1. cbn [negb].
  destruct (render_frame w1) as (_ & RX & _ & RP & RC & RN & RT).
  destruct (render_engine w1) as (ER & ET & ES & _ & _ & EF).
  pose proof (render_frameCount w1) as EC.
  set (w2 := render w1) in *.
  assert (F2 : onFrameCapture (animationEngine w2) = onFrameCapture (animationEngine w)).
  { rewrite EF. unfold w1. cbn. exact PF. }
  unfold requestAnimationFrame. cbn. rewrite F2.
  destruct (onFrameCapture (animationEngine w)); cbn;
    rewrite ?RX, ?RP, ?RN, ?RT, ?ER, ?ET, ?ES, ?EC; unfold w1; cbn;
    rewrite ?PX, ?PP, ?PN, ?PT, ?PS, ?app_nil_r; repeat split.
Qed.

Lemma cancel_frame (w : World) :
  isExporting (gifExporter (cancel w)) = false /\
  animationEngine (cancel w) = animationEngine w /\
  pending (cancel w) = pending w.
Proof.
  unfold cancel. cbn. destruct (gif (gifExporter w)); repeat split.
Qed.

Lemma animationFrames_last (n : nat) (w : World) :
  animationFrames (S n) w = animationFrame (animationFrames n w).
Proof.
  revert w. induction n as [| n IH]; intro w; [reflexivity |].
  change (animationFrames (S (S n)) w) with (animationFrames (S n) (animationFrame w)).
  rewrite IH. reflexivity.
Qed.

(** The frame after the last capture: the boundary progress report, the
    encoder's [render], and the running state put back. *)
Lemma export_finishes (wasRunning : bool) (c total : Z) (op : bool) (t0 : list Event)
  (sp k : Z) (w : World) :
  (total <= k / c)%Z ->
  Exporting c total op t0 sp k w -> loopPending wasRunning c k w ->
  let w' := animationFrame w in
  (exists post,
     trace w' = trace w ++ (if op then [OnProgress 50 Encoding] else [])
                        ++ [GifRender] ++ post /\
     filter isGifAddFrame post = [] /\ progressValues post = []) /\
  filter isCaptureLoop (pending w') = [] /\
  isRunning (animationEngine w') = wasRunning.
Proof.
  intros F X (strays & id & P & A). cbn zeta.
  destruct X as [St G E Cp T Pr S Tm Tr].
  rewrite (animationFrame_capture wasRunning c k strays id w P A St).
  rewrite captureLoop_finished; [| exact E | cbn; rewrite Cp, T; exact F].
  cbn zeta.
  set (w1 := emit GifRender _).
  assert (T1 : trace w1 = trace w ++ (if op then [OnProgress 50 Encoding] else [])
                                  ++ [GifRender]).
  { unfold w1. cbn. rewrite Pr. destruct op; cbn; rewrite <- ?app_assoc; reflexivity. }
  assert (P1 : pending w1 = []).
  { unfold w1. cbn. destruct (onProgress (gifExporter w)); reflexivity. }
  assert (R1 : isRunning (animationEngine w1) = false).
  { unfold w1. cbn. destruct (onProgress (gifExporter w)); exact St. }
  destruct wasRunning.
  - destruct (start_frame w1 R1) as (_ & ST & SP & SR & _).
    rewrite ST, SP, SR, T1, P1. split; [| split; reflexivity].
    exists (if onFrameCapture (animationEngine w1) then [OnFrameCapture 1] else []).
    rewrite <- !app_assoc.
    split; [reflexivity |].
    destruct (onFrameCapture (animationEngine w1)); split; reflexivity.
  - rewrite T1, P1, R1. split; [| split; reflexivity].
    exists []. rewrite app_nil_r. repeat split.
Qed.


(** C2.  An export of 30 frames with capture interval 2, started with the
    encoder library loaded and a progress callback installed while no other
    export is under way, and left to run: during each of the 60 frames that
    follow the loop is still registered and has captured one frame per two
    ticks; when it halts the encoder has received exactly 30 add-frame
    calls; the progress reports are the thirty capture reports, the last of
    them 50, and then 50 again as encoding begins, the encoder's [render]
    following at once. *)
Theorem export_thirty_frames (options : ExportOptions) (w : World) :
  frames options = Some 30%Z ->
  captureInterval options = Some 2%Z ->
  gifLoaded w = true ->
  onProgress (gifExporter w) = true ->
  Forall isAnimate (pending w) ->
  let exported := animationFrames 60 (startExport options w) in
  (forall j, (j < 60)%nat ->
     let wj := animationFrames j (startExport options w) in
     framesCaptured (gifExporter wj) = ((Z.of_nat j + 1) / 2)%Z /\
     filter isCaptureLoop (pending wj) <> []) /\
  filter isCaptureLoop (pending exported) = [] /\
  exists events,
    trace exported = trace w ++ events /\
    List.length (filter isGifAddFrame events) = 30%nat /\
    progressValues events
      = [1; 3; 5; 6; 8; 10; 11; 13; 15; 16; 18; 20; 21; 23; 25; 26; 28; 30; 31; 33;
         35; 36; 38; 40; 41; 43; 45; 46; 48; 50; 50]%Z /\
    exists before frame d after,
      events = before ++ [GifAddFrame frame d; OnProgress 50 (Capturing 30 30);
                          OnProgress 50 Encoding; GifRender] ++ after /\
      filter isGifAddFrame after = [] /\ progressValues after = [].
Proof.
  intros Fr Ci L Op A. cbn zeta.
  destruct (startExport_begins options w L A) as [X1 L1];
    [rewrite Ci; reflexivity | rewrite Fr; reflexivity |].
  rewrite Fr, Ci, Op in X1. rewrite Ci in L1. cbn [orElse orDefault Z.eqb] in X1, L1.
  set (wr := isRunning (animationEngine w)) in *.
  set (sp := speed (animationEngine w)) in *.
  assert (Tick : forall j, (j < 60)%nat ->
            Exporting 2 30 true (trace w) sp (1 + Z.of_nat j)
              (animationFrames j (startExport options w)) /\
            loopPending wr 2 (1 + Z.of_nat j) (animationFrames j (startExport options w))).
  { intros j J. apply frames_tick; try assumption; try lia.
    apply Z.div_lt_upper_bound; lia. }
  split; [| split].
  - intros j J. destruct (Tick j J) as [X (strays & id & P & _)].
    split.
    + rewrite (exp_captured _ _ _ _ _ _ _ X). f_equal. lia.
    + rewrite P, filter_app. cbn. intro E. apply app_eq_nil in E.
      destruct E as [_ E]. discriminate.
  - destruct (Tick 59%nat ltac:(lia)) as [X P].
    rewrite (animationFrames_last 59).
    apply (export_finishes wr 2 30 true (trace w) sp (1 + Z.of_nat 59));
      [vm_compute; discriminate | exact X | exact P].
  - destruct (Tick 59%nat ltac:(lia)) as [X P].
    rewrite (animationFrames_last 59).
    destruct (export_finishes wr 2 30 true (trace w) sp (1 + Z.of_nat 59) _
                ltac:(vm_compute; discriminate) X P)
      as ((post & T & PF & PP) & _ & _).
    destruct (exp_trace _ _ _ _ _ _ _ X) as (events & Tr & [LF LP LL]).
    destruct (LL eq_refl eq_refl eq_refl) as (before & frame & d & Ev).
    change (captureProgress ((1 + Z.of_nat 59) / 2) 30) with 50%Z in Ev.
    change ((1 + Z.of_nat 59) / 2)%Z with 30%Z in Ev, LF, LP.
    exists (events ++ [OnProgress 50 Encoding; GifRender] ++ post).
    split; [rewrite T, Tr, <- !app_assoc; reflexivity |].
    split; [| split].
    + rewrite !filter_app, !List.length_app, LF, PF. reflexivity.
    + unfold progressValues in *. rewrite !flat_map_app, LP, PP. reflexivity.
    + exists before, frame, d, post. rewrite Ev, <- !app_assoc.
      split; [reflexivity | split; assumption].
Qed.


End CaptureFacts.

Lemma export_thirty_frames_witness :
  let exported :=
    animationFrames (canvas2d := nearestCanvas) (math := seriesMath) 60
      (startExport (canvas2d := nearestCanvas) (math := seriesMath) thirtyFrames redWorld) in
  filter isCaptureLoop (pending exported) = [] /\
  exists events,
    trace exported = trace redWorld ++ events /\
    List.length (filter isGifAddFrame events) = 30%nat.
Proof.
  destruct (export_thirty_frames (canvas2d := nearestCanvas) (math := seriesMath)
              thirtyFrames redWorld)
    as (_ & P & events & T & N & _).
  - reflexivity.
  - reflexivity.
  - vm_compute. reflexivity.
  - vm_compute. reflexivity.
  - vm_compute. constructor.
  - split; [exact P |]. exists events. split; [exact T | exact N].
Defined.



(** ** The colour conversions *)

Section ColourFacts.

Lemma rgbToHsl_unit (r g b : Z) :
  rgbToHsl r g b = unitToHsl (inject_Z r / 255) (inject_Z g / 255) (inject_Z b / 255).
Proof. reflexivity. Qed.

Lemma hslToRgb_unit (h s l : Q) :
  hslToRgb h s l
    = let '(r, g, b) := hslToUnit h s l in
      (Js.round (r * 255), Js.round (g * 255), Js.round (b * 255)).
Proof. unfold hslToRgb, hslToUnit. destruct (Js.eqb s 0); reflexivity. Qed.

Ltac branch :=
  match goal with
  | |- context [Js.ltb ?x ?y] =>
      let E := fresh "E" in
      destruct (Js.ltb x y) eqn:E;
      [apply JsFacts.ltb_spec in E | apply JsFacts.ltb_false in E]
  end.

(** The constant quotients of [hue2rgb] and [hslToRgb], as fractions. *)
Ltac fractions :=
  change (1 / 6) with (1 # 6) in *; change (1 / 2) with (1 # 2) in *;
  change (2 / 3) with (2 # 3) in *; change (1 / 3) with (1 # 3) in *.

(** Settles a comparison that the hypotheses decide. *)
Ltac settle x y :=
  first
    [ let H := fresh in
      assert (H : Js.ltb x y = true) by (apply JsFacts.ltb_spec; lra); rewrite H; clear H
    | let H := fresh in
      assert (H : Js.ltb x y = false) by (apply JsFacts.ltb_false; lra); rewrite H; clear H ].

(** The four pieces of the hue ramp, each on its closed interval. *)
Lemma hue2rgb_rise (p q t u : Q) :
  0 <= t <= 1 # 6 -> 6 * t == u -> hue2rgb p q t == p + (q - p) * u.
Proof.
  intros [L U] E. unfold hue2rgb, Js.gtb. fractions.
  settle t 0. settle 1 t.
  repeat branch; try (exfalso; lra).
  - rewrite <- E. ring.
  - assert (T : t == 1 # 6) by lra. rewrite <- E, T. ring.
Qed.

Lemma hue2rgb_top (p q t : Q) :
  1 # 6 <= t <= 1 # 2 -> hue2rgb p q t == q.
Proof.
  intros [L U]. unfold hue2rgb, Js.gtb. fractions.
  settle t 0. settle 1 t. settle t (1 # 6).
  repeat branch; try (exfalso; lra).
  - reflexivity.
  - assert (T : t == 1 # 2) by lra. rewrite T. ring.
Qed.

Lemma hue2rgb_fall (p q t u : Q) :
  1 # 2 <= t <= 2 # 3 -> 4 - 6 * t == u -> hue2rgb p q t == p + (q - p) * u.
Proof.
  intros [L U] E. unfold hue2rgb, Js.gtb. fractions.
  settle t 0. settle 1 t. settle t (1 # 6). settle t (1 # 2).
  repeat branch; try (exfalso; lra).
  - rewrite <- E. ring.
  - assert (T : t == 2 # 3) by lra. rewrite <- E, T. ring.
Qed.

Lemma hue2rgb_bottom (p q t : Q) :
  2 # 3 <= t <= 1 -> hue2rgb p q t == p.
Proof.
  intros [L U]. unfold hue2rgb, Js.gtb. fractions.
  settle t 0. settle 1 t. settle t (1 # 6). settle t (1 # 2). settle t (2 # 3).
  reflexivity.
Qed.

Lemma hue2rgb_below (p q t : Q) :
  -1 <= t < 0 -> hue2rgb p q t = hue2rgb p q (t + 1).
Proof.
  intros [L U]. unfold hue2rgb, Js.gtb.
  assert (A : Js.ltb t 0 = true) by (apply JsFacts.ltb_spec; lra).
  assert (B : Js.ltb (t + 1) 0 = false) by (apply JsFacts.ltb_false; lra).
  rewrite A, B. reflexivity.
Qed.

Lemma hue2rgb_above (p q t : Q) :
  1 < t <= 2 -> hue2rgb p q t = hue2rgb p q (t - 1).
Proof.
  intros [L U]. unfold hue2rgb, Js.gtb.
  assert (A : Js.ltb t 0 = false) by (apply JsFacts.ltb_false; lra).
  assert (B : Js.ltb 1 t = true) by (apply JsFacts.ltb_spec; lra).
  assert (C : Js.ltb (t - 1) 0 = false) by (apply JsFacts.ltb_false; lra).
  assert (D : Js.ltb 1 (t - 1) = false) by (apply JsFacts.ltb_false; lra).
  rewrite A, B, C, D. reflexivity.
Qed.

Lemma hue2rgb_comp (p p' q q' t t' : Q) :
  p == p' -> q == q' -> t == t' -> hue2rgb p q t == hue2rgb p' q' t'.
Proof.
  intros P E T. unfold hue2rgb, Js.gtb.
  rewrite (ltb_comp t t' 0 0 T (Qeq_refl 0)).
  destruct (Js.ltb t' 0).
  - rewrite (ltb_comp 1 1 (t + 1) (t' + 1)) by (rewrite ?T; reflexivity).
    destruct (Js.ltb 1 (t' + 1)).
    + rewrite (ltb_comp (t + 1 - 1) (t' + 1 - 1) (1 / 6) (1 / 6)) by (rewrite ?T; reflexivity).
      rewrite (ltb_comp (t + 1 - 1) (t' + 1 - 1) (1 / 2) (1 / 2)) by (rewrite ?T; reflexivity).
      rewrite (ltb_comp (t + 1 - 1) (t' + 1 - 1) (2 / 3) (2 / 3)) by (rewrite ?T; reflexivity).
      repeat branch; rewrite ?P, ?E, ?T; reflexivity.
    + rewrite (ltb_comp (t + 1) (t' + 1) (1 / 6) (1 / 6)) by (rewrite ?T; reflexivity).
      rewrite (ltb_comp (t + 1) (t' + 1) (1 / 2) (1 / 2)) by (rewrite ?T; reflexivity).
      rewrite (ltb_comp (t + 1) (t' + 1) (2 / 3) (2 / 3)) by (rewrite ?T; reflexivity).
      repeat branch; rewrite ?P, ?E, ?T; reflexivity.
  - rewrite (ltb_comp 1 1 t t') by (rewrite ?T; reflexivity).
    destruct (Js.ltb 1 t').
    + rewrite (ltb_comp (t - 1) (t' - 1) (1 / 6) (1 / 6)) by (rewrite ?T; reflexivity).
      rewrite (ltb_comp (t - 1) (t' - 1) (1 / 2) (1 / 2)) by (rewrite ?T; reflexivity).
      rewrite (ltb_comp (t - 1) (t' - 1) (2 / 3) (2 / 3)) by (rewrite ?T; reflexivity).
      repeat branch; rewrite ?P, ?E, ?T; reflexivity.
    + rewrite (ltb_comp t t' (1 / 6) (1 / 6)) by (rewrite ?T; reflexivity).
      rewrite (ltb_comp t t' (1 / 2) (1 / 2)) by (rewrite ?T; reflexivity).
      rewrite (ltb_comp t t' (2 / 3) (2 / 3)) by (rewrite ?T; reflexivity).
      repeat branch; rewrite ?P, ?E, ?T; reflexivity.
Qed.

Lemma ratio (x d : Q) :
  0 < d -> - d <= x <= d ->
  d * (x / d) == x /\ -1 <= x / d <= 1 /\ (0 <= x -> 0 <= x / d) /\ (x <= 0 -> x / d <= 0)
  /\ (x < 0 -> x / d < 0) /\ (0 < x -> 0 < x / d).
Proof.
  intros D [L U].
  split; [field; lra |].
  split; [split |].
  - apply Qle_shift_div_l; [exact D | lra].
  - apply Qle_shift_div_r; [exact D | lra].
  - split; [intro; apply Qle_shift_div_l; [exact D | lra] |].
    split; [intro; apply Qle_shift_div_r; [exact D | lra] |].
    split; [intro; apply Qlt_shift_div_r; [exact D | lra] |].
    intro; apply Qlt_shift_div_l; [exact D | lra].
Qed.

Lemma over_six (x k : Q) : (x + k) / 6 == (x + k) * (1 # 6).
Proof. field. Qed.

Section Hue.

Variables R G B mx mn : Q.
Hypothesis HR : mn <= R <= mx.
Hypothesis HG : mn <= G <= mx.
Hypothesis HB : mn <= B <= mx.
Hypothesis Hmx : mx == R \/ mx == G \/ mx == B.
Hypothesis Hmn : mn == R \/ mn == G \/ mn == B.
Hypothesis Hd : mn < mx.

Ltac at_hue e :=
  rewrite (hue2rgb_comp mn mn mx mx _ e);
    [| reflexivity | reflexivity | rewrite over_six; try reflexivity; ring].

Lemma hue_channels :
  let d := mx - mn in
  let h0 :=
    if Js.eqb mx R then ((G - B) / d + (if Js.ltb G B then 6 else 0)) / 6
    else if Js.eqb mx G then ((B - R) / d + 2) / 6
    else ((R - G) / d + 4) / 6 in
  hue2rgb mn mx (h0 + 1 / 3) == R /\
  hue2rgb mn mx h0 == G /\
  hue2rgb mn mx (h0 - 1 / 3) == B.
Proof.
  cbn zeta. fractions.
  assert (D : 0 < mx - mn) by lra.
  destruct (Js.eqb mx R) eqn:ER; [apply JsFacts.eqb_spec in ER |].
  - destruct (ratio (G - B) (mx - mn) D ltac:(lra)) as (Hu & Ub & Up & Un & Usn & Usp).
    set (u := (G - B) / (mx - mn)) in *. clearbody u.
    destruct (Js.ltb G B) eqn:LT;
      [apply JsFacts.ltb_spec in LT | apply JsFacts.ltb_false in LT].
    + assert (N : u < 0) by (apply Usn; lra).
      assert (MN : mn == G) by lra.
      repeat split.
      * at_hue ((u + 6) * (1 # 6) + (1 # 3)).
        rewrite hue2rgb_above by lra.
        rewrite hue2rgb_top by lra. lra.
      * at_hue ((u + 6) * (1 # 6)).
        rewrite hue2rgb_bottom by lra. lra.
      * at_hue ((u + 6) * (1 # 6) - (1 # 3)).
        rewrite (hue2rgb_fall mn mx _ (- u)) by lra. nra.
    + assert (P : 0 <= u) by (apply Up; lra).
      assert (MN : mn == B) by lra.
      repeat split.
      * at_hue ((u + 0) * (1 # 6) + (1 # 3)).
        rewrite hue2rgb_top by lra. lra.
      * at_hue ((u + 0) * (1 # 6)).
        rewrite (hue2rgb_rise mn mx _ u) by lra. nra.
      * at_hue ((u + 0) * (1 # 6) - (1 # 3)).
        rewrite hue2rgb_below by lra.
        rewrite hue2rgb_bottom by lra. lra.
  - assert (NR : ~ mx == R).
    { intro X. apply JsFacts.eqb_spec in X. congruence. }
    destruct (Js.eqb mx G) eqn:EG; [apply JsFacts.eqb_spec in EG |].
    + destruct (ratio (B - R) (mx - mn) D ltac:(lra)) as (Hu & Ub & Up & Un & Usn & Usp).
      set (u := (B - R) / (mx - mn)) in *. clearbody u.
      destruct (Qlt_le_dec u 0) as [N | P].
      * assert (BR : B < R).
        { destruct (Qlt_le_dec B R) as [X | X]; [exact X |].
          assert (0 <= u) by (apply Up; lra). lra. }
        assert (MN : mn == B) by lra.
        repeat split.
        -- at_hue ((u + 2) * (1 # 6) + (1 # 3)).
           rewrite (hue2rgb_fall mn mx _ (- u)) by lra. nra.
        -- at_hue ((u + 2) * (1 # 6)).
           rewrite hue2rgb_top by lra. lra.
        -- at_hue ((u + 2) * (1 # 6) - (1 # 3)).
           rewrite hue2rgb_below by lra.
           rewrite hue2rgb_bottom by lra. lra.
      * assert (RB : R <= B).
        { destruct (Qlt_le_dec B R) as [X | X]; [| exact X].
          assert (u < 0) by (apply Usn; lra). lra. }
        assert (MN : mn == R) by lra.
        repeat split.
        -- at_hue ((u + 2) * (1 # 6) + (1 # 3)).
           rewrite hue2rgb_bottom by lra. lra.
        -- at_hue ((u + 2) * (1 # 6)).
           rewrite hue2rgb_top by lra. lra.
        -- at_hue ((u + 2) * (1 # 6) - (1 # 3)).
           rewrite (hue2rgb_rise mn mx _ u) by lra. nra.
    + assert (NG : ~ mx == G).
      { intro X. apply JsFacts.eqb_spec in X. congruence. }
      assert (EB : mx == B) by (destruct Hmx as [X | [X | X]]; [contradiction | contradiction | exact X]).
      destruct (ratio (R - G) (mx - mn) D ltac:(lra)) as (Hu & Ub & Up & Un & Usn & Usp).
      set (u := (R - G) / (mx - mn)) in *. clearbody u.
      destruct (Qlt_le_dec 0 u) as [P | N].
      * assert (GR : G < R).
        { destruct (Qlt_le_dec G R) as [X | X]; [exact X |].
          assert (u <= 0) by (apply Un; lra). lra. }
        assert (MN : mn == G) by lra.
        repeat split.
        -- at_hue ((u + 4) * (1 # 6) + (1 # 3)).
           rewrite hue2rgb_above by lra.
           rewrite (hue2rgb_rise mn mx _ u) by lra. nra.
        -- at_hue ((u + 4) * (1 # 6)).
           rewrite hue2rgb_bottom by lra. lra.
        -- at_hue ((u + 4) * (1 # 6) - (1 # 3)).
           rewrite hue2rgb_top by lra. lra.
      * assert (RG : R <= G).
        { destruct (Qlt_le_dec G R) as [X | X]; [| exact X].
          assert (0 < u) by (apply Usp; lra). lra. }
        assert (MN : mn == R) by lra.
        repeat split.
        -- at_hue ((u + 4) * (1 # 6) + (1 # 3)).
           rewrite hue2rgb_bottom by lra. lra.
        -- at_hue ((u + 4) * (1 # 6)).
           rewrite (hue2rgb_fall mn mx _ (- u)) by lra. nra.
        -- at_hue ((u + 4) * (1 # 6) - (1 # 3)).
           rewrite hue2rgb_top by lra. lra.
Qed.
End Hue.

Lemma hslToUnit_colour (mx mn h0 : Q) :
  0 <= mn -> mn < mx -> mx <= 1 ->
  let l := (mx + mn) / 2 in
  let s := if Js.gtb l 0.5 then (mx - mn) / (2 - mx - mn) else (mx - mn) / (mx + mn) in
  fst (fst (hslToUnit (h0 * 360) s l)) == hue2rgb mn mx (h0 + 1 / 3) /\
  snd (fst (hslToUnit (h0 * 360) s l)) == hue2rgb mn mx h0 /\
  snd (hslToUnit (h0 * 360) s l) == hue2rgb mn mx (h0 - 1 / 3).
Proof.
  intros N D U. cbn zeta.
  assert (L : (mx + mn) / 2 == (mx + mn) * (1 # 2)) by field.
  assert (H0 : h0 * 360 / 360 == h0) by field.
  set (l := (mx + mn) / 2) in *.
  assert (PQ : forall s, 0 < s ->
            (if Js.ltb l 0.5 then l * (1 + s) else l + s - l * s) == mx ->
            fst (fst (hslToUnit (h0 * 360) s l)) == hue2rgb mn mx (h0 + 1 / 3) /\
            snd (fst (hslToUnit (h0 * 360) s l)) == hue2rgb mn mx h0 /\
            snd (hslToUnit (h0 * 360) s l) == hue2rgb mn mx (h0 - 1 / 3)).
  { intros s S E. unfold hslToUnit.
    destruct (Js.eqb s 0) eqn:Z; [apply JsFacts.eqb_spec in Z; lra |].
    cbn [fst snd].
    assert (P : 2 * l - (if Js.ltb l 0.5 then l * (1 + s) else l + s - l * s) == mn)
      by (rewrite E, L; ring).
    repeat split; apply hue2rgb_comp; rewrite ?H0; try assumption; reflexivity. }
  unfold Js.gtb.
  destruct (Js.ltb 0.5 l) eqn:G;
    [apply JsFacts.ltb_spec in G | apply JsFacts.ltb_false in G].
  - apply PQ.
    + apply Qlt_shift_div_l; lra.
    + assert (F : Js.ltb l 0.5 = false) by (apply JsFacts.ltb_false; lra).
      rewrite F. unfold l. field. lra.
  - apply PQ.
    + apply Qlt_shift_div_l; lra.
    + destruct (Js.ltb l 0.5) eqn:F;
        [apply JsFacts.ltb_spec in F | apply JsFacts.ltb_false in F].
      * unfold l. field. lra.
      * assert (S1 : mx + mn == 1) by lra.
        assert (S2 : (mx - mn) / (mx + mn) == mx - mn) by (rewrite S1; field).
        rewrite S2, L, S1. lra.
Qed.

Lemma unit_round_trip (R G B : Q) :
  0 <= R <= 1 -> 0 <= G <= 1 -> 0 <= B <= 1 ->
  let hsl := unitToHsl R G B in
  fst (fst (hslToUnit (h hsl) (s hsl) (l hsl))) == R /\
  snd (fst (hslToUnit (h hsl) (s hsl) (l hsl))) == G /\
  snd (hslToUnit (h hsl) (s hsl) (l hsl)) == B.
Proof.
  intros HR HG HB. cbn zeta. unfold unitToHsl.
  assert (MR : R <= Qmax (Qmax R G) B)
    by (eapply Qle_trans; [apply Q.le_max_l | apply Q.le_max_l]).
  assert (MG : G <= Qmax (Qmax R G) B)
    by (eapply Qle_trans; [apply Q.le_max_r | apply Q.le_max_l]).
  assert (MB : B <= Qmax (Qmax R G) B) by apply Q.le_max_r.
  assert (NR : Qmin (Qmin R G) B <= R)
    by (eapply Qle_trans; [apply Q.le_min_l | apply Q.le_min_l]).
  assert (NG : Qmin (Qmin R G) B <= G)
    by (eapply Qle_trans; [apply Q.le_min_l | apply Q.le_min_r]).
  assert (NB : Qmin (Qmin R G) B <= B) by apply Q.le_min_r.
  assert (MX : Qmax (Qmax R G) B == R \/ Qmax (Qmax R G) B == G \/ Qmax (Qmax R G) B == B).
  { destruct (Q.max_spec (Qmax R G) B) as [[_ E] | [_ E]]; [tauto |].
    destruct (Q.max_spec R G) as [[_ E'] | [_ E']]; rewrite E, E';
      [right; left; reflexivity | left; reflexivity]. }
  assert (MN : Qmin (Qmin R G) B == R \/ Qmin (Qmin R G) B == G \/ Qmin (Qmin R G) B == B).
  { destruct (Q.min_spec (Qmin R G) B) as [[_ E] | [_ E]]; [| tauto].
    destruct (Q.min_spec R G) as [[_ E'] | [_ E']]; rewrite E, E';
      [left; reflexivity | right; left; reflexivity]. }
  set (mx := Qmax (Qmax R G) B) in *. set (mn := Qmin (Qmin R G) B) in *.
  clearbody mx mn.
  destruct (Js.eqb mx mn) eqn:E; [apply JsFacts.eqb_spec in E |].
  - cbn [h s l]. unfold hslToUnit. cbn [fst snd].
    change (Js.eqb 0 0) with true. cbn [fst snd].
    assert (L : (mx + mn) / 2 == (mx + mn) * (1 # 2)) by field.
    rewrite L. repeat split; lra.
  - assert (D : mn < mx).
    { destruct (Qlt_le_dec mn mx) as [X | X]; [exact X |].
      assert (Y : mx == mn) by lra. apply JsFacts.eqb_spec in Y. congruence. }
    cbn [h s l].
    destruct (hslToUnit_colour mx mn
                (if Js.eqb mx R
                 then ((G - B) / (mx - mn) + (if Js.ltb G B then 6 else 0)) / 6
                 else if Js.eqb mx G then ((B - R) / (mx - mn) + 2) / 6
                      else ((R - G) / (mx - mn) + 4) / 6))
      as (C1 & C2 & C3); [lra | exact D | lra |].
    cbn zeta in C1, C2, C3. rewrite C1, C2, C3.
    apply hue_channels; try assumption; split; assumption.
Qed.

Lemma unit_channel (v : Z) : (0 <= v <= 255)%Z -> 0 <= inject_Z v / 255 <= 1.
Proof.
  intros [L U]. rewrite Zle_Qle in L, U.
  change (inject_Z 0) with 0 in L. change (inject_Z 255) with 255 in U.
  split; [apply Qle_shift_div_l | apply Qle_shift_div_r]; lra.
Qed.

Lemma round_channel (x : Q) (v : Z) : x == inject_Z v / 255 -> Js.round (x * 255) = v.
Proof.
  intro E. transitivity (Js.round (inject_Z v)); [| apply JsFacts.round_inject].
  apply JsFacts.round_comp. rewrite E. field.
Qed.

(** Over exact rationals the round trip gives the colour back. *)
Lemma rgb_hsl_round_trip_exact (r g b : Z) :
  (0 <= r <= 255)%Z -> (0 <= g <= 255)%Z -> (0 <= b <= 255)%Z ->
  hslToRgb (h (rgbToHsl r g b)) (s (rgbToHsl r g b)) (l (rgbToHsl r g b)) = (r, g, b).
Proof.
  intros HR HG HB. rewrite rgbToHsl_unit, hslToRgb_unit.
  destruct (unit_round_trip _ _ _ (unit_channel r HR) (unit_channel g HG)
              (unit_channel b HB)) as (ER & EG & EB).
  cbn zeta in ER, EG, EB.
  destruct (hslToUnit _ _ _) as [[r' g'] b']. cbn [fst snd] in ER, EG, EB.
  rewrite (round_channel r' r ER), (round_channel g' g EG), (round_channel b' b EB).
  reflexivity.
Qed.

(** C7.  For channels in 0..255, [rgbToHsl] followed by [hslToRgb], with
    hue and saturation untouched, gives back each channel within 1 of the
    original. *)
Theorem rgb_hsl_round_trip (r g b : Z) :
  (0 <= r <= 255)%Z -> (0 <= g <= 255)%Z -> (0 <= b <= 255)%Z ->
  let hsl := rgbToHsl r g b in
  let '(r', g', b') := hslToRgb (h hsl) (s hsl) (l hsl) in
  (Z.abs (r' - r) <= 1)%Z /\ (Z.abs (g' - g) <= 1)%Z /\ (Z.abs (b' - b) <= 1)%Z.
Proof.
  intros HR HG HB. cbn zeta.
  rewrite (rgb_hsl_round_trip_exact r g b HR HG HB).
  repeat split; lia.
Qed.

End ColourFacts.

Lemma rgb_hsl_round_trip_witness :
  let hsl := rgbToHsl 200 100 50 in
  let '(r', g', b') := hslToRgb (h hsl) (s hsl) (l hsl) in
  (Z.abs (r' - 200) <= 1)%Z /\ (Z.abs (g' - 100) <= 1)%Z /\ (Z.abs (b' - 50) <= 1)%Z.
Proof.
  apply (rgb_hsl_round_trip 200 100 50); split; discriminate.
Defined.

(** ** Rainbow: what is drawn *)

Section RainbowDrawn.








End RainbowDrawn.



(** * Further properties of the code *)

(** ** PixelateEngine: sizes *)

Section GeometryFacts.

Context {canvas2d : Canvas2D}.

(** X1.  [setPixelSize] clamps: the stored size is always in 4..64, it is
    the requested size when that is in range, 4 below and 64 above; the
    image and the output size computed earlier are not touched, so the
    output size is stale until it is computed again. *)
Theorem setPixelSize_clamps (e : PixelateEngine) (size : Z) :
  (4 <= pixelSize (setPixelSize e size) <= 64)%Z /\
  ((4 <= size <= 64)%Z -> pixelSize (setPixelSize e size) = size) /\
  ((size < 4)%Z -> pixelSize (setPixelSize e size) = 4%Z) /\
  ((64 < size)%Z -> pixelSize (setPixelSize e size) = 64%Z) /\
  originalImage (setPixelSize e size) = originalImage e /\
  getOutputSize (setPixelSize e size) = getOutputSize e /\
  setPixelSize (setPixelSize e size) size = setPixelSize e size.
Proof.
  unfold setPixelSize, getOutputSize. cbn.
  repeat split; try lia.
Qed.

Lemma scaled_within (src : Z) (scale bound : Q) :
  (0 < src)%Z -> 0 < scale -> scale <= 1 -> scale <= bound / inject_Z src ->
  (0 <= Js.floor (inject_Z src * scale) <= src)%Z /\
  inject_Z (Js.floor (inject_Z src * scale)) <= bound.
Proof.
  intros S P U B. pose proof (JsFacts.inject_Z_pos _ S) as QS.
  unfold Js.floor.
  pose proof (Qfloor_le (inject_Z src * scale)) as F.
  assert (E : inject_Z src * (bound / inject_Z src) == bound) by (field; lra).
  split; [split |].
  - rewrite <- (Qfloor_Z 0). apply Qfloor_resp_le. change (inject_Z 0) with 0. nra.
  - rewrite <- (Qfloor_Z src) at 2. apply Qfloor_resp_le. nra.
  - eapply Qle_trans; [exact F |]. rewrite <- E. nra.
Qed.

Lemma fitScale_below_width (img : Raster) (maxW maxH : Q) :
  fitScale img maxW maxH <= maxW / inject_Z (width img).
Proof. unfold fitScale. eapply Qle_trans; [apply Q.le_min_l | apply Q.le_min_l]. Qed.

Lemma fitScale_below_height (img : Raster) (maxW maxH : Q) :
  fitScale img maxW maxH <= maxH / inject_Z (height img).
Proof. unfold fitScale. eapply Qle_trans; [apply Q.le_min_l | apply Q.le_min_r]. Qed.

(** X2.  With an image of positive size, a positive block size and a
    positive bounding box, the output size of [getPixelatedData] is a
    multiple of the block size that overshoots the source size and the
    bounding box by less than one block. *)
Theorem output_fits_bounding_box (e : PixelateEngine) (img : Raster) (maxW maxH : Q) :
  originalImage e = Some img ->
  (0 < width img)%Z -> (0 < height img)%Z -> (0 < pixelSize e)%Z ->
  0 < maxW -> 0 < maxH ->
  let e' := snd (getPixelatedData e maxW maxH) in
  (0 <= outputWidth e' < width img + pixelSize e)%Z /\
  (0 <= outputHeight e' < height img + pixelSize e)%Z /\
  inject_Z (outputWidth e') < maxW + inject_Z (pixelSize e) /\
  inject_Z (outputHeight e') < maxH + inject_Z (pixelSize e) /\
  (outputWidth e' mod pixelSize e = 0)%Z /\
  (outputHeight e' mod pixelSize e = 0)%Z.
Proof.
  intros I W H P MW MH.
  destruct (getPixelatedData_snaps_up e img maxW maxH I P) as ((LW & UW) & (LH & UH) & _).
  destruct (fitScale_range img maxW maxH W H MW MH) as [S0 S1].
  destruct (scaled_within (width img) (fitScale img maxW maxH) maxW W S0 S1
              (fitScale_below_width img maxW maxH)) as ((W0 & W1) & W2).
  destruct (scaled_within (height img) (fitScale img maxW maxH) maxH H S0 S1
              (fitScale_below_height img maxW maxH)) as ((H0 & H1) & H2).
  cbn zeta in *.
  assert (DW : (outputWidth (snd (getPixelatedData e maxW maxH)) mod pixelSize e = 0)%Z /\
               (outputHeight (snd (getPixelatedData e maxW maxH)) mod pixelSize e = 0)%Z).
  { unfold getPixelatedData. rewrite I. cbn. split; apply Z.mod_mul; lia. }
  set (ow := outputWidth _) in *. set (oh := outputHeight _) in *.
  clearbody ow oh.
  repeat split; try lia; try apply DW.
  - apply Qlt_le_trans with (inject_Z (Js.floor (inject_Z (width img) * fitScale img maxW maxH)
                                       + pixelSize e)).
    + rewrite <- Zlt_Qlt. exact UW.
    + rewrite inject_Z_plus. lra.
  - apply Qlt_le_trans with (inject_Z (Js.floor (inject_Z (height img) * fitScale img maxW maxH)
                                       + pixelSize e)).
    + rewrite <- Zlt_Qlt. exact UH.
    + rewrite inject_Z_plus. lra.
Qed.

(** X3.  An image no larger than the bounding box is not scaled: the output
    is the source size rounded up to the next multiple of the block size. *)
Theorem small_image_keeps_resolution (e : PixelateEngine) (img : Raster) (maxW maxH : Q) :
  originalImage e = Some img ->
  (0 < width img)%Z -> (0 < height img)%Z -> (0 < pixelSize e)%Z ->
  inject_Z (width img) <= maxW -> inject_Z (height img) <= maxH ->
  let e' := snd (getPixelatedData e maxW maxH) in
  (width img <= outputWidth e' < width img + pixelSize e)%Z /\
  (height img <= outputHeight e' < height img + pixelSize e)%Z.
Proof.
  intros I W H P MW MH.
  destruct (getPixelatedData_snaps_up e img maxW maxH I P) as (BW & BH & _).
  pose proof (JsFacts.inject_Z_pos _ W) as QW.
  pose proof (JsFacts.inject_Z_pos _ H) as QH.
  assert (S : fitScale img maxW maxH == 1).
  { unfold fitScale. apply Q.min_r. apply Q.min_glb; apply Qle_shift_div_l; lra. }
  assert (FW : Js.floor (inject_Z (width img) * fitScale img maxW maxH) = width img).
  { unfold Js.floor. rewrite <- (Qfloor_Z (width img)) at 2.
    apply Qfloor_comp. rewrite S. ring. }
  assert (FH : Js.floor (inject_Z (height img) * fitScale img maxW maxH) = height img).
  { unfold Js.floor. rewrite <- (Qfloor_Z (height img)) at 2.
    apply Qfloor_comp. rewrite S. ring. }
  cbn zeta in *. rewrite FW in BW. rewrite FH in BH. split; assumption.
Qed.

(** The grid of the engine that [getPixelatedData] leaves. *)
Lemma pixelated_grid (e : PixelateEngine) (img : Raster) (maxW maxH : Q) :
  originalImage e = Some img ->
  (0 < width img)%Z -> (0 < height img)%Z -> (0 < pixelSize e)%Z ->
  0 < maxW -> 0 < maxH ->
  let e' := snd (getPixelatedData e maxW maxH) in
  pixelSize e' = pixelSize e /\
  originalImage e' = Some img /\
  (0 <= fst (getGridSize e'))%Z /\ (0 <= snd (getGridSize e'))%Z /\
  outputWidth e' = (fst (getGridSize e') * pixelSize e)%Z /\
  outputHeight e' = (snd (getGridSize e') * pixelSize e)%Z /\
  exists grid, getPixelGrid e' = Some grid /\ rectangular grid (getGridSize e').
Proof.
  intros I W H P MW MH. cbn zeta.
  destruct (getPixelatedData_snaps_up e img maxW maxH I P) as ((LW & _) & (LH & _) & G).
  destruct (fitScale_range img maxW maxH W H MW MH) as [S0 S1].
  destruct (scaled_within (width img) (fitScale img maxW maxH) maxW W S0 S1
              (fitScale_below_width img maxW maxH)) as ((W0 & _) & _).
  destruct (scaled_within (height img) (fitScale img maxW maxH) maxH H S0 S1
              (fitScale_below_height img maxW maxH)) as ((H0 & _) & _).
  cbn zeta in *.
  set (e' := snd (getPixelatedData e maxW maxH)) in *.
  assert (I' : originalImage e' = Some img).
  { unfold e', getPixelatedData. rewrite I. reflexivity. }
  assert (P' : pixelSize e' = pixelSize e).
  { unfold e', getPixelatedData. rewrite I. reflexivity. }
  assert (OW : outputWidth e' = (fst (getGridSize e') * pixelSize e)%Z).
  { rewrite G. unfold e', getPixelatedData. rewrite I. reflexivity. }
  assert (OH : outputHeight e' = (snd (getGridSize e') * pixelSize e)%Z).
  { rewrite G. unfold e', getPixelatedData. rewrite I. reflexivity. }
  assert (GW : (0 <= fst (getGridSize e'))%Z) by nia.
  assert (GH : (0 <= snd (getGridSize e'))%Z) by nia.
  repeat split; try assumption.
  destruct (getPixelGrid e') as [grid |] eqn:E.
  - exists grid. split; [reflexivity |].
    apply (getPixelGrid_rectangular e' grid E GW GH).
  - unfold getPixelGrid in E. rewrite I' in E.
    destruct (getGridSize e'). discriminate.
Qed.

(** The output of a drawable image has no empty side. *)
Lemma drawable_sides (e : PixelateEngine) (img : Raster) (maxW maxH : Q) :
  originalImage e = Some img -> (0 < pixelSize e)%Z -> drawableIn img maxW maxH ->
  let e' := snd (getPixelatedData e maxW maxH) in
  (2 <= outputWidth e')%Z /\ (2 <= outputHeight e')%Z.
Proof.
  intros I P (_ & _ & _ & _ & SW & SH). cbn zeta.
  destruct (getPixelatedData_snaps_up e img maxW maxH I P) as ((LW & _) & (LH & _) & _).
  cbn zeta in LW, LH.
  assert (FW : (2 <= Js.floor (inject_Z (width img) * fitScale img maxW maxH))%Z).
  { change 2%Z with (Qfloor 2). apply Qfloor_resp_le, SW. }
  assert (FH : (2 <= Js.floor (inject_Z (height img) * fitScale img maxW maxH))%Z).
  { change 2%Z with (Qfloor 2). apply Qfloor_resp_le, SH. }
  split; lia.
Qed.

(** X4.  After [getPixelatedData] on an image that can be drawn in the box
    the output has no empty side, and the grid that [getPixelGrid] builds
    has exactly [outputHeight / pixelSize] rows of [outputWidth / pixelSize]
    cells: the cells tile the output with no partial cell. *)
Theorem grid_tiles_output (e : PixelateEngine) (img : Raster) (maxW maxH : Q) :
  originalImage e = Some img ->
  (0 < pixelSize e)%Z ->
  drawableIn img maxW maxH ->
  let e' := snd (getPixelatedData e maxW maxH) in
  (0 < outputWidth e')%Z /\ (0 < outputHeight e')%Z /\
  exists grid,
    getPixelGrid e' = Some grid /\
    (Z.of_nat (List.length grid) * pixelSize e' = outputHeight e')%Z /\
    Forall (fun row => (Z.of_nat (List.length row) * pixelSize e' = outputWidth e')%Z) grid.
Proof.
  intros I P D. cbn zeta.
  destruct (drawable_sides e img maxW maxH I P D) as [SW SH]. cbn zeta in SW, SH.
  destruct D as (W & H & MW & MH & _).
  destruct (pixelated_grid e img maxW maxH I W H P MW MH)
    as (P' & _ & _ & _ & OW & OH & grid & E & RH & RW).
  split; [lia |]. split; [lia |].
  exists grid. split; [exact E |]. rewrite P', OW, OH, RH. split; [reflexivity |].
  eapply Forall_impl; [| exact RW]. cbn. intros row R. rewrite R. reflexivity.
Qed.


(** X6.  After [dispose] the engine is back in the no-image state, with the
    block size, the output size and the grid size it had: whatever image
    was loaded, [getPixelatedData], [renderToCanvas] and [getPixelGrid]
    return at their guard and leave the engine and the target canvas as
    they are; a second [dispose] changes nothing. *)
Theorem dispose_returns_to_no_image (e : PixelateEngine) (target : Raster) (maxW maxH : Q) :
  let d := dispose e in
  originalImage d = None /\
  originalImageData d = None /\
  getPixelatedData d maxW maxH = (None, d) /\
  renderToCanvas d target maxW maxH = (d, target) /\
  getPixelGrid d = None /\
  pixelSize d = pixelSize e /\
  getOutputSize d = getOutputSize e /\
  getGridSize d = getGridSize e /\
  dispose d = d.
Proof.
  cbn zeta. unfold dispose, renderToCanvas, getPixelatedData, getPixelGrid. cbn.
  repeat split.
Qed.

End GeometryFacts.

Lemma setPixelSize_clamps_witness :
  pixelSize (setPixelSize newPixelateEngine 16) = 16%Z.
Proof.
  apply (proj1 (proj2 (setPixelSize_clamps newPixelateEngine 16))).
  split; discriminate.
Defined.

Lemma output_fits_bounding_box_witness :
  let e' := snd (getPixelatedData (canvas2d := nearestCanvas) redEngine 50 400) in
  (0 <= outputWidth e' < 64 + 8)%Z /\
  (0 <= outputHeight e' < 64 + 8)%Z /\
  inject_Z (outputWidth e') < 50 + inject_Z 8 /\
  inject_Z (outputHeight e') < 400 + inject_Z 8 /\
  (outputWidth e' mod 8 = 0)%Z /\
  (outputHeight e' mod 8 = 0)%Z.
Proof.
  apply (output_fits_bounding_box (canvas2d := nearestCanvas) redEngine
           (solidImage 64 64 (mkPixel 255 0 0 255)) 50 400); reflexivity.
Defined.

Lemma small_image_keeps_resolution_witness :
  let e' := snd (getPixelatedData (canvas2d := nearestCanvas) redEngine 400 400) in
  (64 <= outputWidth e' < 64 + 8)%Z /\ (64 <= outputHeight e' < 64 + 8)%Z.
Proof.
  apply (small_image_keeps_resolution (canvas2d := nearestCanvas) redEngine
           (solidImage 64 64 (mkPixel 255 0 0 255)) 400 400);
    try reflexivity; discriminate.
Defined.

Lemma grid_tiles_output_witness :
  let e' := snd (getPixelatedData (canvas2d := nearestCanvas) redEngine 50 400) in
  exists grid,
    getPixelGrid (canvas2d := nearestCanvas) e' = Some grid /\
    (Z.of_nat (List.length grid) * pixelSize e' = outputHeight e')%Z /\
    Forall (fun row => (Z.of_nat (List.length row) * pixelSize e' = outputWidth e')%Z) grid.
Proof.
  destruct (grid_tiles_output (canvas2d := nearestCanvas) redEngine
              (solidImage 64 64 (mkPixel 255 0 0 255)) 50 400) as (_ & _ & G).
  - reflexivity.
  - reflexivity.
  - unfold drawableIn. repeat split; vm_compute; first [reflexivity | discriminate].
  - exact G.
Defined.


(** ** AnimationEngine: the live loop *)

Section PlaybackFacts.

Context {canvas2d : Canvas2D} {math : MathLib}.

(** X7.  [setIntensity] and [setSpeed] clamp to 1..10 and touch nothing
    else of the clock; so one tick moves the clock by at least 0.0032 and at
    most 0.032, whatever speed was asked for. *)
Theorem intensity_and_speed_clamped (e : AnimationEngine) (v : Z) :
  (1 <= intensity (setIntensity v e) <= 10)%Z /\
  (1 <= speed (setSpeed v e) <= 10)%Z /\
  ((1 <= v <= 10)%Z -> intensity (setIntensity v e) = v /\ speed (setSpeed v e) = v) /\
  0.0032 <= tick (speed (setSpeed v e)) <= 0.032 /\
  time (setSpeed v e) = time e /\ time (setIntensity v e) = time e /\
  isRunning (setSpeed v e) = isRunning e /\ isRunning (setIntensity v e) = isRunning e.
Proof.
  unfold setIntensity, setSpeed, tick. cbn.
  assert (B : (1 <= Z.max 1 (Z.min 10 v) <= 10)%Z) by lia.
  repeat split; try lia.
  - destruct B as [L _]. rewrite Zle_Qle in L. change (inject_Z 1) with 1 in L.
    setoid_replace (inject_Z (Z.max 1 (Z.min 10 v)) / 5)
      with (inject_Z (Z.max 1 (Z.min 10 v)) * (1 # 5)) by field.
    lra.
  - destruct B as [_ U]. rewrite Zle_Qle in U. change (inject_Z 10) with 10 in U.
    setoid_replace (inject_Z (Z.max 1 (Z.min 10 v)) / 5)
      with (inject_Z (Z.max 1 (Z.min 10 v)) * (1 # 5)) by field.
    lra.
Qed.

Lemma render_animation (w : World) :
  animationEngine (render w)
    = match renderFills (pixelateEngine w) (animationEngine w) (rng w) with
      | Some (fills, _) => setSurface fills (animationEngine w)
      | None => animationEngine w
      end.
Proof.
  unfold render. destruct (renderFills _ _ _) as [[fills rng'] |]; reflexivity.
Qed.

(** What one [animate] call does to a running animation. *)
Lemma animate_running (w : World) :
  isRunning (animationEngine w) = true ->
  animationEngine (animate w)
    = setAnimationId (Some (nextHandle w))
        (setFrameCount (frameCount (animationEngine w) + 1)
           (setTime (time (animationEngine w) + tick (speed (animationEngine w)))
              (animationEngine (render w)))) /\
  pending (animate w) = pending w ++ [(nextHandle w, Animate)] /\
  current (animate w) = current w /\
  nextHandle (animate w) = (nextHandle w + 1)%Z /\
  pixelateEngine (animate w) = pixelateEngine w /\
  gifExporter (animate w) = gifExporter w /\
  gifLoaded (animate w) = gifLoaded w /\
  trace (animate w)
    = trace w ++ (if onFrameCapture (animationEngine w)
                  then [OnFrameCapture (frameCount (animationEngine w) + 1)] else []).
Proof.
  intro R. unfold animate. rewrite R. cbn [negb].
  destruct (render_frame w) as (RPx & RX & RL & RP & RC & RN & RT).
  destruct (render_engine w) as (ER & ET & ES & _ & _ & EF).
  pose proof (render_frameCount w) as EC.
  set (w1 := render w) in *.
  unfold requestAnimationFrame. cbn. rewrite EF.
  destruct (onFrameCapture (animationEngine w)); cbn;
    rewrite ?RPx, ?RX, ?RL, ?RP, ?RC, ?RN, ?RT, ?ET, ?ES, ?EC, ?app_nil_r; repeat split.
Qed.

(** X8.  While the animation is stopped and no export is under way, the
    host's frames change nothing but the callback queue: callbacks left over
    from the stopped loop return at once and are gone after one frame; the
    clock, the frame count, the canvas and the trace stay as they are. *)
Theorem frozen_while_stopped (w : World) (n : nat) :
  isRunning (animationEngine w) = false ->
  Forall isAnimate (pending w) ->
  animationFrames (S n) w = idle w /\
  animationEngine (animationFrames n w) = animationEngine w /\
  trace (animationFrames n w) = trace w.
Proof.
  intros St A.
  assert (One : forall v, isRunning (animationEngine v) = false ->
                  Forall isAnimate (pending v) -> animationFrame v = idle v).
  { intros v SV AV. unfold animationFrame.
    rewrite <- (Nat.add_0_r (List.length (pending v))).
    rewrite (runCallbacks_strays (pending v) []);
      [reflexivity | exact AV | exact SV | cbn; rewrite app_nil_r; reflexivity]. }
  assert (Many : forall k, animationFrames (S k) w = idle w).
  { induction k as [| k IH].
    - cbn. apply One; assumption.
    - rewrite animationFrames_last, IH. apply (One (idle w)); [exact St | constructor]. }
  split; [apply Many |].
  destruct n as [| n]; [split; reflexivity |].
  rewrite Many. split; reflexivity.
Qed.

Lemma playing_frame (t0 : Q) (f0 sp n : Z) (w : World) :
  Playing t0 f0 sp n w -> Playing t0 f0 sp (n + 1) (animationFrame w).
Proof.
  intros [R S T C P I].
  assert (E : animationFrame w = animate (idle w)).
  { unfold animationFrame. rewrite P. reflexivity. }
  rewrite E.
  destruct (animate_running (idle w) R) as (AE & AP & _ & AN & _).
  pose proof (render_engine (idle w)) as (ER & ET & ES & _).
  pose proof (render_frameCount (idle w)) as EC.
  constructor; rewrite ?AE, ?AP, ?AN; cbn; rewrite ?ER, ?ES, ?ET, ?EC; cbn.
  - exact R.
  - exact S.
  - rewrite T, S, inject_Z_plus. change (inject_Z 1) with 1. ring.
  - rewrite C. lia.
  - replace (Z.pred (nextHandle w + 1)) with (nextHandle w) by lia. reflexivity.
  - replace (Z.pred (nextHandle w + 1)) with (nextHandle w) by lia. reflexivity.
Qed.

Lemma playing_frames (t0 : Q) (f0 sp : Z) (n : nat) (k : Z) (w : World) :
  Playing t0 f0 sp k w -> Playing t0 f0 sp (k + Z.of_nat n) (animationFrames n w).
Proof.
  revert k w. induction n as [| n IH]; intros k w P.
  - cbn. rewrite Z.add_0_r. exact P.
  - cbn [animationFrames].
    replace (k + Z.of_nat (S n))%Z with (k + 1 + Z.of_nat n)%Z by lia.
    apply IH, playing_frame, P.
Qed.

(** X9.  While the animation runs with its one callback registered, every
    frame of the host calls [animate] once: it advances the frame count by
    one and registers exactly one callback for the next frame.  After [n]
    frames the animation still runs at the same speed, the frame count is
    [n] higher, there is still exactly one loop, and under a speed that is
    not negative the clock has not gone back. *)
Theorem playback_counts_every_frame (w : World) (id : Z) (n : nat) :
  isRunning (animationEngine w) = true ->
  pending w = [(id, Animate)] ->
  let w' := animationFrames n w in
  isRunning (animationEngine w') = true /\
  frameCount (animationEngine w') = (frameCount (animationEngine w) + Z.of_nat n)%Z /\
  speed (animationEngine w') = speed (animationEngine w) /\
  (exists id', pending w' = [(id', Animate)]) /\
  ((0 <= speed (animationEngine w))%Z ->
   time (animationEngine w) <= time (animationEngine w')).
Proof.
  intros R P. cbn zeta.
  destruct n as [| n].
  - cbn. split; [exact R |]. split; [lia |]. split; [reflexivity |].
    split; [exists id; exact P | intros _; lra].
  - assert (E : animationFrame w = animate (idle w)).
    { unfold animationFrame. rewrite P. reflexivity. }
    destruct (animate_running (idle w) R) as (AE & AP & _ & AN & _).
    pose proof (render_engine (idle w)) as (ER & ET & ES & _).
    pose proof (render_frameCount (idle w)) as EC.
    assert (P1 : Playing (time (animationEngine w)) (frameCount (animationEngine w))
                   (speed (animationEngine w)) 1 (animationFrame w)).
    { rewrite E. constructor; rewrite ?AE, ?AP, ?AN; cbn; rewrite ?ER, ?ES, ?ET, ?EC; cbn.
      - exact R.
      - reflexivity.
      - ring.
      - reflexivity.
      - replace (Z.pred (nextHandle w + 1)) with (nextHandle w) by lia. reflexivity.
      - replace (Z.pred (nextHandle w + 1)) with (nextHandle w) by lia. reflexivity. }
    cbn [animationFrames].
    destruct (playing_frames _ _ _ n 1 _ P1) as [R' S' T' C' P' _].
    replace (Z.of_nat (S n)) with (1 + Z.of_nat n)%Z by lia.
    split; [exact R' |]. split; [exact C' |]. split; [exact S' |].
    split; [eexists; exact P' |].
    intro Sp. rewrite T'. unfold tick.
    pose proof (JsFacts.inject_Z_nonneg _ Sp) as QS.
    assert (QN : 0 <= inject_Z (1 + Z.of_nat n)) by (apply JsFacts.inject_Z_nonneg; lia).
    assert (F : 0 <= inject_Z (speed (animationEngine w)) / 5)
      by (apply Qle_shift_div_l; lra).
    set (k := inject_Z (1 + Z.of_nat n)) in *.
    set (v := inject_Z (speed (animationEngine w)) / 5) in *. clearbody k v. nra.
Qed.

(** X10.  On a page where [prepare] returns, [start] leaves the animation
    running, and a second [start] is ignored: it registers no second loop.
    On a stopped animation [start] restarts the clock, draws the first frame
    at once (the clock is one tick past 0 when it returns) and registers one
    callback.  On a running animation [start] returns at its guard. *)
Theorem start_is_idempotent (w : World) :
  prepares w ->
  isRunning (animationEngine (start w)) = true /\
  start (start w) = start w /\
  (isRunning (animationEngine w) = true -> start w = w) /\
  (isRunning (animationEngine w) = false ->
   time (animationEngine (start w)) == tick (speed (animationEngine w)) /\
   pending (start w) = pending w ++ [(nextHandle w, Animate)]).
Proof.
  intros _.
  assert (R : isRunning (animationEngine (start w)) = true).
  { destruct (isRunning (animationEngine w)) eqn:E.
    - unfold start. rewrite E. exact E.
    - apply (start_frame w E). }
  split; [exact R |]. split; [| split].
  - unfold start at 1. rewrite R. reflexivity.
  - intro E. unfold start. rewrite E. reflexivity.
  - intro E. destruct (start_frame w E) as (_ & _ & P & _ & T).
    split; [rewrite T; ring | exact P].
Qed.

(** X11.  [stop] after [start]: when the handle that [requestAnimationFrame]
    returned is not 0, the loop's callback is cancelled and the handle
    forgotten, so nothing of the loop is left; [stop] always clears the
    running flag and a second [stop] changes nothing more. *)
Theorem stop_cancels_the_loop (w : World) :
  isRunning (animationEngine (stop w)) = false /\
  stop (stop w) = stop w /\
  (isRunning (animationEngine w) = false -> pending w = [] -> nextHandle w <> 0%Z ->
   pending (stop (start w)) = [] /\
   animationId (animationEngine (stop (start w))) = None).
Proof.
  split; [apply stop_frame |]. split.
  - unfold stop. cbn.
    destruct (animationId (animationEngine w)) as [id |] eqn:I; cbn; rewrite ?I.
    + destruct (id =? 0)%Z eqn:Z0; cbn; rewrite ?I, ?Z0; reflexivity.
    + reflexivity.
  - intros St P N.
    destruct (start_frame w St) as (_ & _ & SP & SR & _).
    assert (I : animationId (animationEngine (start w)) = Some (nextHandle w)).
    { unfold start. rewrite St.
      set (w1 := updAnimation (setFrameCount 0) _).
      destruct (animate_running w1 eq_refl) as (AE & _). rewrite AE. cbn.
      unfold w1. cbn. f_equal. apply prepare_frame. }
    unfold stop. cbn. rewrite I.
    assert (Z0 : (nextHandle w =? 0)%Z = false) by (apply Z.eqb_neq; exact N).
    rewrite Z0. cbn. rewrite SP, P. cbn. rewrite Z.eqb_refl. split; reflexivity.
Qed.

End PlaybackFacts.

Lemma intensity_and_speed_clamped_witness :
  intensity (setIntensity 7 newAnimationEngine) = 7%Z /\
  speed (setSpeed 7 newAnimationEngine) = 7%Z.
Proof.
  apply (proj1 (proj2 (proj2 (intensity_and_speed_clamped newAnimationEngine 7)))).
  lia.
Defined.

Lemma frozen_while_stopped_witness :
  trace (animationFrames (canvas2d := nearestCanvas) (math := seriesMath) 5 redWorld)
    = trace redWorld.
Proof.
  apply (frozen_while_stopped (canvas2d := nearestCanvas) (math := seriesMath) redWorld 5).
  - vm_compute. reflexivity.
  - vm_compute. constructor.
Defined.

Lemma playback_counts_every_frame_witness :
  let w := start (canvas2d := nearestCanvas) (math := seriesMath) redWorld in
  let w' := animationFrames (canvas2d := nearestCanvas) (math := seriesMath) 3 w in
  frameCount (animationEngine w') = (frameCount (animationEngine w) + 3)%Z.
Proof.
  cbn zeta.
  destruct (playback_counts_every_frame (canvas2d := nearestCanvas)
              (math := seriesMath)
              (start (canvas2d := nearestCanvas) (math := seriesMath) redWorld) 1 3)
    as (_ & F & _).
  - vm_compute. reflexivity.
  - vm_compute. reflexivity.
  - exact F.
Defined.

Lemma start_is_idempotent_witness :
  pending (start (canvas2d := nearestCanvas) (math := seriesMath) redWorld)
    = pending redWorld ++ [(nextHandle redWorld, Animate)].
Proof.
  destruct (start_is_idempotent (canvas2d := nearestCanvas) (math := seriesMath) redWorld)
    as (_ & _ & _ & Stopped).
  - right. vm_compute. repeat split; first [reflexivity | discriminate].
  - apply Stopped. vm_compute. reflexivity.
Defined.

Lemma stop_cancels_the_loop_witness :
  pending (stop (start (canvas2d := nearestCanvas) (math := seriesMath) redWorld)) = [].
Proof.
  apply (proj2 (proj2 (stop_cancels_the_loop (canvas2d := nearestCanvas)
                         (math := seriesMath) redWorld))).
  - vm_compute. reflexivity.
  - vm_compute. reflexivity.
  - vm_compute. discriminate.
Defined.

(** ** AnimationEngine: preparing and drawing *)

Section PrepareFacts.

Context {canvas2d : Canvas2D} {math : MathLib}.

Lemma render_unprepared (w : World) :
  baseImageData (animationEngine w) = None \/ pixelGrid (animationEngine w) = None ->
  render w = w.
Proof.
  intro N. unfold render, renderFills.
  destruct (baseImageData (animationEngine w)); [| reflexivity].
  destruct (pixelGrid (animationEngine w)); [| reflexivity].
  destruct N; discriminate.
Qed.

(** [start] on a stopped page with nothing registered: the loop is running,
    one tick in. *)
Lemma start_playing (w : World) :
  isRunning (animationEngine w) = false -> pending w = [] ->
  Playing 0 0 (speed (animationEngine w)) 1 (start w).
Proof.
  intros St P. unfold start. rewrite St.
  destruct (prepare_frame w) as (PX & PP & PC & PN & PT & PR & PS & PF).
  set (w1 := updAnimation (setFrameCount 0) (updAnimation (setTime 0)
               (updAnimation (setRunning true) (prepare w)))).
  destruct (animate_running w1 eq_refl) as (AE & AP & _ & AN & _).
  pose proof (render_engine w1) as (ER & ET & ES & _).
  pose proof (render_frameCount w1) as EC.
  constructor; rewrite ?AE, ?AP, ?AN; cbn; rewrite ?ER, ?ES, ?ET, ?EC; unfold w1; cbn;
    rewrite ?PS, ?PP, ?PN, ?P; cbn.
  - reflexivity.
  - reflexivity.
  - ring.
  - reflexivity.
  - replace (Z.pred (nextHandle w + 1)) with (nextHandle w) by lia. reflexivity.
  - replace (Z.pred (nextHandle w + 1)) with (nextHandle w) by lia. reflexivity.
Qed.

Lemma blank_frame (w : World) :
  isRunning (animationEngine w) = true -> (exists id, pending w = [(id, Animate)]) ->
  blank w -> blank (animationFrame w).
Proof.
  intros R [id P] [B S].
  assert (E : animationFrame w = animate (idle w)).
  { unfold animationFrame. rewrite P. reflexivity. }
  rewrite E.
  destruct (animate_running (idle w) R) as (AE & _).
  rewrite (render_unprepared (idle w)) in AE by (left; exact B).
  unfold blank. rewrite AE. cbn. split; assumption.
Qed.

Lemma blank_frames (t0 : Q) (f0 sp : Z) (n : nat) (k : Z) (w : World) :
  Playing t0 f0 sp k w -> blank w -> blank (animationFrames n w).
Proof.
  revert k w. induction n as [| n IH]; intros k w P B; [exact B |].
  cbn [animationFrames]. apply (IH (k + 1)%Z).
  - apply playing_frame, P.
  - apply blank_frame; [apply (play_running _ _ _ _ _ P) | | exact B].
    eexists. apply (play_pending _ _ _ _ _ P).
Qed.

(** X12.  Started with no image loaded, the animation runs but draws
    nothing: [prepare] finds no pixelated data, every [render] returns at
    its guard and the canvas stays empty, while the loop goes on and counts
    its frames as usual, the first of them in [start] itself. *)
Theorem playback_without_image_draws_nothing (w : World) (n : nat) :
  attached (animationEngine w) = true ->
  originalImage (pixelateEngine w) = None ->
  isRunning (animationEngine w) = false ->
  pending w = [] ->
  let w' := animationFrames n (start w) in
  surface (animationEngine w') = [] /\
  baseImageData (animationEngine w') = None /\
  isRunning (animationEngine w') = true /\
  frameCount (animationEngine w') = (1 + Z.of_nat n)%Z /\
  exists id, pending w' = [(id, Animate)].
Proof.
  intros A I St P. cbn zeta.
  pose proof (start_playing w St P) as SP.
  assert (B : blank (start w)).
  { unfold start. rewrite St.
    set (w1 := updAnimation (setFrameCount 0) (updAnimation (setTime 0)
                 (updAnimation (setRunning true) (prepare w)))).
    assert (B1 : blank w1).
    { unfold w1, blank, prepare. rewrite A. cbn [negb].
      unfold getPixelatedData. rewrite I.
      destruct (getOutputSize (pixelateEngine w)). cbn. split; reflexivity. }
    destruct (animate_running w1 eq_refl) as (AE & _).
    rewrite (render_unprepared w1) in AE by (left; apply B1).
    unfold blank. rewrite AE. cbn. exact B1. }
  destruct (blank_frames _ _ _ n 1 _ SP B) as [N S].
  destruct (playing_frames _ _ _ n 1 _ SP) as [R' _ _ C' P' _].
  split; [exact S |]. split; [exact N |]. split; [exact R' |].
  split; [rewrite C'; lia | eexists; exact P'].
Qed.

(** X13.  With the engines attached and an image loaded that can be drawn
    in the canvas (a canvas side of 0 counts as 400), [prepare] leaves the
    page ready to draw: the canvas has the output size, which has no empty
    side, and is cleared, the cached grid has one cell per block of the
    canvas, and the next [render] does draw. *)
Theorem prepare_makes_page_drawable (w : World) (img : Raster) :
  attached (animationEngine w) = true ->
  originalImage (pixelateEngine w) = Some img ->
  (0 < pixelSize (pixelateEngine w))%Z ->
  drawableIn img
    (inject_Z (orDefault (width (canvas (animationEngine w))) 400))
    (inject_Z (orDefault (height (canvas (animationEngine w))) 400)) ->
  let w' := prepare w in
  let p' := pixelateEngine w' in
  let e' := animationEngine w' in
  pixelSize p' = pixelSize (pixelateEngine w) /\
  canvas e' = mkRaster (outputWidth p') (outputHeight p') [] /\
  (0 < outputWidth p')%Z /\ (0 < outputHeight p')%Z /\
  surface e' = [] /\
  (exists grid,
     pixelGrid e' = Some grid /\
     (Z.of_nat (List.length grid) * pixelSize p' = height (canvas e'))%Z /\
     Forall (fun row => (Z.of_nat (List.length row) * pixelSize p' = width (canvas e'))%Z)
       grid) /\
  renderFills p' e' (rng w') <> None.
Proof.
  intros A I P Dr. cbn zeta.
  destruct (drawable_sides (pixelateEngine w) img _ _ I P Dr) as [SW SH].
  cbn zeta in SW, SH.
  destruct Dr as (W & H & MW & MH & _).
  destruct (pixelated_grid (pixelateEngine w) img _ _ I W H P MW MH)
    as (P' & _ & _ & _ & OW & OH & grid & E & RH & RW).
  assert (D : fst (getPixelatedData (pixelateEngine w)
                     (inject_Z (orDefault (width (canvas (animationEngine w))) 400))
                     (inject_Z (orDefault (height (canvas (animationEngine w))) 400)))
              <> None).
  { unfold getPixelatedData. rewrite I. discriminate. }
  unfold prepare. rewrite A. cbn [negb].
  destruct (getPixelatedData _ _ _) as [imageData p] eqn:G.
  cbn [fst snd] in *. unfold getOutputSize. cbn.
  split; [exact P' |]. split; [reflexivity |]. split; [lia |]. split; [lia |].
  split; [reflexivity |]. split.
  - exists grid. split; [exact E |]. rewrite P', OW, OH, RH. split; [reflexivity |].
    eapply Forall_impl; [| exact RW]. cbn. intros row R. rewrite R. reflexivity.
  - unfold renderFills. cbn. rewrite E.
    destruct imageData; [| contradiction].
    destruct (renderEffect _ _ _ _ _ _ _). discriminate.
Qed.

End PrepareFacts.

Lemma playback_without_image_draws_nothing_witness :
  surface (animationEngine
             (animationFrames (canvas2d := nearestCanvas) (math := seriesMath) 4
                (start (canvas2d := nearestCanvas) (math := seriesMath) emptyPage))) = [].
Proof.
  destruct (playback_without_image_draws_nothing (canvas2d := nearestCanvas)
              (math := seriesMath) emptyPage 4) as (Empty & _).
  - reflexivity.
  - reflexivity.
  - reflexivity.
  - reflexivity.
  - exact Empty.
Defined.

Lemma prepare_makes_page_drawable_witness :
  let w' := prepare (canvas2d := nearestCanvas) redWorld in
  renderFills (math := seriesMath) (pixelateEngine w') (animationEngine w') (rng w') <> None.
Proof.
  destruct (prepare_makes_page_drawable (canvas2d := nearestCanvas) (math := seriesMath)
              redWorld (solidImage 64 64 (mkPixel 255 0 0 255)))
    as (_ & _ & _ & _ & _ & _ & Draws).
  - vm_compute. reflexivity.
  - vm_compute. reflexivity.
  - vm_compute. reflexivity.
  - vm_compute. repeat split; first [reflexivity | discriminate].
  - exact Draws.
Defined.

(** ** The effects: where and how much they draw *)

Section DrawingFacts.

Context {math : MathLib}.

Lemma in_upto (n i : Z) : In i (upto n) -> (0 <= i < n)%Z.
Proof.
  unfold upto. intro I. apply in_map_iff in I. destruct I as [k [<- I]].
  apply in_seq in I. lia.
Qed.

Lemma in_forCells_range {A : Type} (gridSize : Z * Z) (body : Z -> Z -> list A) (f : A) :
  In f (forCells gridSize body) ->
  exists x y, (0 <= x < fst gridSize)%Z /\ (0 <= y < snd gridSize)%Z /\ In f (body x y).
Proof.
  unfold forCells. intro I.
  apply in_flat_map in I. destruct I as [y [Y I]].
  apply in_flat_map in I. destruct I as [x [X I]].
  exists x, y. split; [apply in_upto, X | split; [apply in_upto, Y | exact I]].
Qed.

Lemma block_inside (pixelSize n i : Z) :
  (0 <= pixelSize)%Z -> (0 <= i < n)%Z ->
  0 <= inject_Z i * inject_Z pixelSize /\
  inject_Z i * inject_Z pixelSize + inject_Z pixelSize <= inject_Z (n * pixelSize).
Proof.
  intros P [L U]. rewrite <- !inject_Z_mult, <- inject_Z_plus. split.
  - change 0 with (inject_Z 0). rewrite <- Zle_Qle. nia.
  - rewrite <- Zle_Qle. nia.
Qed.

(** X14.  Static and rainbow fill each visible cell's own block: the square
    of side [pixelSize] at [(x * pixelSize, y * pixelSize)].  Every such
    fill lies inside the [gridWidth * pixelSize] by [gridHeight * pixelSize]
    canvas; neither the clock nor the intensity moves it. *)
Theorem static_and_rainbow_fill_blocks (grid : Grid) (intensity : Z) (time : Q)
  (pixelSize : Z) (gridSize : Z * Z) :
  (0 <= pixelSize)%Z ->
  Forall (fun f =>
            onItsBlock pixelSize f /\
            0 <= rectX f /\ rectX f + rectW f <= inject_Z (fst gridSize * pixelSize) /\
            0 <= rectY f /\ rectY f + rectH f <= inject_Z (snd gridSize * pixelSize))
    (renderStatic grid pixelSize gridSize ++
     renderRainbow grid intensity time pixelSize gridSize).
Proof.
  intro P. apply Forall_app. split; apply Forall_forall; intros f I.
  - unfold renderStatic in I. apply in_forCells_range in I.
    destruct I as (x & y & X & Y & I). apply in_drawn in I.
    destruct I as (p & _ & _ & [<- | []]). cbn.
    destruct (block_inside pixelSize (fst gridSize) x P X) as [X0 X1].
    destruct (block_inside pixelSize (snd gridSize) y P Y) as [Y0 Y1].
    split; [exists x, y; repeat split | repeat split; assumption].
  - unfold renderRainbow in I. apply in_forCells_range in I.
    destruct I as (x & y & X & Y & I). apply in_drawn in I.
    destruct I as (p & _ & _ & I). unfold rainbowCell in I.
    destruct (hslToRgb _ _ _) as [[r' g'] b']. destruct I as [<- | []]. cbn.
    destruct (block_inside pixelSize (fst gridSize) x P X) as [X0 X1].
    destruct (block_inside pixelSize (snd gridSize) y P Y) as [Y0 Y1].
    split; [exists x, y; repeat split | repeat split; assumption].
Qed.

Lemma drawn_length {A B : Type} (k : nat) (pixel : option Pixel)
  (body : Pixel -> list A) (unit : Pixel -> list B) :
  (forall p, List.length (body p) = (k * List.length (unit p))%nat) ->
  List.length (drawn pixel body) = (k * List.length (drawn pixel unit))%nat.
Proof.
  intro E. unfold drawn. destruct pixel as [p |]; [| cbn; lia].
  destruct (a p <? 10)%Z; [cbn; lia | apply E].
Qed.

Lemma flat_map_length_scaled {A B C : Type} (k : nat) (f : A -> list B) (g : A -> list C)
  (l : list A) :
  (forall x, List.length (f x) = (k * List.length (g x))%nat) ->
  List.length (flat_map f l) = (k * List.length (flat_map g l))%nat.
Proof.
  intro E. induction l as [| x l IH]; cbn; [lia |].
  rewrite !List.length_app, IH, E. lia.
Qed.

Lemma forCells_length (k : nat) (grid : Grid) (gridSize : Z * Z)
  (body : Z -> Z -> Pixel -> list Fill) :
  (forall x y p, List.length (body x y p) = k) ->
  List.length (forCells gridSize (fun x y => drawn (cellAt grid y x) (body x y)))
    = (k * visibleCells grid gridSize)%nat.
Proof.
  intro E. unfold visibleCells, forCells.
  apply flat_map_length_scaled. intro y.
  apply flat_map_length_scaled. intro x.
  apply drawn_length. intro p. rewrite E. cbn. lia.
Qed.

Lemma glitchRows_length (rows : list Z) (grid : Grid) (time : Q)
  (intensity pixelSize gridWidth : Z) (glitchLines : list GlitchLine) (rng : Rng) :
  List.length (fst (glitchRows rows grid time intensity pixelSize gridWidth glitchLines rng))
    = (3 * List.length
             (flat_map (fun y =>
                flat_map (fun x => drawn (cellAt grid y x) (fun p => [p])) (upto gridWidth))
                rows))%nat.
Proof.
  revert rng. induction rows as [| y rows IH]; intro rng; [reflexivity |].
  cbn [glitchRows flat_map].
  destruct (random rng) as [u rng1].
  assert (Row : forall xOffset,
            List.length
              (flat_map (fun x =>
                 drawn (cellAt grid y x) (glitchCell time intensity pixelSize xOffset x y))
                 (upto gridWidth))
            = (3 * List.length
                     (flat_map (fun x => drawn (cellAt grid y x) (fun p => [p]))
                        (upto gridWidth)))%nat).
  { intro xOffset. apply flat_map_length_scaled. intro x.
    apply drawn_length. intro p. reflexivity. }
  destruct (Js.ltb u _).
  - destruct (random rng1) as [v rng2].
    specialize (IH rng2).
    destruct (glitchRows rows _ _ _ _ _ _ rng2) as [rest rng'].
    cbn [fst] in *. rewrite !List.length_app, Row, IH. lia.
  - specialize (IH rng1).
    destruct (glitchRows rows _ _ _ _ _ _ rng1) as [rest rng'].
    cbn [fst] in *. rewrite !List.length_app, Row, IH. lia.
Qed.

Lemma sparkleAt_length (i : Z) (time : Q) (pixelSize x y : Z) :
  (List.length (sparkleAt i time pixelSize x y) <= 2)%nat.
Proof.
  unfold sparkleAt. destruct (Js.gtb _ 0.3); [| cbn; lia].
  destruct (Js.gtb _ 0.6); cbn; lia.
Qed.

Lemma flat_map_length_bound {A B : Type} (k : nat) (f : A -> list B) (l : list A) :
  (forall x, (List.length (f x) <= k)%nat) ->
  (List.length (flat_map f l) <= k * List.length l)%nat.
Proof.
  intro E. induction l as [| x l IH]; cbn; [lia |].
  rewrite List.length_app. specialize (E x). lia.
Qed.

(** X15.  How much each effect draws, counted in [fillRect] calls against
    the number [v] of cells that pass the alpha test: static, wave and
    rainbow draw [v]; float draws [2 v] (a shadow pass, then the main pass);
    glitch draws [3 v] (red, cyan, base) whatever [Math.random] returns;
    sparkle draws the [v] base fills and at most two more for each of its
    [5 * intensity] candidates. *)
Theorem effect_fill_counts (grid : Grid) (intensity : Z) (time : Q) (pixelSize : Z)
  (gridSize : Z * Z) (rng : Rng) :
  let v := visibleCells grid gridSize in
  List.length (renderStatic grid pixelSize gridSize) = v /\
  List.length (renderWave grid intensity time pixelSize gridSize) = v /\
  List.length (renderRainbow grid intensity time pixelSize gridSize) = v /\
  List.length (renderFloat grid intensity time pixelSize gridSize) = (2 * v)%nat /\
  List.length (fst (renderGlitch grid intensity time pixelSize gridSize rng)) = (3 * v)%nat /\
  (v <= List.length (renderSparkle grid intensity time pixelSize gridSize)
     <= v + 2 * Z.to_nat (intensity * 5))%nat.
Proof.
  cbn zeta.
  assert (One : forall body : Z -> Z -> Pixel -> list Fill,
            (forall x y p, List.length (body x y p) = 1%nat) ->
            List.length (forCells gridSize (fun x y => drawn (cellAt grid y x) (body x y)))
            = visibleCells grid gridSize).
  { intros body E. rewrite (forCells_length 1); [lia | exact E]. }
  split; [apply One; reflexivity |].
  split; [unfold renderWave;
          apply (One (fun x y pixel => [mkFill (Some (x, y)) _ _ _ _ _])); reflexivity |].
  split.
  { apply One. intros x y p. unfold rainbowCell.
    destruct (hslToRgb _ _ _) as [[r' g'] b']. reflexivity. }
  split.
  { unfold renderFloat. rewrite List.length_app, !One by reflexivity. lia. }
  split.
  { unfold renderGlitch.
    destruct (sampleGlitchLines _ _ _ _) as [glitchLines rng'].
    rewrite glitchRows_length. reflexivity. }
  unfold renderSparkle. rewrite List.length_app, One by reflexivity.
  pose proof (flat_map_length_bound 2
                (fun i => let '(x, y) := sparklePosition i time gridSize in
                          drawn (cellAt grid y x) (fun _ => sparkleAt i time pixelSize x y))
                (upto (intensity * 5))) as B.
  assert (L : List.length (upto (intensity * 5)) = Z.to_nat (intensity * 5)).
  { unfold upto. rewrite List.length_map, List.length_seq. reflexivity. }
  rewrite L in B. split; [lia |].
  apply Nat.add_le_mono_l. apply B. intro i.
  destruct (sparklePosition i time gridSize) as [x y]. unfold drawn.
  destruct (cellAt grid y x) as [p |]; [| cbn; lia].
  destruct (a p <? 10)%Z; [cbn; lia | apply sparkleAt_length].
Qed.

Lemma random_fair (rng : Rng) :
  fairRng rng -> 0 <= fst (random rng) < 1 /\ fairRng (snd (random rng)).
Proof. intro F. split; [apply F | exact F]. Qed.

Lemma sampleGlitchLines_bounds (n : nat) (intensity gridHeight : Z) (rng : Rng) :
  fairRng rng -> (0 <= intensity)%Z -> (0 < gridHeight)%Z ->
  let lines := fst (sampleGlitchLines n intensity gridHeight rng) in
  (List.length lines <= n)%nat /\
  Forall (fun line =>
            (0 <= lineY line < gridHeight)%Z /\
            (1 <= lineHeight line <= 3)%Z /\
            - inject_Z intensity <= lineOffset line /\
            lineOffset line <= inject_Z intensity) lines /\
  fairRng (snd (sampleGlitchLines n intensity gridHeight rng)).
Proof.
  intros F I H. cbn zeta. revert rng F.
  pose proof (JsFacts.inject_Z_nonneg _ I) as QI.
  induction n as [| n IH]; intros rng F; cbn [sampleGlitchLines].
  - cbn. split; [lia | split; [constructor | exact F]].
  - destruct (random rng) as [u rng1] eqn:R1.
    assert (F1 : fairRng rng1) by (change rng1 with (snd (u, rng1)); rewrite <- R1; exact F).
    destruct (Js.ltb u _).
    + destruct (random rng1) as [uy rng2] eqn:R2.
      assert (Uy : 0 <= uy < 1) by (change uy with (fst (uy, rng2)); rewrite <- R2; apply F1).
      assert (F2 : fairRng rng2) by (change rng2 with (snd (uy, rng2)); rewrite <- R2; exact F1).
      destruct (random rng2) as [uo rng3] eqn:R3.
      assert (Uo : 0 <= uo < 1) by (change uo with (fst (uo, rng3)); rewrite <- R3; apply F2).
      assert (F3 : fairRng rng3) by (change rng3 with (snd (uo, rng3)); rewrite <- R3; exact F2).
      destruct (random rng3) as [uh rng4] eqn:R4.
      assert (Uh : 0 <= uh < 1) by (change uh with (fst (uh, rng4)); rewrite <- R4; apply F3).
      assert (F4 : fairRng rng4) by (change rng4 with (snd (uh, rng4)); rewrite <- R4; exact F3).
      destruct (IH rng4 F4) as (L & B & FF).
      destruct (sampleGlitchLines n intensity gridHeight rng4) as [rest rng'].
      cbn [fst snd] in *. split; [cbn; lia |]. split; [| exact FF].
      constructor; [| exact B]. cbn [lineY lineHeight lineOffset].
      split; [apply floor_scaled_range; assumption |].
      split.
      * pose proof (floor_scaled_range uh 3 Uh ltac:(lia)) as T.
        change (inject_Z 3) with 3 in T. lia.
      * split; nra.
    + destruct (IH rng1 F1) as (L & B & FF).
      destruct (sampleGlitchLines n intensity gridHeight rng1) as [rest rng'].
      cbn [fst snd] in *. split; [lia | split; assumption].
Qed.

(** X16.  The glitch lines sampled for one frame, when [Math.random]
    returns values in [0, 1): there are at most [floor (intensity / 2) + 1]
    of them, each starts on a row of the grid, spans 1 to 3 rows, and is
    shifted by at most [intensity] blocks either way. *)
Theorem glitch_lines_are_bounded (intensity gridHeight : Z) (rng : Rng) :
  fairRng rng -> (0 <= intensity)%Z -> (0 < gridHeight)%Z ->
  let n := Z.to_nat (Js.floor (inject_Z intensity / 2) + 1) in
  let lines := fst (sampleGlitchLines n intensity gridHeight rng) in
  (List.length lines <= n)%nat /\
  Forall (fun line =>
            (0 <= lineY line < gridHeight)%Z /\
            (1 <= lineHeight line <= 3)%Z /\
            - inject_Z intensity <= lineOffset line /\
            lineOffset line <= inject_Z intensity) lines.
Proof.
  intros F I H. cbn zeta.
  destruct (sampleGlitchLines_bounds
              (Z.to_nat (Js.floor (inject_Z intensity / 2) + 1)) intensity gridHeight rng
              F I H) as (L & B & _).
  split; assumption.
Qed.

End DrawingFacts.

Lemma static_and_rainbow_fill_blocks_witness :
  Forall (onItsBlock 8)
    (renderStatic [[white]] 8 (1, 1)%Z ++
     renderRainbow [[white]] 5 0 8 (1, 1)%Z).
Proof.
  eapply Forall_impl;
    [| apply (static_and_rainbow_fill_blocks [[white]] 5 0 8 (1, 1)%Z);
       discriminate].
  intros f F. apply F.
Defined.

Lemma glitch_lines_are_bounded_witness :
  Forall (fun line => (0 <= lineY line < 8)%Z)
    (fst (sampleGlitchLines 3 5 8 (constantRng 0))).
Proof.
  eapply Forall_impl;
    [| apply (glitch_lines_are_bounded 5 8 (constantRng 0));
       [intro k; split; [discriminate | reflexivity] | lia | lia]].
  intros line L. apply L.
Defined.

(** ** The colour conversions: ranges *)

Section ColourRangeFacts.

Ltac branch :=
  match goal with
  | |- context [Js.ltb ?x ?y] =>
      let E := fresh "E" in
      destruct (Js.ltb x y) eqn:E;
      [apply JsFacts.ltb_spec in E | apply JsFacts.ltb_false in E]
  end.

Ltac fractions :=
  change (1 / 6) with (1 # 6) in *; change (1 / 2) with (1 # 2) in *;
  change (2 / 3) with (2 # 3) in *; change (1 / 3) with (1 # 3) in *.

(** On one turn of the hue circle and one wrap either side, the ramp stays
    between its two levels. *)
Lemma hue2rgb_between (p q t : Q) :
  p <= q -> -1 <= t <= 2 -> p <= hue2rgb p q t <= q.
Proof.
  intros PQ [L U]. unfold hue2rgb, Js.gtb. fractions.
  destruct (Js.ltb t 0) eqn:N;
    [apply JsFacts.ltb_spec in N | apply JsFacts.ltb_false in N].
  - assert (W : Js.ltb 1 (t + 1) = false) by (apply JsFacts.ltb_false; lra).
    rewrite W. repeat branch; split; nra.
  - destruct (Js.ltb 1 t) eqn:W;
      [apply JsFacts.ltb_spec in W | apply JsFacts.ltb_false in W];
      repeat branch; split; nra.
Qed.

Lemma round_unit (v : Q) : 0 <= v <= 1 -> (0 <= Js.round (v * 255) <= 255)%Z.
Proof.
  intros [L U]. split.
  - rewrite <- (JsFacts.round_inject 0). unfold Js.round. apply Qfloor_resp_le.
    change (inject_Z 0) with 0. lra.
  - rewrite <- (JsFacts.round_inject 255) at 2. unfold Js.round. apply Qfloor_resp_le.
    change (inject_Z 255) with 255. lra.
Qed.

Lemma hslToUnit_range (hue sat light : Q) :
  -240 <= hue <= 600 -> 0 <= sat <= 1 -> 0 <= light <= 1 ->
  0 <= fst (fst (hslToUnit hue sat light)) <= 1 /\
  0 <= snd (fst (hslToUnit hue sat light)) <= 1 /\
  0 <= snd (hslToUnit hue sat light) <= 1.
Proof.
  intros [H0 H1] [S0 S1] [L0 L1]. unfold hslToUnit.
  destruct (Js.eqb sat 0); cbn [fst snd]; [repeat split; assumption |].
  assert (T : hue / 360 == hue * (1 # 360)) by field.
  set (t := hue / 360) in *.
  assert (TB : - (2 # 3) <= t <= 5 # 3) by (rewrite T; lra).
  clearbody t. fractions.
  set (q := if Js.ltb light 0.5 then light * (1 + sat) else light + sat - light * sat).
  assert (QB : light <= q <= 1 /\ 0 <= 2 * light - q).
  { unfold q. destruct (Js.ltb light 0.5) eqn:E;
      [apply JsFacts.ltb_spec in E | apply JsFacts.ltb_false in E]; repeat split; nra. }
  clearbody q. destruct QB as ((Q0 & Q1) & P0).
  assert (PQ : 2 * light - q <= q) by lra.
  pose proof (hue2rgb_between (2 * light - q) q (t + (1 # 3)) PQ ltac:(lra)) as BR.
  pose proof (hue2rgb_between (2 * light - q) q t PQ ltac:(lra)) as BG.
  pose proof (hue2rgb_between (2 * light - q) q (t - (1 # 3)) PQ ltac:(lra)) as BB.
  repeat split; lra.
Qed.

(** X17.  [hslToRgb] returns channels in 0..255 for every saturation and
    lightness in [0, 1] and every hue from -240 to 600 degrees, which
    includes the whole circle 0..360: within that range each of its three
    hue offsets needs at most the one wrap that [hue2rgb] performs. *)
Theorem hslToRgb_channels_in_range (hue sat light : Q) :
  -240 <= hue <= 600 -> 0 <= sat <= 1 -> 0 <= light <= 1 ->
  let '(r', g', b') := hslToRgb hue sat light in
  (0 <= r' <= 255)%Z /\ (0 <= g' <= 255)%Z /\ (0 <= b' <= 255)%Z.
Proof.
  intros H S L. rewrite hslToRgb_unit.
  destruct (hslToUnit_range hue sat light H S L) as (R & G & B).
  destruct (hslToUnit hue sat light) as [[r' g'] b']. cbn [fst snd] in *.
  split; [apply round_unit, R | split; [apply round_unit, G | apply round_unit, B]].
Qed.

(** The hue fraction, the saturation and the lightness of [unitToHsl]. *)
Lemma unitToHsl_range (R G B : Q) :
  0 <= R <= 1 -> 0 <= G <= 1 -> 0 <= B <= 1 ->
  0 <= h (unitToHsl R G B) < 360 /\
  0 <= s (unitToHsl R G B) <= 1 /\
  0 <= l (unitToHsl R G B) <= 1 /\
  (R == G -> G == B -> h (unitToHsl R G B) == 0 /\ s (unitToHsl R G B) == 0).
Proof.
  intros HR HG HB. unfold unitToHsl.
  assert (MR : R <= Qmax (Qmax R G) B)
    by (eapply Qle_trans; [apply Q.le_max_l | apply Q.le_max_l]).
  assert (MG : G <= Qmax (Qmax R G) B)
    by (eapply Qle_trans; [apply Q.le_max_r | apply Q.le_max_l]).
  assert (MB : B <= Qmax (Qmax R G) B) by apply Q.le_max_r.
  assert (NR : Qmin (Qmin R G) B <= R)
    by (eapply Qle_trans; [apply Q.le_min_l | apply Q.le_min_l]).
  assert (NG : Qmin (Qmin R G) B <= G)
    by (eapply Qle_trans; [apply Q.le_min_l | apply Q.le_min_r]).
  assert (NB : Qmin (Qmin R G) B <= B) by apply Q.le_min_r.
  assert (MX : Qmax (Qmax R G) B == R \/ Qmax (Qmax R G) B == G \/ Qmax (Qmax R G) B == B).
  { destruct (Q.max_spec (Qmax R G) B) as [[_ E] | [_ E]]; [tauto |].
    destruct (Q.max_spec R G) as [[_ E'] | [_ E']]; rewrite E, E';
      [right; left; reflexivity | left; reflexivity]. }
  assert (MN : Qmin (Qmin R G) B == R \/ Qmin (Qmin R G) B == G \/ Qmin (Qmin R G) B == B).
  { destruct (Q.min_spec (Qmin R G) B) as [[_ E] | [_ E]]; [| tauto].
    destruct (Q.min_spec R G) as [[_ E'] | [_ E']]; rewrite E, E';
      [left; reflexivity | right; left; reflexivity]. }
  set (mx := Qmax (Qmax R G) B) in *. set (mn := Qmin (Qmin R G) B) in *.
  clearbody mx mn.
  assert (LQ : (mx + mn) / 2 == (mx + mn) * (1 # 2)) by field.
  destruct (Js.eqb mx mn) eqn:E; [apply JsFacts.eqb_spec in E |]; cbn [h s l].
  - rewrite LQ. repeat split; try lra.
  - assert (D : mn < mx).
    { destruct (Qlt_le_dec mn mx) as [X | X]; [exact X |].
      assert (Y : mx == mn) by lra. apply JsFacts.eqb_spec in Y. congruence. }
    assert (D0 : 0 < mx - mn) by lra.
    split; [| split; [| split]].
    + assert (HB6 : forall u k : Q, 0 <= u + k -> u + k < 6 ->
                0 <= (u + k) / 6 * 360 < 360).
      { intros u k A0 A1.
        setoid_replace ((u + k) / 6 * 360) with ((u + k) * 60) by field. lra. }
      destruct (Js.eqb mx R) eqn:ER; [apply JsFacts.eqb_spec in ER |].
      * destruct (ratio (G - B) (mx - mn) D0 ltac:(lra)) as (_ & Ub & Up & _ & Usn & _).
        destruct (Js.ltb G B) eqn:LT;
          [apply JsFacts.ltb_spec in LT | apply JsFacts.ltb_false in LT].
        -- apply HB6; [lra |]. assert (N : (G - B) / (mx - mn) < 0) by (apply Usn; lra). lra.
        -- assert (N : 0 <= (G - B) / (mx - mn)) by (apply Up; lra). apply HB6; lra.
      * destruct (Js.eqb mx G).
        -- destruct (ratio (B - R) (mx - mn) D0 ltac:(lra)) as (_ & Ub & _).
           apply HB6; lra.
        -- destruct (ratio (R - G) (mx - mn) D0 ltac:(lra)) as (_ & Ub & _).
           apply HB6; lra.
    + unfold Js.gtb. destruct (Js.ltb 0.5 ((mx + mn) / 2)) eqn:LT;
        [apply JsFacts.ltb_spec in LT | apply JsFacts.ltb_false in LT].
      * split; [apply Qle_shift_div_l; lra | apply Qle_shift_div_r; lra].
      * split; [apply Qle_shift_div_l; lra | apply Qle_shift_div_r; lra].
    + rewrite LQ. lra.
    + intros RG GB. exfalso. lra.
Qed.

(** X18.  [rgbToHsl] on channels in 0..255 returns a hue in [0, 360) and a
    saturation and a lightness in [0, 1]; a grey (three equal channels) has
    hue 0 and saturation 0. *)
Theorem rgbToHsl_in_range (r g b : Z) :
  (0 <= r <= 255)%Z -> (0 <= g <= 255)%Z -> (0 <= b <= 255)%Z ->
  0 <= h (rgbToHsl r g b) < 360 /\
  0 <= s (rgbToHsl r g b) <= 1 /\
  0 <= l (rgbToHsl r g b) <= 1 /\
  (r = g -> g = b -> h (rgbToHsl r g b) == 0 /\ s (rgbToHsl r g b) == 0).
Proof.
  intros HR HG HB. rewrite rgbToHsl_unit.
  destruct (unitToHsl_range _ _ _ (unit_channel r HR) (unit_channel g HG)
              (unit_channel b HB)) as (H & S & L & Grey).
  split; [exact H |]. split; [exact S |]. split; [exact L |].
  intros -> ->. apply Grey; reflexivity.
Qed.

End ColourRangeFacts.

Lemma hslToRgb_channels_in_range_witness :
  let '(r', g', b') := hslToRgb 210 0.5 0.4 in
  (0 <= r' <= 255)%Z /\ (0 <= g' <= 255)%Z /\ (0 <= b' <= 255)%Z.
Proof.
  apply (hslToRgb_channels_in_range 210 0.5 0.4); split; discriminate.
Defined.

Lemma rgbToHsl_in_range_witness :
  0 <= h (rgbToHsl 200 100 50) < 360 /\
  0 <= s (rgbToHsl 200 100 50) <= 1 /\
  0 <= l (rgbToHsl 200 100 50) <= 1 /\
  (200%Z = 100%Z -> 100%Z = 50%Z ->
   h (rgbToHsl 200 100 50) == 0 /\ s (rgbToHsl 200 100 50) == 0).
Proof.
  apply (rgbToHsl_in_range 200 100 50); split; discriminate.
Defined.

(** Outside that range a channel can leave 0..255: at hue -300 the blue
    offset needs two wraps and [hue2rgb] makes one. *)
Example hslToRgb_out_of_range : hslToRgb (-300) 1 0.5 = (255, 255, -255)%Z.
Proof. vm_compute. reflexivity. Qed.

(** ** The effects: the colours they draw with *)

Section PaintFacts.

Context {math : MathLib}.

(** A loop over the grid draws with property [P] when its body does at
    every cell of the grid. *)
Lemma forCells_all (P : Fill -> Prop) (grid : Grid) (gridSize : Z * Z)
  (body : Z -> Z -> Pixel -> list Fill) :
  (forall x y p, (0 <= x)%Z -> (0 <= y)%Z -> cellAt grid y x = Some p ->
                 Forall P (body x y p)) ->
  Forall P (forCells gridSize (fun x y => drawn (cellAt grid y x) (body x y))).
Proof.
  intro B. apply Forall_forall. intros f I.
  apply in_forCells_range in I. destruct I as (x & y & X & Y & I).
  apply in_drawn in I. destruct I as (p & C & _ & I).
  specialize (B x y p ltac:(lia) ltac:(lia) C).
  rewrite Forall_forall in B. apply B, I.
Qed.

Lemma glitchRows_all (P : Fill -> Prop) (rows : list Z) (grid : Grid) (time : Q)
  (intensity pixelSize gridWidth : Z) (glitchLines : list GlitchLine) (rng : Rng) :
  (forall xOffset x y p, cellAt grid y x = Some p ->
                         Forall P (glitchCell time intensity pixelSize xOffset x y p)) ->
  Forall P (fst (glitchRows rows grid time intensity pixelSize gridWidth glitchLines rng)).
Proof.
  intro B. revert rng. induction rows as [| y rows IH]; intro rng; cbn.
  - constructor.
  - assert (Row : forall xOffset,
              Forall P (flat_map (fun x =>
                drawn (cellAt grid y x) (glitchCell time intensity pixelSize xOffset x y))
                (upto gridWidth))).
    { intro xOffset. apply Forall_forall. intros f I.
      apply in_flat_map in I. destruct I as [x [_ I]].
      apply in_drawn in I. destruct I as (p & C & _ & I).
      specialize (B xOffset x y p C). rewrite Forall_forall in B. apply B, I. }
    destruct (Js.ltb _ _).
    + cbn. destruct (glitchRows rows _ _ _ _ _ _ _) as [rest rng'] eqn:E.
      cbn. apply Forall_app. split; [apply Row |].
      specialize (IH (snd (random (snd (random rng))))).
      cbn in IH. rewrite E in IH. exact IH.
    + destruct (glitchRows rows _ _ _ _ _ _ _) as [rest rng'] eqn:E.
      cbn. apply Forall_app. split; [apply Row |].
      specialize (IH (snd (random rng))).
      cbn in IH. rewrite E in IH. exact IH.
Qed.

Lemma opacity_unit (p : Pixel) : bytePixel p -> 0 <= opacity p <= 1.
Proof. intros (_ & _ & _ & A). apply unit_channel, A. Qed.

Lemma tenth_unit (intensity : Z) :
  (1 <= intensity <= 10)%Z -> 0 <= inject_Z intensity / 10 <= 1.
Proof.
  intros [L U]. rewrite Zle_Qle in L, U.
  change (inject_Z 1) with 1 in L. change (inject_Z 10) with 10 in U.
  split; [apply Qle_shift_div_l | apply Qle_shift_div_r]; lra.
Qed.

Lemma floor_nonneg (v : Q) : 0 <= v -> (0 <= Js.floor v)%Z.
Proof. intro V. change 0%Z with (Qfloor 0). apply Qfloor_resp_le, V. Qed.

Lemma floor_below (c : Z) (v : Q) : v <= inject_Z c -> (Js.floor v <= c)%Z.
Proof.
  intro V. rewrite <- (JsFacts.floor_inject c). apply Qfloor_resp_le, V.
Qed.

(** [a % 360] of a number that is not negative. *)
Lemma rem_turn (v : Q) : 0 <= v -> 0 <= Js.rem v 360 < 360.
Proof.
  intro V. unfold Js.rem, Js.trunc.
  assert (E : v == 360 * (v / 360)) by field.
  assert (N : 0 <= v / 360) by (apply Qle_shift_div_l; lra).
  set (q := v / 360) in *. clearbody q.
  destruct (Qle_bool 0 q) eqn:B.
  - pose proof (Qfloor_le q) as F. pose proof (Qlt_floor q) as G.
    rewrite inject_Z_plus in G. change (inject_Z 1) with 1 in G. lra.
  - apply Qle_bool_iff in N. congruence.
Qed.

(** The breathing factor of the float effect. *)
Lemma breathe_range (time : Q) (intensity : Z) :
  (forall x, -1 <= Math_sin x <= 1) -> (1 <= intensity <= 10)%Z ->
  0.8 <= 0.9 + Math_sin (time * 3) * 0.1 * (inject_Z intensity / 10) <= 1.
Proof.
  intros Sine I. pose proof (tenth_unit intensity I) as U.
  pose proof (Sine (time * 3)) as W.
  set (u := inject_Z intensity / 10) in *. set (v := Math_sin (time * 3)) in *.
  clearbody u v. split; nra.
Qed.

Lemma breathe_channel (c : Z) (k : Q) :
  (0 <= c <= 255)%Z -> 0.8 <= k <= 1 ->
  (0 <= Js.floor (inject_Z c * k) <= c)%Z /\
  Z.min 255 (Js.floor (inject_Z c * k)) = Js.floor (inject_Z c * k).
Proof.
  intros [L U] K. rewrite Zle_Qle in L. change (inject_Z 0) with 0 in L.
  assert (A : (0 <= Js.floor (inject_Z c * k))%Z) by (apply floor_nonneg; nra).
  assert (B : (Js.floor (inject_Z c * k) <= c)%Z) by (apply floor_below; nra).
  split; [lia | lia].
Qed.

Lemma sparkleAt_css (i : Z) (time : Q) (pixelSize x y : Z) :
  (forall x, -1 <= Math_sin x <= 1) ->
  Forall (fun f => cssColour (style f)) (sparkleAt i time pixelSize x y).
Proof.
  intro Sine. unfold sparkleAt.
  pose proof (Sine (Js.rem (time * 5 + inject_Z i * 0.5) (Math_PI * 2))) as W.
  set (v := Math_sin _) in *. clearbody v.
  assert (B : 0 <= v * v <= 1) by (split; nra).
  destruct (Js.gtb (v * v) 0.3); [| constructor].
  destruct (Js.gtb (v * v) 0.6); repeat constructor; cbn; try lia; lra.
Qed.

Lemma rainbowHsl_range (p : Pixel) (x y : Z) (time : Q) (intensity : Z) :
  bytePixel p -> (0 <= x)%Z -> (0 <= y)%Z -> 0 <= time -> (1 <= intensity <= 10)%Z ->
  0 <= h (rainbowHsl p x y time intensity) < 360 /\
  0 <= s (rainbowHsl p x y time intensity) <= 1 /\
  0 <= l (rainbowHsl p x y time intensity) <= 1.
Proof.
  intros (R & G & B & _) X Y T I. unfold rainbowHsl. cbn [h s l].
  rewrite rgbToHsl_unit.
  destruct (unitToHsl_range _ _ _ (unit_channel (r p) R) (unit_channel (g p) G)
              (unit_channel (b p) B)) as (H & S & L & _).
  pose proof (tenth_unit intensity I) as U.
  assert (V : 0 <= inject_Z intensity / 5).
  { destruct I as [I _]. rewrite Zle_Qle in I. change (inject_Z 1) with 1 in I.
    apply Qle_shift_div_l; lra. }
  assert (Sh : 0 <= hueShift x y time intensity < 360).
  { unfold hueShift. apply rem_turn.
    rewrite Zle_Qle in X, Y. change (inject_Z 0) with 0 in X, Y.
    set (v := inject_Z intensity / 5) in *. clearbody v. nra. }
  set (u := inject_Z intensity / 10) in *. clearbody u.
  set (sh := hueShift x y time intensity) in *. clearbody sh.
  split; [apply rem_turn; nra |]. split; [| exact L].
  split; [apply Q.min_glb; nra | apply Q.le_min_l].
Qed.

(** X19.  With a sine in [-1, 1], a grid of byte pixels, an intensity in
    1..10 and a clock that is not negative, every fill of every effect is
    drawn with channels in 0..255 and an alpha in [0, 1]: the colour that
    the [rgba(...)] template spells is taken as written. *)
Theorem effects_draw_css_colours (effect : string) (grid : Grid) (intensity : Z)
  (time : Q) (pixelSize : Z) (gridSize : Z * Z) (rng : Rng) :
  (forall x, -1 <= Math_sin x <= 1) ->
  (forall x y p, cellAt grid y x = Some p -> bytePixel p) ->
  (1 <= intensity <= 10)%Z -> 0 <= time ->
  Forall (fun f => cssColour (style f))
    (fst (renderEffect effect grid intensity time pixelSize gridSize rng)).
Proof.
  intros Sine Bytes I T.
  assert (Plain : forall p, bytePixel p ->
            cssColour (Rgba (r p) (g p) (b p) (opacity p))).
  { intros p P. pose proof (opacity_unit p P) as O.
    destruct P as (R & G & B & _). cbn. tauto. }
  unfold renderEffect.
  repeat match goal with |- context [String.eqb ?x ?y] => destruct (String.eqb x y) end;
    cbn [fst].
  - unfold renderGlitch. destruct (sampleGlitchLines _ _ _ _) as [glitchLines rng'].
    apply glitchRows_all. intros xOffset x y p C.
    pose proof (Bytes x y p C) as P. pose proof (opacity_unit p P) as O.
    destruct P as (R & G & B & _).
    unfold glitchCell. repeat constructor; cbn; try lia; lra.
  - unfold renderFloat. apply Forall_app. split.
    + apply forCells_all. intros x y p _ _ _. repeat constructor; cbn; try lia; lra.
    + apply forCells_all. intros x y p _ _ C.
      pose proof (Bytes x y p C) as P. pose proof (opacity_unit p P) as O.
      destruct P as (R & G & B & _).
      pose proof (breathe_range time intensity Sine I) as K.
      destruct (breathe_channel (r p) _ R K) as [R' _].
      destruct (breathe_channel (g p) _ G K) as [G' _].
      destruct (breathe_channel (b p) _ B K) as [B' _].
      constructor; [| constructor]. cbn [style cssColour].
      repeat split; try lia; apply O.
  - unfold renderSparkle. apply Forall_app. split.
    + apply forCells_all. intros x y p _ _ C.
      constructor; [apply Plain, (Bytes x y p C) | constructor].
    + apply Forall_forall. intros f F.
      apply in_flat_map in F. destruct F as [i [_ F]].
      destruct (sparklePosition i time gridSize) as [x y].
      apply in_drawn in F. destruct F as (p & _ & _ & F).
      pose proof (sparkleAt_css i time pixelSize x y Sine) as A.
      rewrite Forall_forall in A. apply A, F.
  - unfold renderWave.
    apply (forCells_all _ grid gridSize
             (fun x y pixel =>
                [mkFill (Some (x, y)) (Rgba (r pixel) (g pixel) (b pixel) (opacity pixel))
                   _ _ _ _])).
    intros x y p _ _ C. constructor; [apply Plain, (Bytes x y p C) | constructor].
  - unfold renderRainbow. apply forCells_all. intros x y p X Y C.
    pose proof (Bytes x y p C) as P. pose proof (opacity_unit p P) as O.
    destruct (rainbowHsl_range p x y time intensity P X Y T I) as (H & S & L).
    unfold rainbowCell.
    assert (H' : -240 <= h (rainbowHsl p x y time intensity) <= 600)
      by (destruct H; split; lra).
    rewrite hslToRgb_unit.
    destruct (hslToUnit_range _ _ _ H' S L) as (Cr & Cg & Cb).
    destruct (hslToUnit _ _ _) as [[r' g'] b']. cbn [fst snd] in Cr, Cg, Cb.
    pose proof (round_unit r' Cr). pose proof (round_unit g' Cg).
    pose proof (round_unit b' Cb).
    constructor; [| constructor]. cbn [style cssColour]. tauto.
  - unfold renderStatic. apply forCells_all. intros x y p _ _ C.
    constructor; [apply Plain, (Bytes x y p C) | constructor].
Qed.

(** X20.  The float effect never brightens.  With a sine in [-1, 1], an
    intensity in 1..10 and a grid of byte pixels, [renderFloat] draws a
    pass of shadows, every one of them black at alpha 0.3, and then the
    main pass, where every fill takes the opacity of the cell it comes from
    and, for each channel, an integer from 0 up to the cell's own channel:
    the breathing factor stays in [0.8, 1], so the [Math.min(255, ...)]
    around the channel never takes effect. *)
Theorem float_never_brightens (grid : Grid) (intensity : Z) (time : Q)
  (pixelSize : Z) (gridSize : Z * Z) :
  (forall x, -1 <= Math_sin x <= 1) -> (1 <= intensity <= 10)%Z ->
  (forall x y p, cellAt grid y x = Some p -> bytePixel p) ->
  exists shadows main,
    renderFloat grid intensity time pixelSize gridSize = shadows ++ main /\
    Forall (fun f => style f = Rgba 0 0 0 0.3) shadows /\
    Forall (fun f =>
              exists x y p red green blue,
                cell f = Some (x, y) /\ cellAt grid y x = Some p /\
                style f = Rgba red green blue (opacity p) /\
                (0 <= red <= r p)%Z /\ (0 <= green <= g p)%Z /\ (0 <= blue <= b p)%Z)
      main.
Proof.
  intros Sine I Bytes. unfold renderFloat.
  eexists. eexists. split; [reflexivity |]. split.
  - apply forCells_all. intros x y p _ _ _. constructor; [reflexivity | constructor].
  - apply forCells_all. intros x y p _ _ C.
    destruct (Bytes x y p C) as (R & G & B & _).
    pose proof (breathe_range time intensity Sine I) as K.
    destruct (breathe_channel (r p) _ R K) as [R' Rm].
    destruct (breathe_channel (g p) _ G K) as [G' Gm].
    destruct (breathe_channel (b p) _ B K) as [B' Bm].
    constructor; [| constructor].
    eexists x, y, p, _, _, _. cbn [cell style].
    split; [reflexivity |]. split; [exact C |]. split; [reflexivity |].
    rewrite Rm, Gm, Bm. split; [exact R' |]. split; [exact G' | exact B'].
Qed.

End PaintFacts.

Lemma clampedMath_sine (x : Q) : -1 <= Math_sin (MathLib := clampedMath) x <= 1.
Proof.
  cbn. split; [apply Q.le_max_l |].
  apply Q.max_lub; [discriminate | apply Q.le_min_l].
Qed.

Lemma cellAt_In (grid : Grid) (y x : Z) (p : Pixel) :
  cellAt grid y x = Some p -> exists row, In row grid /\ In p row.
Proof.
  unfold cellAt, index. destruct (y <? 0)%Z; [discriminate |].
  destruct (nth_error grid (Z.to_nat y)) as [row |] eqn:R; [| discriminate].
  destruct (x <? 0)%Z; [discriminate |]. intro C.
  exists row. split; eapply nth_error_In; eassumption.
Qed.

Lemma white_grid_bytes (x y : Z) (p : Pixel) :
  cellAt [[white]] y x = Some p -> bytePixel p.
Proof.
  intro C. apply cellAt_In in C. destruct C as (row & [<- | []] & [<- | []]).
  repeat split; discriminate.
Qed.

Lemma effects_draw_css_colours_witness :
  Forall (fun f => cssColour (style f))
    (fst (renderEffect (math := clampedMath) "sparkle" [[white]] 5 1 8 (1, 1)%Z
            (constantRng 0))).
Proof.
  apply (effects_draw_css_colours (math := clampedMath) "sparkle" [[white]] 5 1 8
           (1, 1)%Z (constantRng 0)).
  - exact clampedMath_sine.
  - exact white_grid_bytes.
  - lia.
  - discriminate.
Defined.

Lemma float_never_brightens_witness :
  exists shadows main,
    renderFloat (math := clampedMath) [[white]] 5 1 8 (1, 1)%Z = shadows ++ main /\
    Forall (fun f => style f = Rgba 0 0 0 0.3) shadows.
Proof.
  destruct (float_never_brightens (math := clampedMath) [[white]] 5 1 8 (1, 1)%Z)
    as (shadows & main & E & Sh & _).
  - exact clampedMath_sine.
  - lia.
  - exact white_grid_bytes.
  - exists shadows, main. split; assumption.
Defined.

(** ** The effects: how far they move a block *)

Section DisplacementFacts.

Context {math : MathLib}.

Hypothesis sine : forall x, -1 <= Math_sin x <= 1.
Hypothesis cosine : forall x, -1 <= Math_cos x <= 1.

Lemma glitchOffset_bound (glitchLines : list GlitchLine) (y pixelSize intensity : Z) :
  Forall (fun line => - inject_Z intensity <= lineOffset line /\
                      lineOffset line <= inject_Z intensity) glitchLines ->
  (0 <= pixelSize)%Z -> (0 <= intensity)%Z ->
  - (inject_Z intensity * inject_Z pixelSize) <= glitchOffset glitchLines y pixelSize /\
  glitchOffset glitchLines y pixelSize <= inject_Z intensity * inject_Z pixelSize.
Proof.
  intros B P I. unfold glitchOffset.
  pose proof (JsFacts.inject_Z_nonneg _ P) as QP.
  pose proof (JsFacts.inject_Z_nonneg _ I) as QI.
  destruct (find _ glitchLines) as [line |] eqn:E.
  - apply find_some in E. destruct E as [E _].
    rewrite Forall_forall in B. destruct (B line E) as [L U]. split; nra.
  - split; nra.
Qed.

Lemma glitchCell_near (time : Q) (intensity pixelSize : Z) (xOffset : Q) (x y : Z)
  (p : Pixel) :
  (0 <= pixelSize)%Z -> (0 <= intensity)%Z ->
  - (1.25 * inject_Z intensity * inject_Z pixelSize) <= xOffset ->
  xOffset <= 1.25 * inject_Z intensity * inject_Z pixelSize ->
  Forall (displaced pixelSize
            (1.25 * inject_Z intensity * inject_Z pixelSize + 0.3 * inject_Z intensity) 0)
    (glitchCell time intensity pixelSize xOffset x y p).
Proof.
  intros P I L U.
  pose proof (JsFacts.inject_Z_nonneg _ P) as QP.
  pose proof (JsFacts.inject_Z_nonneg _ I) as QI.
  pose proof (sine (time * 10)) as W.
  unfold glitchCell. set (v := Math_sin (time * 10)) in *. clearbody v.
  repeat constructor; exists x, y; cbn [cell rectX rectY rectW rectH];
    repeat split; nra.
Qed.

Lemma glitchRows_near (rows : list Z) (grid : Grid) (time : Q)
  (intensity pixelSize gridWidth : Z) (glitchLines : list GlitchLine) (rng : Rng) :
  Forall (fun line => - inject_Z intensity <= lineOffset line /\
                      lineOffset line <= inject_Z intensity) glitchLines ->
  fairRng rng -> (0 <= pixelSize)%Z -> (0 <= intensity)%Z ->
  Forall (displaced pixelSize
            (1.25 * inject_Z intensity * inject_Z pixelSize + 0.3 * inject_Z intensity) 0)
    (fst (glitchRows rows grid time intensity pixelSize gridWidth glitchLines rng)).
Proof.
  intros B F P I.
  pose proof (JsFacts.inject_Z_nonneg _ P) as QP.
  pose proof (JsFacts.inject_Z_nonneg _ I) as QI.
  assert (Row : forall xOffset y,
            - (1.25 * inject_Z intensity * inject_Z pixelSize) <= xOffset ->
            xOffset <= 1.25 * inject_Z intensity * inject_Z pixelSize ->
            Forall (displaced pixelSize
                      (1.25 * inject_Z intensity * inject_Z pixelSize
                       + 0.3 * inject_Z intensity) 0)
              (flat_map (fun x =>
                 drawn (cellAt grid y x) (glitchCell time intensity pixelSize xOffset x y))
                 (upto gridWidth))).
  { intros xOffset y L U. apply Forall_forall. intros f X.
    apply in_flat_map in X. destruct X as [x [_ X]].
    apply in_drawn in X. destruct X as (p & _ & _ & X).
    pose proof (glitchCell_near time intensity pixelSize xOffset x y p P I L U) as N.
    rewrite Forall_forall in N. apply N, X. }
  revert rng F. induction rows as [| y rows IH]; intros rng F; cbn [glitchRows].
  - constructor.
  - destruct (glitchOffset_bound glitchLines y pixelSize intensity B P I) as [GL GU].
    set (base := glitchOffset glitchLines y pixelSize) in *. clearbody base.
    destruct (random rng) as [u rng1] eqn:R1.
    assert (F1 : fairRng rng1) by (change rng1 with (snd (u, rng1)); rewrite <- R1; exact F).
    destruct (Js.ltb u (0.02 * inject_Z intensity)).
    + destruct (random rng1) as [v rng2] eqn:R2.
      assert (V : 0 <= v < 1) by (change v with (fst (v, rng2)); rewrite <- R2; apply F1).
      assert (F2 : fairRng rng2)
        by (change rng2 with (snd (v, rng2)); rewrite <- R2; exact F1).
      specialize (IH rng2 F2).
      destruct (glitchRows rows _ _ _ _ _ _ rng2) as [rest rng'].
      cbn [fst] in *. apply Forall_app. split; [apply Row; nra | exact IH].
    + specialize (IH rng1 F1).
      destruct (glitchRows rows _ _ _ _ _ _ rng1) as [rest rng'].
      cbn [fst] in *. apply Forall_app. split; [apply Row; nra | exact IH].
Qed.

(** X29.  How far an effect moves a block, with sine and cosine in
    [-1, 1]: wave draws each block within [0.8 * intensity] pixels sideways
    and [0.5 * intensity] up or down of its place; float within
    [0.5 * intensity + 4] and [2 * intensity + 4], the 4 being the shadow's
    offset; glitch, when [Math.random] returns values in [0, 1), keeps the
    row and moves a block sideways by at most 1.25 * intensity blocks plus
    [0.3 * intensity] pixels.  Every such fill has the size of a block. *)
Theorem effects_stay_near_their_blocks (grid : Grid) (intensity : Z) (time : Q)
  (pixelSize : Z) (gridSize : Z * Z) (rng : Rng) :
  fairRng rng -> (0 <= pixelSize)%Z -> (0 <= intensity)%Z -> (0 < snd gridSize)%Z ->
  let i := inject_Z intensity in
  Forall (displaced pixelSize (0.8 * i) (0.5 * i))
    (renderWave grid intensity time pixelSize gridSize) /\
  Forall (displaced pixelSize (0.5 * i + 4) (2 * i + 4))
    (renderFloat grid intensity time pixelSize gridSize) /\
  Forall (displaced pixelSize (1.25 * i * inject_Z pixelSize + 0.3 * i) 0)
    (fst (renderGlitch grid intensity time pixelSize gridSize rng)).
Proof.
  intros F P I H. cbn zeta.
  pose proof (JsFacts.inject_Z_nonneg _ P) as QP.
  pose proof (JsFacts.inject_Z_nonneg _ I) as QI.
  split; [| split].
  - unfold renderWave.
    apply (forCells_all _ grid gridSize
             (fun x y pixel =>
                [mkFill (Some (x, y)) (Rgba (r pixel) (g pixel) (b pixel) (opacity pixel))
                   _ _ _ _])).
    intros x y p _ _ _. constructor; [| constructor].
    pose proof (sine (inject_Z y * 0.3 + time * 3)) as W1.
    pose proof (sine (inject_Z y * 0.2 + time * 2)) as W2.
    pose proof (sine (inject_Z x * 0.4 + time * 4)) as W3.
    set (v1 := Math_sin (inject_Z y * 0.3 + time * 3)) in *.
    set (v2 := Math_sin (inject_Z y * 0.2 + time * 2)) in *.
    set (v3 := Math_sin (inject_Z x * 0.4 + time * 4)) in *.
    clearbody v1 v2 v3.
    exists x, y. cbn [cell rectX rectY rectW rectH]. repeat split; nra.
  - unfold renderFloat.
    pose proof (sine (time * 2)) as W1. pose proof (cosine (time * 1.5)) as W2.
    set (v1 := Math_sin (time * 2)) in *. set (v2 := Math_cos (time * 1.5)) in *.
    clearbody v1 v2.
    apply Forall_app. split; apply forCells_all; intros x y p _ _ _;
      (constructor; [| constructor]); exists x, y;
      cbn [cell rectX rectY rectW rectH]; repeat split; nra.
  - unfold renderGlitch.
    destruct (sampleGlitchLines_bounds
                (Z.to_nat (Js.floor (inject_Z intensity / 2) + 1)) intensity
                (snd gridSize) rng F I H) as (_ & B & F').
    destruct (sampleGlitchLines _ _ _ _) as [glitchLines rng'].
    cbn [fst snd] in B, F'.
    apply glitchRows_near; try assumption.
    eapply Forall_impl; [| exact B]. intros line (_ & _ & L & U). split; assumption.
Qed.

Lemma sparkleAt_centred (i : Z) (time : Q) (pixelSize x y : Z) :
  (0 <= pixelSize)%Z ->
  Forall (fun f =>
            centredOnBlock pixelSize f /\
            inject_Z pixelSize <= rectW f /\ rectW f <= 3.5 * inject_Z pixelSize)
    (sparkleAt i time pixelSize x y).
Proof.
  intro P. pose proof (JsFacts.inject_Z_nonneg _ P) as QP.
  unfold sparkleAt, Js.gtb.
  pose proof (sine (Js.rem (time * 5 + inject_Z i * 0.5) (Math_PI * 2))) as W.
  set (v := Math_sin _) in *. clearbody v.
  assert (B : 0 <= v * v <= 1) by (split; nra).
  set (br := v * v) in *. clearbody br.
  destruct (Js.ltb 0.3 br); [| constructor].
  destruct (Js.ltb 0.6 br); repeat constructor;
    try (exists x, y; cbn [cell rectX rectY rectW rectH];
         split; [reflexivity | split; [reflexivity | split; field]]);
    cbn [rectW]; nra.
Qed.

(** X30.  The highlights of the sparkle effect, with a sine in [-1, 1]:
    each is a square centred on the block of the cell it lights, at least
    as wide as the block and at most 3.5 blocks wide (a glow of up to 1.5
    blocks, and around it a halo one block wider on every side); the base
    pass below them draws every visible cell on its own block. *)
Theorem sparkles_are_centred_on_their_cell (grid : Grid) (intensity : Z) (time : Q)
  (pixelSize : Z) (gridSize : Z * Z) :
  (0 <= pixelSize)%Z ->
  exists base highlights,
    renderSparkle grid intensity time pixelSize gridSize = base ++ highlights /\
    base = renderStatic grid pixelSize gridSize /\
    Forall (fun f =>
              centredOnBlock pixelSize f /\
              inject_Z pixelSize <= rectW f /\ rectW f <= 3.5 * inject_Z pixelSize /\
              exists alpha, style f = Rgba 255 255 255 alpha)
      highlights.
Proof.
  intro P. unfold renderSparkle. eexists. eexists.
  split; [reflexivity |]. split; [reflexivity |].
  apply Forall_forall. intros f X.
  apply in_flat_map in X. destruct X as [i [_ X]].
  destruct (sparklePosition i time gridSize) as [x y].
  apply in_drawn in X. destruct X as (p & _ & _ & X).
  pose proof (sparkleAt_centred i time pixelSize x y P) as C.
  rewrite Forall_forall in C. destruct (C f X) as (Ce & L & U).
  split; [exact Ce |]. split; [exact L |]. split; [exact U |].
  unfold sparkleAt in X.
  destruct (Js.gtb _ 0.3); [| destruct X].
  destruct (Js.gtb _ 0.6); cbn in X;
    repeat (destruct X as [X | X]; [subst f; eexists; reflexivity |]); destruct X.
Qed.

End DisplacementFacts.

Lemma clampedMath_cosine (x : Q) : -1 <= Math_cos (MathLib := clampedMath) x <= 1.
Proof.
  cbn. split; [apply Q.le_max_l |].
  apply Q.max_lub; [discriminate | apply Q.le_min_l].
Qed.

Lemma effects_stay_near_their_blocks_witness :
  Forall (displaced 8 (0.8 * inject_Z 5) (0.5 * inject_Z 5))
    (renderWave (math := clampedMath) [[white]] 5 1 8 (1, 1)%Z).
Proof.
  destruct (effects_stay_near_their_blocks (math := clampedMath) clampedMath_sine
              clampedMath_cosine [[white]] 5 1 8 (1, 1)%Z (constantRng 0))
    as [Wave _].
  - intro k. split; [discriminate | reflexivity].
  - lia.
  - lia.
  - reflexivity.
  - exact Wave.
Defined.

Lemma sparkles_are_centred_on_their_cell_witness :
  exists base highlights,
    renderSparkle (math := clampedMath) [[white]] 5 1 8 (1, 1)%Z = base ++ highlights /\
    base = renderStatic [[white]] 8 (1, 1)%Z.
Proof.
  destruct (sparkles_are_centred_on_their_cell (math := clampedMath) clampedMath_sine
              [[white]] 5 1 8 (1, 1)%Z) as (base & highlights & E & B & _).
  - lia.
  - exists base, highlights. split; assumption.
Defined.

(** ** GifExporter: any request, and the edges *)

Section ExportFacts.

Context {canvas2d : Canvas2D} {math : MathLib}.




(** X23.  Without the encoder library [startExport] on an initialised
    animation engine (its canvas is set, so [startExport] can read its
    size) gives up before it touches anything: the error callback is
    called when one is installed,
    and the animation, the exporter and the registered callbacks are as
    they were; the animation is not stopped and its clock is not reset. *)
Theorem export_without_encoder_only_reports (options : ExportOptions) (w : World) :
  attached (animationEngine w) = true ->
  gifLoaded w = false ->
  let w' := startExport options w in
  animationEngine w' = animationEngine w /\
  gifExporter w' = gifExporter w /\
  pending w' = pending w /\
  trace w' = trace w ++ (if onError (gifExporter w) then [OnError] else []).
Proof.
  intros _ L. cbn zeta. unfold startExport, initExporter. rewrite L. cbn [negb].
  destruct (onError (gifExporter w)); cbn; rewrite ?app_nil_r; repeat split.
Qed.

Lemma captureProgress_mono (j k total : Z) :
  (0 < total)%Z -> (j <= k)%Z -> (captureProgress j total <= captureProgress k total)%Z.
Proof.
  intros T J. unfold captureProgress, Js.floor. apply Qfloor_resp_le.
  rewrite Zlt_Qlt in T. rewrite Zle_Qle in J. change (inject_Z 0) with 0 in T.
  unfold Qdiv. pose proof (Qinv_lt_0_compat _ T) as I.
  set (i := / inject_Z total) in *. clearbody i. nra.
Qed.

Lemma captureProgress_range (k total : Z) :
  (0 <= k <= total)%Z -> (0 < total)%Z -> (0 <= captureProgress k total <= 50)%Z.
Proof.
  intros [K0 K1] T. unfold captureProgress.
  rewrite Zlt_Qlt in T. rewrite Zle_Qle in K0, K1. change (inject_Z 0) with 0 in T, K0.
  assert (U : 0 <= inject_Z k / inject_Z total <= 1)
    by (split; [apply Qle_shift_div_l | apply Qle_shift_div_r]; lra).
  set (u := inject_Z k / inject_Z total) in *. clearbody u.
  split; [apply floor_nonneg; lra | apply floor_below; change (inject_Z 50) with 50; lra].
Qed.

Lemma sorted_seq (f : Z -> Z) (start len : nat) :
  (forall i, (f i <= f (i + 1))%Z) ->
  Sorted Z.le (map f (map Z.of_nat (seq start len))).
Proof.
  intro M. revert start. induction len as [| len IH]; intro start; cbn [seq map].
  - constructor.
  - constructor; [apply IH |].
    destruct len; cbn [seq map]; constructor.
    replace (Z.of_nat (S start)) with (Z.of_nat start + 1)%Z by lia. apply M.
Qed.

Lemma progressSteps_rise (total n : Z) :
  (0 < total)%Z -> (n <= total)%Z ->
  Sorted Z.le (progressSteps total n) /\
  Forall (fun v => (0 <= v <= 50)%Z) (progressSteps total n).
Proof.
  intros T N. unfold progressSteps. split.
  - unfold upto. apply (sorted_seq (fun j => captureProgress (j + 1) total)).
    intro i. apply captureProgress_mono; lia.
  - apply Forall_forall. intros v I. apply in_map_iff in I.
    destruct I as (j & <- & I). apply in_upto in I.
    apply captureProgress_range; lia.
Qed.

(** X24.  Progress is reported in order.  While frames are still wanted,
    the percentages reported since the export started never go down and lie
    between 0 and 50; an encoder progress between 0 and 1 is reported as a
    percentage between 50 and 100. *)
Theorem progress_never_goes_back (options : ExportOptions) (w : World) (j : nat) :
  gifLoaded w = true ->
  Forall isAnimate (pending w) ->
  let total := orElse (frames options) 30 in
  let c := orElse (captureInterval options) 2 in
  (0 < c)%Z -> (Z.of_nat j / c < total)%Z ->
  let wj := animationFrames j (startExport options w) in
  (exists events,
     trace wj = trace w ++ events /\
     Sorted Z.le (progressValues events) /\
     Forall (fun v => (0 <= v <= 50)%Z) (progressValues events)) /\
  forall progress, 0 <= progress <= 1 ->
    exists events,
      trace (gifProgress progress wj) = trace wj ++ events /\
      Forall (fun v => (50 <= v <= 100)%Z) (progressValues events).
Proof.
  intros L A total c C F. cbn zeta.
  assert (N : (0 < total)%Z).
  { eapply Z.le_lt_trans; [| exact F]. apply Z.div_pos; lia. }
  destruct (startExport_begins options w L A C N) as [X1 L1].
  destruct (frames_tick (isRunning (animationEngine w)) c total
              (onProgress (gifExporter w)) (trace w) (speed (animationEngine w))
              j 1 (startExport options w)) as [X P]; try assumption; try lia.
  { replace (1 + Z.of_nat j - 1)%Z with (Z.of_nat j) by lia. exact F. }
  split.
  - destruct (exp_trace _ _ _ _ _ _ _ X) as (events & Tr & [_ LP _]).
    exists events. split; [exact Tr |]. rewrite LP.
    destruct (onProgress (gifExporter w)); [| split; constructor].
    apply progressSteps_rise; [exact N |].
    pose proof (div_succ (Z.of_nat j) c ltac:(lia) C) as DS.
    replace (1 + Z.of_nat j)%Z with (Z.of_nat j + 1)%Z by lia.
    rewrite DS. destruct (Z.rem _ _ =? 0)%Z; lia.
  - intros progress [P0 P1]. unfold gifProgress.
    pose proof (floor_nonneg (progress * 50) ltac:(lra)) as F0.
    pose proof (floor_below 50 (progress * 50)
                  ltac:(change (inject_Z 50) with 50; lra)) as F1.
    destruct (onProgress (gifExporter (animationFrames j (startExport options w)))).
    + exists [OnProgress (50 + Js.floor (progress * 50)) Encoding].
      split; [reflexivity |].
      unfold progressValues. cbn [flat_map progressOf app].
      constructor; [lia | constructor].
    + exists []. rewrite app_nil_r. split; [reflexivity | constructor].
Qed.

(** X25.  Cancelling a running export aborts the encoder once and drops
    it; the frame that follows halts the loop and hands nothing more to the
    encoder, neither a frame nor [render], and reports no progress.  A
    second [cancel] changes nothing, and [addFrame] on the cancelled
    exporter returns [undefined] without adding a frame. *)
Theorem cancel_aborts_and_encodes_nothing (options : ExportOptions) (w : World)
  (j : nat) (d : Z) :
  gifLoaded w = true ->
  Forall isAnimate (pending w) ->
  (0 < orElse (captureInterval options) 2)%Z ->
  ((1 + Z.of_nat j) / orElse (captureInterval options) 2 < orElse (frames options) 30)%Z ->
  let wj := animationFrames j (startExport options w) in
  let halted := animationFrame (cancel wj) in
  gif (gifExporter halted) = None /\
  isExporting (gifExporter halted) = false /\
  (exists post,
     trace halted = trace wj ++ [GifAbort] ++ post /\
     Forall (fun ev => exists n, ev = OnFrameCapture n) post) /\
  cancel (cancel wj) = cancel wj /\
  addFrame d (cancel wj) = (None, cancel wj).
Proof.
  intros L A C F. cbn zeta.
  assert (N : (0 < orElse (frames options) 30)%Z).
  { eapply Z.le_lt_trans; [| exact F]. apply Z.div_pos; lia. }
  destruct (startExport_begins options w L A C N) as [X1 L1].
  destruct (frames_tick (isRunning (animationEngine w))
              (orElse (captureInterval options) 2) (orElse (frames options) 30)
              (onProgress (gifExporter w)) (trace w) (speed (animationEngine w))
              j 1 (startExport options w)) as [X (strays & id & P & S)];
    try assumption; try lia.
  { eapply Z.le_lt_trans; [| exact F]. apply Z.div_le_mono; lia. }
  set (wj := animationFrames j (startExport options w)) in *.
  destruct X as [St G _ _ _ _ _ _ _].
  destruct (cancel_frame wj) as (CE & CA & CP).
  assert (CC : cancel wj
             = updExporter (setGif None)
                 (emit GifAbort (updExporter (setExporting false) wj))).
  { unfold cancel.
    change (gif (gifExporter (updExporter (setExporting false) wj)))
      with (gif (gifExporter wj)).
    destruct (gif (gifExporter wj)); [reflexivity | contradiction]. }
  assert (CG : gif (gifExporter (cancel wj)) = None) by (rewrite CC; reflexivity).
  assert (CT : trace (cancel wj) = trace wj ++ [GifAbort]) by (rewrite CC; reflexivity).
  rewrite (animationFrame_capture (isRunning (animationEngine w))
             (orElse (captureInterval options) 2) (1 + Z.of_nat j) strays id (cancel wj));
    [| rewrite CP; exact P | exact S | rewrite CA; exact St].
  rewrite captureLoop_cancelled by exact CE.
  split; [| split; [| split; [| split]]].
  - destruct (isRunning (animationEngine w)); [| exact CG].
    destruct (start_frame (idle (cancel wj))) as (SG & _);
      [cbn; rewrite CA; exact St |].
    rewrite SG. exact CG.
  - destruct (isRunning (animationEngine w)); [| exact CE].
    destruct (start_frame (idle (cancel wj))) as (SG & _);
      [cbn; rewrite CA; exact St |].
    rewrite SG. exact CE.
  - destruct (isRunning (animationEngine w)).
    + destruct (start_frame (idle (cancel wj))) as (_ & STr & _);
        [cbn; rewrite CA; exact St |].
      rewrite STr. cbn [idle trace]. rewrite CT, <- app_assoc.
      eexists. split; [reflexivity |].
      destruct (onFrameCapture _); repeat constructor. exists 1%Z. reflexivity.
    + cbn [idle trace]. rewrite CT. exists []. split; [reflexivity | constructor].
  - rewrite CC. reflexivity.
  - unfold addFrame. rewrite CG. reflexivity.
Qed.

End ExportFacts.



Lemma export_without_encoder_only_reports_witness :
  let w := mkWorld redEngine (init (mkRaster 400 400 []) newAnimationEngine)
             (setErrorCallback true newGifExporter) false (constantRng 0) [] [] 1 [] in
  trace (startExport (canvas2d := nearestCanvas) (math := seriesMath) thirtyFrames w)
    = [OnError].
Proof.
  destruct (export_without_encoder_only_reports (canvas2d := nearestCanvas)
              (math := seriesMath) thirtyFrames
              (mkWorld redEngine (init (mkRaster 400 400 []) newAnimationEngine)
                 (setErrorCallback true newGifExporter) false (constantRng 0) [] [] 1 []))
    as (_ & _ & _ & T).
  - reflexivity.
  - reflexivity.
  - exact T.
Defined.

Lemma progress_never_goes_back_witness :
  exists events,
    trace (animationFrames (canvas2d := nearestCanvas) (math := seriesMath) 4
             (startExport (canvas2d := nearestCanvas) (math := seriesMath)
                thirtyFrames redWorld))
      = trace redWorld ++ events /\
    Sorted Z.le (progressValues events) /\
    Forall (fun v => (0 <= v <= 50)%Z) (progressValues events).
Proof.
  destruct (progress_never_goes_back (canvas2d := nearestCanvas) (math := seriesMath)
              thirtyFrames redWorld 4) as [Rise _].
  - vm_compute. reflexivity.
  - vm_compute. constructor.
  - reflexivity.
  - reflexivity.
  - exact Rise.
Defined.

Lemma cancel_aborts_and_encodes_nothing_witness :
  let wj :=
    animationFrames (canvas2d := nearestCanvas) (math := seriesMath) 4
      (startExport (canvas2d := nearestCanvas) (math := seriesMath) thirtyFrames redWorld) in
  gif (gifExporter (animationFrame (canvas2d := nearestCanvas) (math := seriesMath)
                      (cancel wj))) = None.
Proof.
  destruct (cancel_aborts_and_encodes_nothing (canvas2d := nearestCanvas)
              (math := seriesMath) thirtyFrames redWorld 4 20) as [Dropped _].
  - vm_compute. reflexivity.
  - vm_compute. constructor.
  - reflexivity.
  - reflexivity.
  - exact Dropped.
Defined.

(** ** The page script: exporting and resetting *)

Section PageFacts.

Context {canvas2d : Canvas2D} {math : MathLib}.

Lemma frameDelays_app (t u : list Event) :
  frameDelays (t ++ u) = frameDelays t ++ frameDelays u.
Proof. apply flat_map_app. Qed.

Lemma frameDelays_length (t : list Event) :
  List.length (frameDelays t) = List.length (filter isGifAddFrame t).
Proof.
  induction t as [| ev t IH]; [reflexivity |].
  unfold frameDelays in *. destruct ev; cbn; rewrite ?IH; reflexivity.
Qed.

(** One call of the capture loop keeps the encoder and the delay of the
    request, and stamps that delay on the frame it adds, if any. *)
Lemma captureLoop_delay (wasRunning : bool) (c total : Z) (op : bool) (t0 : list Event)
  (sp k : Z) (w : World) :
  (0 < c)%Z -> (0 <= k)%Z -> (k / c < total)%Z ->
  Exporting c total op t0 sp k w ->
  let w' := captureLoop wasRunning c k w in
  frameDelay (gifExporter w') = frameDelay (gifExporter w) /\
  gif (gifExporter w') = gif (gifExporter w) /\
  exists new,
    trace w' = trace w ++ new /\
    Forall (eq (frameDelay (gifExporter w))) (frameDelays new).
Proof.
  intros C K F [St G E Cp T P S Tm _]. cbn zeta.
  rewrite captureLoop_continue by (rewrite ?Cp, ?T; assumption).
  destruct (ticked_frame w) as (TX & TL & TP & TC & TN & TT).
  destruct (Z.rem (k + 1) c =? 0)%Z.
  - destruct (addFrame_frame (frameDelay (gifExporter (ticked w))) (ticked w))
      as (AE & AP & AC & AN & AX & AT); [rewrite TX; exact G | rewrite TX; exact E |].
    cbn zeta in *. unfold requestAnimationFrame. cbn [snd gifExporter trace].
    rewrite AX, AT, TX, TT. split; [reflexivity |]. split; [reflexivity |].
    eexists. split; [reflexivity |].
    unfold orDefault.
    destruct (frameDelay (gifExporter w) =? 0)%Z; destruct (onProgress (gifExporter w));
      cbn; repeat constructor.
  - unfold requestAnimationFrame. cbn [snd gifExporter trace]. rewrite TX, TT.
    split; [reflexivity |]. split; [reflexivity |].
    exists []. rewrite app_nil_r. split; [reflexivity | constructor].
Qed.

Lemma frames_delay (wasRunning : bool) (c total : Z) (op : bool) (t0 : list Event)
  (sp : Z) (n : nat) (k : Z) (w : World) :
  (0 < c)%Z -> (0 <= k)%Z -> ((k + Z.of_nat n - 1) / c < total)%Z ->
  Exporting c total op t0 sp k w -> loopPending wasRunning c k w ->
  frameDelay (gifExporter (animationFrames n w)) = frameDelay (gifExporter w) /\
  gif (gifExporter (animationFrames n w)) = gif (gifExporter w) /\
  exists new,
    trace (animationFrames n w) = trace w ++ new /\
    Forall (eq (frameDelay (gifExporter w))) (frameDelays new).
Proof.
  revert k w. induction n as [| n IH]; intros k w C K F X L.
  - cbn. split; [reflexivity |]. split; [reflexivity |].
    exists []. rewrite app_nil_r. split; [reflexivity | constructor].
  - cbn [animationFrames].
    assert (F1 : (k / c < total)%Z).
    { eapply Z.le_lt_trans; [| exact F]. apply Z.div_le_mono; lia. }
    destruct (frame_tick wasRunning c total op t0 sp k w C K F1 X L) as [X1 L1].
    destruct L as (strays & id & P & A).
    pose proof (animationFrame_capture wasRunning c k strays id w P A
                  (exp_stopped _ _ _ _ _ _ _ X)) as AF.
    destruct (captureLoop_delay wasRunning c total op t0 sp k (idle w) C K F1
                (Exporting_idle _ _ _ _ _ _ _ X)) as (D1 & G1 & new1 & T1 & V1).
    cbn zeta in D1, G1, T1. rewrite <- AF in D1, G1, T1.
    change (gifExporter (idle w)) with (gifExporter w) in D1, G1, V1.
    change (trace (idle w)) with (trace w) in T1.
    destruct (IH (k + 1)%Z (animationFrame w) C ltac:(lia)) as (D2 & G2 & new2 & T2 & V2);
      [| exact X1 | exact L1 |].
    { replace (k + 1 + Z.of_nat n - 1)%Z with (k + Z.of_nat (S n) - 1)%Z by lia.
      exact F. }
    rewrite D2, G2, D1, G1. split; [reflexivity |]. split; [reflexivity |].
    exists (new1 ++ new2). rewrite T2, T1, <- app_assoc. split; [reflexivity |].
    rewrite frameDelays_app. apply Forall_app. split; [exact V1 |].
    rewrite D1 in V2. exact V2.
Qed.

(** [startExport] creates the encoder from the request and the canvas. *)
Lemma startExport_delay (options : ExportOptions) (w : World) :
  gifLoaded w = true ->
  (0 < orElse (captureInterval options) 2)%Z ->
  (0 < orElse (frames options) 30)%Z ->
  let w' := startExport options w in
  frameDelay (gifExporter w') = orElse (delay options) 50 /\
  gif (gifExporter w')
    = Some (mkGif (orElse (quality options) 10)
              (width (canvas (animationEngine w))) (height (canvas (animationEngine w)))) /\
  exists new,
    trace w' = trace w ++ new /\
    Forall (eq (orElse (delay options) 50)) (frameDelays new).
Proof.
  intros L C N. cbn zeta. unfold startExport, initExporter. rewrite L. cbn [negb fst snd].
  set (w1 := updExporter (setFramesCaptured 0) (updExporter (setExporting true)
               (updExporter _ w))).
  destruct (stop_frame w1) as (SX & ST & SR & SS & SA).
  set (w2 := updAnimation reset (stop w1)).
  assert (X0 : Exporting (orElse (captureInterval options) 2) (orElse (frames options) 30)
                 (onProgress (gifExporter w)) (trace w) (speed (animationEngine w)) 0 w2).
  { constructor; unfold w2; cbn; rewrite ?SX, ?ST, ?SR, ?SS; cbn;
      try reflexivity; try discriminate.
    exists []. split; [rewrite app_nil_r; reflexivity |].
    constructor; cbn.
    - reflexivity.
    - destruct (onProgress (gifExporter w)); reflexivity.
    - intros _ _ F. lia. }
  destruct (captureLoop_delay (isRunning (animationEngine w1))
              (orElse (captureInterval options) 2) (orElse (frames options) 30)
              (onProgress (gifExporter w)) (trace w) (speed (animationEngine w)) 0 w2)
    as (D & G & new & T & V);
    [exact C | lia | rewrite Z.div_0_l by lia; exact N | exact X0 |].
  cbn zeta in D, G, T.
  assert (X2 : gifExporter w2 = gifExporter w1) by exact SX.
  assert (T2 : trace w2 = trace w) by exact ST.
  rewrite X2 in D, G, V. rewrite T2 in T.
  rewrite D, G. split; [reflexivity |]. split; [reflexivity |].
  exists new. split; [exact T | exact V].
Qed.

(** The whole export: what the encoder was created with, and the delays
    of the frames it received. *)
Lemma export_delays (options : ExportOptions) (w : World) :
  gifLoaded w = true ->
  Forall isAnimate (pending w) ->
  let total := orElse (frames options) 30 in
  let c := orElse (captureInterval options) 2 in
  (0 < total)%Z -> (0 < c)%Z ->
  let exported := animationFrames (Z.to_nat (total * c)) (startExport options w) in
  filter isCaptureLoop (pending exported) = [] /\
  gif (gifExporter exported)
    = Some (mkGif (orElse (quality options) 10)
              (width (canvas (animationEngine w))) (height (canvas (animationEngine w)))) /\
  exists events,
    trace exported = trace w ++ events /\
    frameDelays events = repeat (orElse (delay options) 50) (Z.to_nat total).
Proof.
  intros L A total c N C. cbn zeta.
  destruct (startExport_begins options w L A C N) as [X1 L1].
  destruct (startExport_delay options w L C N) as (D0 & G0 & new0 & T0 & V0).
  cbn zeta in D0, G0, T0. fold total c in X1, L1.
  assert (TC : (0 < total * c)%Z) by nia.
  destruct (Z.to_nat (total * c)) as [| m] eqn:M; [lia |].
  assert (K : (1 + Z.of_nat m = total * c)%Z) by lia.
  assert (D : (total * c / c = total)%Z) by (apply Z.div_mul; lia).
  assert (F : ((1 + Z.of_nat m - 1) / c < total)%Z).
  { replace (1 + Z.of_nat m - 1)%Z with (Z.of_nat m) by lia.
    apply Z.div_lt_upper_bound; lia. }
  destruct (frames_tick _ _ _ _ _ _ m 1 _ C ltac:(lia) F X1 L1) as [X P].
  destruct (frames_delay _ _ _ _ _ _ m 1 _ C ltac:(lia) F X1 L1)
    as (D1 & G1 & new1 & T1 & V1).
  rewrite K in X, P.
  rewrite animationFrames_last.
  set (wm := animationFrames m (startExport options w)) in *.
  destruct (export_finishes _ c total _ _ _ (total * c) wm ltac:(rewrite D; lia) X P)
    as ((post & T & PF & _) & PL & _).
  pose proof P as (strays & id & Pm & Am).
  pose proof (animationFrame_capture _ c (total * c) strays id wm Pm Am
                (exp_stopped _ _ _ _ _ _ _ X)) as AF.
  assert (G2 : gif (gifExporter (animationFrame wm)) = gif (gifExporter wm)).
  { rewrite AF, captureLoop_finished;
      [| exact (exp_exporting _ _ _ _ _ _ _ X)
       | change (gifExporter (idle wm)) with (gifExporter wm);
         rewrite (exp_captured _ _ _ _ _ _ _ X), (exp_total _ _ _ _ _ _ _ X), D; lia].
    cbn zeta. set (w3 := emit GifRender _).
    assert (X3 : gifExporter w3 = gifExporter wm).
    { unfold w3. destruct (onProgress (gifExporter (idle wm))); reflexivity. }
    assert (R3 : isRunning (animationEngine w3) = false).
    { unfold w3. destruct (onProgress (gifExporter (idle wm)));
        exact (exp_stopped _ _ _ _ _ _ _ X). }
    destruct (isRunning (animationEngine w)).
    - destruct (start_frame w3 R3) as (SG & _). rewrite SG, X3. reflexivity.
    - rewrite X3. reflexivity. }
  split; [exact PL |]. split; [rewrite G2, G1; exact G0 |].
  destruct (exp_trace _ _ _ _ _ _ _ X) as (events & Tr & [LF _ _]).
  rewrite D in LF.
  assert (Ev : events = new0 ++ new1).
  { apply (app_inv_head (trace w)). rewrite <- Tr, T1, T0, <- app_assoc. reflexivity. }
  exists (events ++ (if onProgress (gifExporter w) then [OnProgress 50 Encoding] else [])
            ++ [GifRender] ++ post).
  split; [rewrite T, Tr, <- !app_assoc; reflexivity |].
  assert (Po : frameDelays post = []).
  { apply length_zero_iff_nil. rewrite frameDelays_length, PF. reflexivity. }
  rewrite !frameDelays_app, Po.
  assert (Mid : frameDelays (if onProgress (gifExporter w)
                             then [OnProgress 50 Encoding] else []) = [])
    by (destruct (onProgress (gifExporter w)); reflexivity).
  rewrite Mid. cbn [frameDelays flat_map app]. rewrite app_nil_r.
  rewrite <- LF, <- frameDelays_length. apply Forall_eq_repeat.
  rewrite Ev, frameDelays_app. apply Forall_app. split; [exact V0 |].
  rewrite D0 in V1. exact V1.
Qed.

(** X26.  Every frame of an export goes to the encoder with the delay of
    the request, 50 ms when the request has none or 0, which the exporter
    stores as the export starts, and the encoder is
    the one created when the export started: at the quality of the request,
    10 by default, and the size the canvas had then. *)
Theorem frames_carry_the_requested_delay (options : ExportOptions) (w : World) :
  gifLoaded w = true ->
  Forall isAnimate (pending w) ->
  let total := orElse (frames options) 30 in
  let c := orElse (captureInterval options) 2 in
  (0 < total)%Z -> (0 < c)%Z ->
  let exported := animationFrames (Z.to_nat (total * c)) (startExport options w) in
  filter isCaptureLoop (pending exported) = [] /\
  gif (gifExporter exported)
    = Some (mkGif (orElse (quality options) 10)
              (width (canvas (animationEngine w))) (height (canvas (animationEngine w)))) /\
  frameDelay (gifExporter (startExport options w)) = orElse (delay options) 50 /\
  exists events,
    trace exported = trace w ++ events /\
    frameDelays events = repeat (orElse (delay options) 50) (Z.to_nat total).
Proof.
  intros L A total c N C. cbn zeta.
  destruct (export_delays options w L A N C) as (PL & G & Ev).
  destruct (startExport_delay options w L C N) as (D & _).
  split; [exact PL |]. split; [exact G |]. split; [exact D | exact Ev].
Qed.

Lemma delay_of_speed (sp : Z) :
  (1 <= sp <= 10)%Z -> (10 <= Js.floor (100 / inject_Z sp) <= 100)%Z.
Proof.
  intros [L U]. rewrite Zle_Qle in L, U.
  change (inject_Z 1) with 1 in L. change (inject_Z 10) with 10 in U.
  split.
  - rewrite <- (JsFacts.floor_inject 10) at 1. apply Qfloor_resp_le.
    change (inject_Z 10) with 10. apply Qle_shift_div_l; lra.
  - apply floor_below. change (inject_Z 100) with 100. apply Qle_shift_div_r; lra.
Qed.

(** X27.  The page's export button, after the speed slider was set to any
    value [v]: the speed in force is [v] clamped to 1..10, so the frame
    delay [floor (100 / speed)] lies between 10 and 100 ms and is never
    replaced by the exporter's default; 60 animation frames later the
    capture loop has halted and the encoder, created at quality 10, has
    received 30 frames, each with that delay. *)
Theorem page_export_delay_follows_speed (v : Z) (app : App) :
  isImageLoaded app = true ->
  gifLoaded (page app) = true ->
  Forall isAnimate (pending (page app)) ->
  let app' := handleExport (handleSpeedChange v app) in
  let exported := animationFrames 60 (page app') in
  let d := Js.floor (100 / inject_Z (Z.max 1 (Z.min 10 v))) in
  (10 <= d <= 100)%Z /\
  isImageLoaded app' = true /\
  filter isCaptureLoop (pending exported) = [] /\
  (exists size, gif (gifExporter exported) = Some (mkGif 10 (fst size) (snd size))) /\
  exists events,
    trace exported = trace (page app) ++ events /\
    frameDelays events = repeat d 30.
Proof.
  intros I L A. cbn zeta.
  pose proof (delay_of_speed (Z.max 1 (Z.min 10 v)) ltac:(lia)) as B.
  split; [exact B |].
  unfold handleExport, handleSpeedChange. rewrite I. cbn [isImageLoaded negb page].
  split; [reflexivity |].
  set (w := updAnimation (setSpeed v) (page app)).
  change (speed (animationEngine w)) with (Z.max 1 (Z.min 10 v)).
  set (d := Js.floor (100 / inject_Z (Z.max 1 (Z.min 10 v)))) in *.
  set (options := mkExportOptions (Some 30%Z) (Some d) (Some 10%Z) (Some 2%Z)).
  destruct (export_delays options w L A ltac:(reflexivity) ltac:(reflexivity))
    as (PL & G & events & T & De).
  change (Z.to_nat (orElse (frames options) 30 * orElse (captureInterval options) 2))
    with 60%nat in PL, G, T.
  split; [exact PL |]. split.
  - exists (width (canvas (animationEngine w)), height (canvas (animationEngine w))).
    exact G.
  - exists events. split; [exact T |]. rewrite De.
    unfold options. cbn [delay orElse]. unfold orDefault.
    destruct (d =? 0)%Z eqn:E; [apply Z.eqb_eq in E; lia | reflexivity].
Qed.

Lemma frames_of_idle_page (n : nat) (w : World) :
  pending w = [] -> animationFrames (S n) w = idle w.
Proof.
  intro P. induction n as [| n IH].
  - cbn. unfold animationFrame. rewrite P. reflexivity.
  - rewrite animationFrames_last, IH. unfold animationFrame. reflexivity.
Qed.

(** X28.  The reset button while the animation plays: the loop's callback
    is cancelled, the animation stopped and the image dropped, so the frames
    that follow change nothing; and until an image is loaded again every
    handler of the page returns without doing anything. *)
Theorem reset_stops_and_disables_the_page (app : App) (id : Z) :
  isImageLoaded app = true ->
  animationId (animationEngine (page app)) = Some id ->
  pending (page app) = [(id, Animate)] ->
  id <> 0%Z ->
  let app' := handleReset app in
  isImageLoaded app' = false /\
  isRunning (animationEngine (page app')) = false /\
  pending (page app') = [] /\
  originalImage (pixelateEngine (page app')) = None /\
  originalImageData (pixelateEngine (page app')) = None /\
  trace (page app') = trace (page app) /\
  (forall n, animationFrames (S n) (page app') = idle (page app')) /\
  (forall size, handlePixelSizeChange size app' = app') /\
  (forall effect, handleEffectChange effect app' = app') /\
  (forall v, handleIntensityChange v app' = app') /\
  (forall v, handleSpeedChange v app' = app') /\
  handleExport app' = app' /\
  handleReset app' = app'.
Proof.
  intros I Id P N. cbn zeta. unfold handleReset. rewrite I. cbn [negb].
  assert (S0 : stop (page app)
             = updAnimation (setAnimationId None)
                 (cancelAnimationFrame id (updAnimation (setRunning false) (page app)))).
  { unfold stop.
    change (animationId (animationEngine (updAnimation (setRunning false) (page app))))
      with (animationId (animationEngine (page app))).
    rewrite Id. apply Z.eqb_neq in N. rewrite N. reflexivity. }
  assert (P0 : pending (stop (page app)) = []).
  { rewrite S0. cbn. rewrite P. cbn. rewrite Z.eqb_refl. reflexivity. }
  cbn [isImageLoaded page].
  split; [reflexivity |]. split; [rewrite S0; reflexivity |].
  split; [exact P0 |]. split; [reflexivity |]. split; [reflexivity |].
  split; [rewrite S0; reflexivity |].
  split; [intro n; apply frames_of_idle_page; exact P0 |].
  repeat split.
Qed.

End PageFacts.

Lemma frames_carry_the_requested_delay_witness :
  exists events,
    trace (animationFrames (canvas2d := nearestCanvas) (math := seriesMath) 60
             (startExport (canvas2d := nearestCanvas) (math := seriesMath)
                thirtyFrames redWorld))
      = trace redWorld ++ events /\
    frameDelays events = repeat 20%Z 30.
Proof.
  destruct (frames_carry_the_requested_delay (canvas2d := nearestCanvas)
              (math := seriesMath) thirtyFrames redWorld) as (_ & _ & _ & Delays).
  - vm_compute. reflexivity.
  - vm_compute. constructor.
  - reflexivity.
  - reflexivity.
  - exact Delays.
Defined.

Lemma page_export_delay_follows_speed_witness :
  exists events,
    trace (animationFrames (canvas2d := nearestCanvas) (math := seriesMath) 60
             (page (handleExport (canvas2d := nearestCanvas) (math := seriesMath)
                      (handleSpeedChange 7 redApp))))
      = trace (page redApp) ++ events /\
    frameDelays events = repeat 14%Z 30.
Proof.
  destruct (page_export_delay_follows_speed (canvas2d := nearestCanvas)
              (math := seriesMath) 7 redApp) as (_ & _ & _ & _ & Delays).
  - reflexivity.
  - vm_compute. reflexivity.
  - vm_compute. constructor.
  - exact Delays.
Defined.

Lemma reset_stops_and_disables_the_page_witness :
  let app :=
    mkApp (start (canvas2d := nearestCanvas) (math := seriesMath) redWorld) true in
  pending (page (handleReset app)) = [].
Proof.
  destruct (reset_stops_and_disables_the_page (canvas2d := nearestCanvas)
              (math := seriesMath)
              (mkApp (start (canvas2d := nearestCanvas) (math := seriesMath) redWorld) true)
              1) as (_ & _ & Cancelled & _).
  - reflexivity.
  - vm_compute. reflexivity.
  - vm_compute. reflexivity.
  - discriminate.
  - exact Cancelled.
Defined.
